(* ===== verification/_CoqProject ===== *)
-Q . S2P
Prelude.v
Usize.v
RustVec.v
Chunks.v
SliceChunks.v
Level.v
Binary.v
Rounding.v
Scaling.v
Ieee.v
Exact.v
Accumulator.v
Gain.v
Range.v
Analyzer.v
Boundary.v
