(* ===== verification/Prelude.v ===== *)
(** * mutcutt audio-level analyser: a verification development

    The program (src/src/core/wasm/src/lib.rs, a WebAssembly module built
    with wasm-bindgen and called from a Web Worker) computes a loudness
    profile of a mono PCM buffer: the buffer of [f32] samples is cut
    into consecutive chunks of [chunk_size_samples] samples (the last one
    possibly shorter), the RMS of every chunk is computed with an [f64]
    accumulator, and every RMS is converted to dBFS as
    [20 * log10 (max rms MIN_RMS)].  Its parts:

    - [calculate_rms] (lib.rs 27-39): the RMS reducer.
    - [rms_to_dbfs] (lib.rs 47-54) with the constant [MIN_RMS] (line 7):
      the decibel converter.
    - [analyze_audio_rms] (lib.rs 67-108): the exported operation.  It
      copies the JS [Float32Array] into a [Vec<f32>] (line 73), guards
      the empty cases (78-81), precomputes the number of chunks in
      [usize] arithmetic (84), reserves a [Vec] of that capacity (85),
      drains a [chunks_exact] iterator (92-97), handles its remainder
      (100-104), and copies the levels into a new JS array (108).
    - [init_panic_hook] (lines 13-17): installs the console panic hook
      when the crate feature is on.

    Data flows one way: JS calls the module; the analyser calls the
    [chunks_exact] iterator of the Rust core library, the [Vec] of
    alloc, the two numeric functions and the [Float32Array] methods of
    js-sys.  The only state that survives a call is the JS heap and the
    installed panic hook.  The files, in dependency order (_CoqProject):

    - [Prelude] (this file): the outcome type of Rust code that may panic
      ([Ok], [Panic], and [OutOfFuel] for a model loop given too little
      fuel), its bind notation in [rust_scope], the monadic fold
      [fold_outcome], [div_ceil], the hint database [audio], and the
      shared lemmas on lists and on division.
    - [Usize]: wasm32 [usize] / [isize] (32 bits) as Z.  Addition and
      subtraction are checked (debug build, panicking) or wrapping
      (release build); division panics on zero.
    - [RustVec], Module [Vec]: [Vec<T>] as its buffer and capacity, with
      [with_capacity], [push] and the amortised growth of [RawVec]
      ([grow_amortized]); a layout over [isize::MAX] is a panic.
    - [Chunks], Module [ChunksExact]: the [core::slice::ChunksExact]
      iterator ([new], [next], [remainder]) as a record of its three
      fields, its step relation [step]/[steps] with the invariant [inv],
      the [for] loop over it as the fuelled fixpoint [for_each], and the
      spec's partition by index [chunks_ref] that the iterator refines.
    - [SliceChunks], Module [SliceChunks]: [core::slice::Chunks], the
      iterator the code's [chunks_exact] plus remainder stands for; the
      reference of the equivalence theorem.
    - [Level]: [calculate_rms], [rms_to_dbfs] and [MIN_RMS] written once
      against the type class [PcmArith] of the scalar operations the
      code uses: f32 literals, [as] casts, [*], [+], [/], [sqrt],
      [f32::max], [log10], and the [-0.0] seed of [Iterator::sum].  The
      class is the interface between the numeric code and its
      arithmetic.
    - [Binary]: what [SpecFloat] lacks: the format conversion of [as]
      casts ([sf_convert]), sign and NaN lemmas for each operation,
      comparison lemmas, and exact rounding: of representable values,
      of values with trailing zero bits, and exact right shifts.
    - [Rounding]: the arithmetic meaning of [SpecFloat]'s rounding
      steps ([shr_1] shifts divide and record the lost bits; rounding
      to nearest is at most the ceiling) and [binary_round_bound]:
      rounding a value at most [K * 2^F], [K < 2^prec], gives zero or a
      finite value still at most [K * 2^F], never an infinity.
    - [Ieee]: the instance [ieee_arith] that is the program: binary32
      and binary64 as Stdlib's executable [spec_float] at (24, 128) and
      (53, 1024), round to nearest even, Rust's NaN-ignoring
      [f32::max] ([rust_fmax]), and correctly rounded literals.
      [log10f] of libm is a section variable, so no law of it is
      assumed beyond what a theorem states as a hypothesis.
    - [Exact]: exactness of the IEEE reducer on chunks of one
      magnitude [m * 2^e]: each f64 square is [a^2 * 2^(2 (e + t))]
      ([a] the odd part of [m], [t] its trailing zeros, [f64_of]), the
      f64 sum of such squares is exact below [2^53], so is the division
      by [n as f64] and the square root, and [as f32] undoes the
      widening.
    - [Accumulator]: the f64 sum of squares of line 34 stays below
      [n * 2^256] for finite samples, so it never overflows.
    - [Scaling]: rounding commutes with a power-of-two scaling
      [sf_scale k] (the exponent moved by [k]): [binary_round], the
      additions of two positives, [SFmul], [SFdiv] and [SFsqrt] of
      [SpecFloat] give the scaled result of the scaled operands while
      the values stay in the normal range; also bounds on the
      magnitude [digits m + e] of their results, from which finiteness
      follows.  Section [Shift] states them for any format (prec, emax).
    - [Gain]: a power-of-two gain [2^k] on every sample scales the IEEE
      RMS by exactly [2^k]: each f64 square, the f64 sum, the quotient,
      the root and the narrowing of lines 34-38 commute with the gain.
    - [Range]: the RMS of finite samples below [2^125] in magnitude is a
      finite f32: the magnitudes of the f64 sum, quotient and root are
      bounded, and the root below [2^127] cannot round to [+inf].
    - [Analyzer]: [analyze_audio_rms] (with [num_chunks_expr],
      [fill_results], [push_level]) against [PcmArith], in both
      overflow modes; the spec's result [analyze_spec]; and, in Section
      [IeeeLevels], the result of the IEEE program on silent and on
      constant-magnitude buffers (the spec's scenarios are witnesses).
    - [Boundary]: the JS side.  Module [Js] holds the JS heap of
      [Float32Array] objects as a stdpp [gmap] and the js-sys calls of
      lines 73, 80 and 108; [analyzeAudioRms] is the exported function
      with its marshalling; [init_panic_hook], [set_once] and
      [report_panic] model the panic hook; [run_call], [run_session]
      and [reachable] make a module instance a state machine over the
      calls JS makes, each answered by an array or a trap; [call_spec]
      is the stateless contract of spec 5 that sessions refine.

    The theorems, by group (claim ids as in PROJECT.json):
    - the analyser (C1, C2, C4, C5, C14, C15, C17, C29, C30, C32, C36):
      in a release build, [ceil (len / c)] levels with level [i] from
      chunk [i], also when line 84 wraps; the empty guards; the exact
      condition of the debug-build overflow panic on line 84; the
      reserved capacity is exact and never grows; in both build
      profiles when line 84 does not overflow: a silent buffer gives
      the floor for every chunk, and a buffer split after whole chunks
      and analysed by segment gives the same levels (spec 5); the
      [chunks_exact] loop plus remainder is equivalent to a loop over
      [chunks]; the value line 84 computes in a release build, which
      is exact iff [t + c - 1] fits in a [usize]; a buffer of one
      magnitude [m * 2^e] gives the level of exactly that magnitude for
      every chunk when [len c * odd(m)^2 < 2^53]; negating every sample
      leaves the whole result unchanged bit for bit (polarity
      invariance, panics included); with chunk size 1 every level is
      exactly [rms_to_dbfs |x|] of its sample.
    - the iterator (C3, C10-C13): the loop plus remainder refines the
      partition; the invariant by rule induction on [steps];
      termination with fuel [length v / chunk_size + 1]; draining the
      iterator gives back the slice, in chunks of exactly [n] samples
      and a remainder of [length mod n].
    - the IEEE numeric code (C6-C9, C19-C21, C31, C33, C34): the clamp
      keeps [log10f] on [+inf] or [[MIN_RMS, max]]; every sub-epsilon
      RMS, NaN included, gives one floor; the RMS is never negative; a
      silent chunk has RMS exactly [+0.0]; a power-of-two gain scales
      the RMS exactly; samples below [2^125] give a finite RMS; a chunk
      without NaN samples, infinities included, has an RMS that is not
      NaN; the f64 sum of squares of finite samples never overflows (at
      most [n * 2^256], spec 4.1); a NaN sample makes the RMS NaN and
      the level the floor; an infinite sample makes it [+inf].
    - the vector (C35): [push] keeps [len <= cap] and a valid layout,
      appends exactly the value, and bounds the growth.
    - the boundary (C16, C18, C22-C28): a session refines the stateless
      contract [call_spec]; a call mutates no JS array and returns a
      fresh one; in a release build it holds the spec's levels; the
      debug overflow is trapped and logged once the hook is installed;
      the hook invariant of reachable instances by rule induction;
      every session of calls is answered in full; two identical calls
      give identical arrays (spec 8); one console message per trap; an
      array of more than [isize::MAX / 4] samples traps in [to_vec]
      before any guard, even with chunk size 0, and leaves the heap
      unchanged.

    Fuel.  The [for] loops are fixpoints on fuel.  The analyser gives the
    [chunks_exact] loop [S (length pcm)] steps.  Each step consumes
    [chunk_size >= 1] samples, so [length pcm / chunk_size + 1] steps
    suffice; [ChunksExact.for_each_enough_fuel] and
    [ChunksExact.for_each_new] prove that [OutOfFuel] is unreachable, and
    [Boundary.session_answered] lifts this to whole sessions.  The
    [chunks] loop needs [ceil (len / c) + 1 <= len + 1] steps.  Memory
    bound: [Float32Array::to_vec] reserves [4 * len] bytes, so a call
    on an array above [isize::MAX] bytes panics with a capacity
    overflow, and every theorem about the levels assumes
    [4 * len <= isize::MAX].  Exactness bound: [len < 2^53], the integers
    f64 holds exactly, far above any wasm32 buffer.  For the exact RMS
    of a constant-magnitude chunk the bound is [n * a^2 < 2^53] with
    [a] the odd part of the mantissa: the sum [n a^2] must be an f64
    integer.  It holds for every power of two (full scale [+-1.0]
    included) at every wasm32 length, and for [a < 2^12] up to chunks
    of [2^29] samples.  Beyond it the sum is rounded and the RMS is
    within rounding of the magnitude, not proved here.  Overflow bound:
    each f64 square of a binary32 value is at most [2^256], so a sum of
    [n < 2^53] of them is at most [2^309], far below [2^1024].  Range
    bounds: the gain theorem asks the RMS to be a normal f32 (mantissa
    of 24 bits, exponent above [-149]) before and after the gain, and
    the sum of squares to stay above [2^-400], which finite binary32
    squares always do; the finiteness theorem asks every sample to be
    below [2^125], so that the root is below [2^127].

    Not modelled: the JS glue code that wasm-bindgen generates (argument
    conversion of [chunkSizeSamples], object tables), whose only effect
    on the program is to pass a [usize] and a live array; the temporary
    view object [Float32Array::from] creates before copying; allocation
    failure, a process abort outside the numeric contract; the values of
    [log10f] (platform libm); relative error bounds for the RMS of
    chunks whose f64 sum of squares is rounded: [Rounding] bounds
    rounding from above only, and a two-sided error analysis of [SFadd],
    [SFdiv] and [SFsqrt] (what Flocq provides, not installed here) would
    be needed; for the same reason the finiteness of the RMS is proved
    for samples below [2^125] only, and the monotonicity of the IEEE
    level in the amplitude (which needs monotone rounding) is not
    proved.  Spec 5 permits parallel chunk workers, but lib.rs has no
    parallel code, so there is nothing of it to model. *)

From Stdlib Require Import List ZArith Lia Arith.
Import ListNotations.

(** ** Outcomes of Rust code that may panic *)

Inductive panic_reason : Type :=
| AddOverflow        (* "attempt to add with overflow" *)
| SubOverflow        (* "attempt to subtract with overflow" *)
| DivisionByZero     (* "attempt to divide by zero" *)
| ZeroChunkSize      (* assert!(chunk_size != 0) in chunks_exact *)
| CapacityOverflow.  (* RawVec: layout size above isize::MAX *)

Inductive outcome (A : Type) : Type :=
| Ok (a : A)
| Panic (p : panic_reason)
| OutOfFuel.
Arguments Ok {A} a.
Arguments Panic {A} p.
Arguments OutOfFuel {A}.

Definition bind {A B : Type} (m : outcome A) (k : A -> outcome B) : outcome B :=
  match m with
  | Ok a => k a
  | Panic p => Panic p
  | OutOfFuel => OutOfFuel
  end.

Declare Scope rust_scope.
Delimit Scope rust_scope with rust.

Notation "x <- m ;; k" := (bind m (fun x => k))
  (at level 60, m at next level, right associativity) : rust_scope.
Notation "' pat <- m ;; k" := (bind m (fun x => match x with pat => k end))
  (at level 60, pat pattern, m at next level, right associativity) : rust_scope.

Open Scope rust_scope.

(** The body of a loop that may panic, folded over a list. *)
Fixpoint fold_outcome {B C : Type} (f : C -> B -> outcome B) (cs : list C) (acc : B)
  : outcome B :=
  match cs with
  | [] => Ok acc
  | c :: cs' => acc' <- f c acc ;; fold_outcome f cs' acc'
  end.

(** [<[T]>::is_empty]. *)
Definition is_empty {A : Type} (l : list A) : bool :=
  match l with [] => true | _ :: _ => false end.

(** Ceiling division on lengths, [(a + n - 1) / n] without overflow. *)
Definition div_ceil (a n : nat) : nat := (a + n - 1) / n.

Create HintDb audio.
Create Rewrite HintDb audio.

(** ** Lemmas on outcomes *)

Lemma bind_Ok_inv {A B : Type} (m : outcome A) (k : A -> outcome B) (b : B) :
  bind m k = Ok b -> exists a, m = Ok a /\ k a = Ok b.
Proof. destruct m; simpl; intros H; [eauto | discriminate | discriminate]. Qed.

Lemma bind_Ok {A B : Type} (a : A) (k : A -> outcome B) : bind (Ok a) k = k a.
Proof. reflexivity. Qed.

Lemma fold_outcome_app {B C : Type} (f : C -> B -> outcome B) cs1 cs2 acc :
  fold_outcome f (cs1 ++ cs2) acc =
  acc' <- fold_outcome f cs1 acc ;; fold_outcome f cs2 acc'.
Proof.
  revert acc; induction cs1 as [|c cs1 IH]; intros acc; simpl; [reflexivity|].
  destruct (f c acc); simpl; auto.
Qed.

Lemma fold_outcome_no_fuel {B C : Type} (f : C -> B -> outcome B) cs acc :
  (forall c b, f c b <> OutOfFuel) -> fold_outcome f cs acc <> OutOfFuel.
Proof.
  intros Hf. revert acc; induction cs as [|c cs IH]; intros acc; simpl; [discriminate|].
  specialize (Hf c acc). destruct (f c acc); simpl; [apply IH | discriminate | contradiction].
Qed.

Lemma fold_outcome_ext {B C : Type} (f f' : C -> B -> outcome B) cs acc :
  (forall c b, f c b = f' c b) -> fold_outcome f cs acc = fold_outcome f' cs acc.
Proof.
  intros Hf. revert acc; induction cs as [|c cs IH]; intros acc; simpl; [reflexivity|].
  rewrite Hf. destruct (f' c acc); simpl; auto.
Qed.

Lemma fold_outcome_map {B C D : Type} (f : D -> B -> outcome B) (g : C -> D) cs acc :
  fold_outcome f (map g cs) acc = fold_outcome (fun c => f (g c)) cs acc.
Proof.
  revert acc; induction cs as [|c cs IH]; intros acc; simpl; [reflexivity|].
  destruct (f (g c) acc); simpl; auto.
Qed.

#[export] Hint Rewrite @bind_Ok : audio.

(** Eliminates a hypothesis [bind m k = Ok b] into its two halves. *)
Ltac ok_inv H :=
  let a := fresh "a" in let Ha := fresh "Hm" in let Hk := fresh "Hk" in
  apply bind_Ok_inv in H; destruct H as (a & Ha & Hk).

(** ** Division *)

Lemma div_ceil_spec (a n : nat) :
  0 < n -> div_ceil a n = a / n + (if a mod n =? 0 then 0 else 1).
Proof.
  intros Hn. unfold div_ceil.
  pose proof (Nat.div_mod_eq a n) as Hd.
  pose proof (Nat.mod_upper_bound a n ltac:(lia)) as Hm.
  destruct (Nat.eqb_spec (a mod n) 0) as [H0|H0].
  - replace (a + n - 1) with ((n - 1) + (a / n) * n) by nia.
    rewrite Nat.div_add by lia. rewrite Nat.div_small by lia. lia.
  - replace (a + n - 1) with ((a mod n - 1) + (a / n + 1) * n) by nia.
    rewrite Nat.div_add by lia. rewrite Nat.div_small by lia. lia.
Qed.

Lemma div_ceil_pos (a n : nat) : 0 < n -> 0 < a -> 0 < div_ceil a n.
Proof.
  intros Hn Ha. rewrite div_ceil_spec by exact Hn.
  destruct (Nat.eqb_spec (a mod n) 0) as [H0|H0]; [|lia].
  pose proof (Nat.div_mod_eq a n). nia.
Qed.

Lemma div_ceil_le (a n : nat) : 0 < n -> div_ceil a n <= a.
Proof.
  intros Hn. rewrite div_ceil_spec by exact Hn. pose proof (Nat.div_mod_eq a n).
  destruct (Nat.eqb_spec (a mod n) 0); nia.
Qed.

Lemma div_mul_le (a n : nat) : a / n * n <= a.
Proof. rewrite Nat.mul_comm. apply Nat.Div0.mul_div_le. Qed.

Lemma div_lt_succ (a n : nat) : 0 < n -> a / n < S a.
Proof. intros Hn. pose proof (Nat.div_mod_eq a n). nia. Qed.

(** A non-empty length loses one chunk per stride of [n]. *)
Lemma div_ceil_step (a n : nat) : 0 < n -> 0 < a -> div_ceil a n = S (div_ceil (a - n) n).
Proof.
  intros Hn Ha. unfold div_ceil. symmetry.
  destruct (Nat.leb_spec a n).
  - rewrite (Nat.div_small (a - n + n - 1)) by lia.
    apply Nat.div_unique with (r := a - 1); lia.
  - pose proof (Nat.div_mod_eq (a - n + n - 1) n) as Hd.
    pose proof (Nat.mod_upper_bound (a - n + n - 1) n ltac:(lia)) as Hm.
    apply Nat.div_unique with (r := (a - n + n - 1) mod n); [exact Hm | nia].
Qed.

(** ** Lists *)

Lemma firstn_skipn_length_le {A : Type} (n k : nat) (l : list A) :
  n + k <= length l -> length (firstn n (skipn k l)) = n.
Proof. intros H. rewrite length_firstn, length_skipn. lia. Qed.

Lemma firstn_add_skipn {A : Type} (a b : nat) (l : list A) :
  firstn (a + b) l = firstn a l ++ firstn b (skipn a l).
Proof.
  revert l; induction a as [|a IH]; intros l; [reflexivity|].
  destruct l as [|x l]; simpl; [now rewrite firstn_nil | now rewrite IH].
Qed.

Lemma map_seq_shift {B : Type} (f : nat -> B) (start len : nat) :
  map f (seq (S start) len) = map (fun i => f (S i)) (seq start len).
Proof. rewrite <- seq_shift, map_map. reflexivity. Qed.

Lemma in_firstn_l {A : Type} (n : nat) (l : list A) x : In x (firstn n l) -> In x l.
Proof. intros H. rewrite <- (firstn_skipn n l). apply in_or_app. now left. Qed.

Lemma in_skipn_l {A : Type} (n : nat) (l : list A) x : In x (skipn n l) -> In x l.
Proof. intros H. rewrite <- (firstn_skipn n l). apply in_or_app. now right. Qed.

(** A map whose function is constant on the list is a [repeat]. *)
Lemma map_Forall_const {A B : Type} (f : A -> B) (v : B) (l : list A) :
  Forall (fun y => f y = v) l -> map f l = repeat v (length l).
Proof. induction 1 as [|y l Hy _ IH]; [reflexivity|]. simpl. now rewrite Hy, IH. Qed.

#[export] Hint Rewrite @length_firstn @length_skipn @length_app @length_map
  @length_seq : audio.
#[export] Hint Resolve div_mul_le firstn_skipn_length_le : audio.
