(* ===== verification/Usize.v ===== *)
(** * [usize] and [isize] of the wasm32 target

    The crate is built for [wasm32-unknown-unknown], where [usize] and
    [isize] are 32 bits wide.  Values are Z in [0, usize_max].  Rust's
    [+] and [-] on [usize] panic on overflow in builds with overflow
    checks (the debug profile) and wrap modulo [2^32] without them (the
    release profile); [/] panics on a zero divisor in both. *)

From Stdlib Require Import ZArith Lia.
From S2P Require Import Prelude.
Open Scope rust_scope.
Local Open Scope Z_scope.

Definition usize_bits : Z := 32.
Definition usize_modulus : Z := 2 ^ usize_bits.
Definition usize_max : Z := usize_modulus - 1.
Definition isize_max : Z := 2 ^ (usize_bits - 1) - 1.

(** A value of type [usize]. *)
Definition in_usize (z : Z) : Prop := 0 <= z <= usize_max.

(** Whether the build checks arithmetic overflow ([overflow-checks]). *)
Inductive overflow_mode : Type :=
| Checked   (* debug profile: overflow panics *)
| Wrapping. (* release profile: two's-complement wrap-around *)

(** [a + b] on [usize]. *)
Definition usize_add (mode : overflow_mode) (a b : Z) : outcome Z :=
  let r := a + b in
  if r <=? usize_max then Ok r
  else match mode with
       | Checked => Panic AddOverflow
       | Wrapping => Ok (r mod usize_modulus)
       end.

(** [a - b] on [usize]. *)
Definition usize_sub (mode : overflow_mode) (a b : Z) : outcome Z :=
  let r := a - b in
  if 0 <=? r then Ok r
  else match mode with
       | Checked => Panic SubOverflow
       | Wrapping => Ok (r mod usize_modulus)
       end.

(** [a / b] on [usize]: division by zero panics in every profile. *)
Definition usize_div (a b : Z) : outcome Z :=
  if b =? 0 then Panic DivisionByZero else Ok (a / b).

(** ** Lemmas *)

Lemma usize_modulus_value : usize_modulus = 4294967296.
Proof. reflexivity. Qed.

Lemma usize_max_value : usize_max = 4294967295.
Proof. reflexivity. Qed.

Lemma isize_max_value : isize_max = 2147483647.
Proof. reflexivity. Qed.

#[export] Hint Rewrite usize_modulus_value usize_max_value isize_max_value : audio.

Ltac usize_consts :=
  rewrite ?usize_max_value, ?usize_modulus_value, ?isize_max_value in *.

Lemma usize_add_nowrap mode a b :
  a + b <= usize_max -> usize_add mode a b = Ok (a + b).
Proof. intros H. unfold usize_add. now rewrite (proj2 (Z.leb_le _ _) H). Qed.

Lemma usize_add_checked_overflow a b :
  usize_max < a + b -> usize_add Checked a b = Panic AddOverflow.
Proof.
  intros H. unfold usize_add. now rewrite (proj2 (Z.leb_gt _ _) H).
Qed.

(** In release builds the sum is always defined and stays in range. *)
Lemma usize_add_wrapping_range a b :
  in_usize a -> in_usize b ->
  exists r, usize_add Wrapping a b = Ok r /\ in_usize r.
Proof.
  unfold in_usize, usize_add. usize_consts. intros Ha Hb.
  destruct (Z.leb_spec (a + b) 4294967295).
  - eexists; split; [reflexivity | lia].
  - eexists; split; [reflexivity|].
    pose proof (Z.mod_pos_bound (a + b) 4294967296 ltac:(lia)). lia.
Qed.

Lemma usize_sub_wrapping_range a b :
  in_usize a -> in_usize b ->
  exists r, usize_sub Wrapping a b = Ok r /\ in_usize r.
Proof.
  unfold in_usize, usize_sub. usize_consts. intros Ha Hb.
  destruct (Z.leb_spec 0 (a - b)).
  - eexists; split; [reflexivity | lia].
  - eexists; split; [reflexivity|].
    pose proof (Z.mod_pos_bound (a - b) 4294967296 ltac:(lia)). lia.
Qed.

Lemma usize_sub_nowrap mode a b :
  b <= a -> usize_sub mode a b = Ok (a - b).
Proof.
  intros H. unfold usize_sub. now rewrite (proj2 (Z.leb_le 0 (a - b)) ltac:(lia)).
Qed.

Lemma usize_div_nonzero a b : b <> 0 -> usize_div a b = Ok (a / b).
Proof. intros H. unfold usize_div. now rewrite (proj2 (Z.eqb_neq b 0) H). Qed.
