(* ===== verification/RustVec.v ===== *)
(** * [alloc::vec::Vec] as used by the analyser

    A vector is its buffer (the initialised prefix) and its capacity.
    [with_capacity] and [push] follow [RawVec]: a layout above
    [isize::MAX] bytes is a capacity-overflow panic.  A full vector
    grows to [max (2 * cap) (len + 1)], and at least to
    [min_non_zero_cap] (4 for elements of 2 to 1024 bytes such as
    [f32]).  Allocation failure aborts the process and is not
    modelled. *)

From Stdlib Require Import List ZArith Lia.
From S2P Require Import Prelude Usize.
Import ListNotations.
Open Scope rust_scope.
Local Open Scope Z_scope.

Module Vec.
Section WithElem.
Context {A : Type}.
(** [size_of::<T>()] in bytes. *)
Variable elem_size : Z.

Record t : Type := mk { buf : list A; cap : Z }.

(** [RawVec::MIN_NON_ZERO_CAP]. *)
Definition min_non_zero_cap : Z :=
if elem_size =? 1 then 8 else if elem_size <=? 1024 then 4 else 1.

(** [Layout::array::<T>(c)] succeeds. *)
Definition layout_ok (c : Z) : bool := c * elem_size <=? isize_max.

Definition with_capacity (c : Z) : outcome t :=
if layout_ok c then Ok (mk [] c) else Panic CapacityOverflow.

(** [RawVec::grow_amortized (len, additional)]. *)
Definition grow_amortized (v : t) (additional : Z) : outcome t :=
let required_cap := Z.of_nat (length (buf v)) + additional in
if usize_max <? required_cap then Panic CapacityOverflow
else
  let c := Z.max (cap v * 2) required_cap in
  let c := Z.max min_non_zero_cap c in
  if layout_ok c then Ok (mk (buf v) c) else Panic CapacityOverflow.

Definition push (v : t) (value : A) : outcome t :=
v' <- (if Z.of_nat (length (buf v)) =? cap v then grow_amortized v 1 else Ok v) ;;
Ok (mk (buf v' ++ [value]) (cap v')).

Definition as_slice (v : t) : list A := buf v.

(** The invariant of [Vec]: the initialised prefix fits in the
    capacity, and the capacity is a valid layout. *)
Definition wf (v : t) : Prop :=
  Z.of_nat (length (buf v)) <= cap v /\ layout_ok (cap v) = true.

(** ** Lemmas *)

Lemma push_spare (v : t) x :
Z.of_nat (length (buf v)) < cap v -> push v x = Ok (mk (buf v ++ [x]) (cap v)).
Proof.
intros H. unfold push.
destruct (Z.eqb_spec (Z.of_nat (length (buf v))) (cap v)); [lia | reflexivity].
Qed.

(** Pushing a list of values into spare capacity never reallocates. *)
Lemma push_all_spare (v : t) (xs : list A) :
Z.of_nat (length (buf v) + length xs) <= cap v ->
fold_outcome (fun x w => push w x) xs v = Ok (mk (buf v ++ xs) (cap v)).
Proof.
revert v; induction xs as [|x xs IH]; intros v H; simpl.
- destruct v; simpl; now rewrite app_nil_r.
- simpl length in H. rewrite push_spare by lia. simpl. rewrite IH; simpl.
  + now rewrite <- app_assoc.
  + rewrite length_app. simpl. lia.
Qed.

(** A push into a full vector grows it to the amortised capacity. *)
Lemma push_full (v : t) x :
Z.of_nat (length (buf v)) = cap v ->
Z.of_nat (length (buf v)) + 1 <= usize_max ->
layout_ok (Z.max min_non_zero_cap (Z.max (cap v * 2) (Z.of_nat (length (buf v)) + 1))) = true ->
push v x = Ok (mk (buf v ++ [x])
                 (Z.max min_non_zero_cap (Z.max (cap v * 2) (Z.of_nat (length (buf v)) + 1)))).
Proof.
intros Hfull Hmax Hlay. unfold push, grow_amortized.
rewrite (proj2 (Z.eqb_eq _ _) Hfull), (proj2 (Z.ltb_ge _ _) Hmax), Hlay.
reflexivity.
Qed.

Lemma with_capacity_ok c :
c * elem_size <= isize_max -> with_capacity c = Ok (mk [] c).
Proof. intros H. unfold with_capacity, layout_ok. now rewrite (proj2 (Z.leb_le _ _) H). Qed.

Lemma with_capacity_wf c v : 0 <= c -> with_capacity c = Ok v -> wf v.
Proof.
intros Hc. unfold with_capacity. destruct (layout_ok c) eqn:E; [|discriminate].
intros H. injection H as <-. split; [simpl; lia | exact E].
Qed.

(** C35: [push] keeps the invariant of [Vec]: the value is appended and
    nothing else changes in the buffer, the capacity never shrinks, and
    a reallocation grows it to at most the larger of twice the old
    capacity, [MIN_NON_ZERO_CAP] and the new length. *)
Theorem push_wf (v : t) x v' :
wf v -> push v x = Ok v' ->
wf v' /\ buf v' = buf v ++ [x] /\ cap v <= cap v' /\
cap v' <= Z.max (Z.max min_non_zero_cap (cap v * 2)) (Z.of_nat (length (buf v)) + 1).
Proof.
intros [Hlen Hlay] Hp. unfold push, grow_amortized in Hp.
destruct (Z.eqb_spec (Z.of_nat (length (buf v))) (cap v)) as [Hfull|Hspare].
- destruct (usize_max <? Z.of_nat (length (buf v)) + 1) eqn:Eu; [discriminate|].
  destruct (layout_ok (Z.max min_non_zero_cap _)) eqn:El; [|discriminate]. cbn [bind] in Hp.
  injection Hp as <-. unfold wf; simpl. rewrite length_app; simpl.
  repeat split; [lia | exact El | lia | lia].
- cbn [bind] in Hp. injection Hp as <-. unfold wf; simpl. rewrite length_app; simpl.
  repeat split; [lia | exact Hlay | lia | lia].
Qed.
End WithElem.

Lemma push_wf_witness :
  wf 4 (mk [1; 2; 3; 4] 4) /\ push 4 (mk [1; 2; 3; 4] 4) 5 = Ok (mk [1; 2; 3; 4; 5] 8) /\
  (wf 4 (mk [1; 2; 3; 4; 5] 8) /\ buf (mk [1; 2; 3; 4; 5] 8) = buf (mk [1; 2; 3; 4] 4) ++ [5] /\
   cap (mk [1; 2; 3; 4] 4) <= cap (mk [1; 2; 3; 4; 5] 8) /\
   cap (mk [1; 2; 3; 4; 5] 8) <=
     Z.max (Z.max (min_non_zero_cap 4) (cap (mk [1; 2; 3; 4] 4) * 2))
           (Z.of_nat (length (buf (mk [1; 2; 3; 4] 4))) + 1)).
Proof.
  assert (Hw : wf 4 (mk [1; 2; 3; 4] 4)) by (split; [simpl; lia | reflexivity]).
  assert (Hp : push 4 (mk [1; 2; 3; 4] 4) 5 = Ok (mk [1; 2; 3; 4; 5] 8)) by reflexivity.
  split; [exact Hw|]. split; [exact Hp|]. exact (push_wf 4 _ 5 _ Hw Hp).
Defined.
End Vec.
