(* ===== verification/Chunks.v ===== *)
(** * [core::slice::ChunksExact]: the iterator the analyser drains

    [pcm_slice.chunks_exact(chunk_size)] (lib.rs 92) builds the iterator,
    [for chunk in &mut chunks_iter] (lines 94-97) drains it, and
    [chunks_iter.remainder()] (line 100) returns the short tail.  The
    iterator is the record of its three fields [v], [rem] and
    [chunk_size], as in the core library: [new] splits the slice at
    [len - len % chunk_size] and panics on a zero chunk size, and [next]
    splits one chunk off the front of [v].

    The file proves the step invariant by rule induction on [steps].  It
    proves termination: every step shortens [v], and [for_each] never
    runs out of fuel given [length v / chunk_size + 1] steps.  It proves
    that the loop together with the remainder refines [chunks_ref], the
    partition of the slice by index that the spec describes, and that
    draining the iterator gives back the slice as chunks of exactly
    [chunk_size] samples followed by a remainder of [len mod chunk_size]. *)

From Stdlib Require Import List Arith Lia.
From S2P Require Import Prelude.
Import ListNotations.
Open Scope rust_scope.

Module ChunksExact.
Section WithElem.
Context {A : Type}.

Record t : Type := mk { v : list A; rem : list A; chunk_size : nat }.

(** [ChunksExact::new], after [assert!(chunk_size != 0)] in
  [<[T]>::chunks_exact]. *)
Definition new (slice : list A) (chunk_size : nat) : outcome t :=
if chunk_size =? 0 then Panic ZeroChunkSize
else
  let rem := length slice mod chunk_size in
  let fst_len := length slice - rem in
  Ok (mk (firstn fst_len slice) (skipn fst_len slice) chunk_size).

(** [<ChunksExact as Iterator>::next]. *)
Definition next (it : t) : option (list A * t) :=
if length (v it) <? chunk_size it then None
else Some (firstn (chunk_size it) (v it),
           mk (skipn (chunk_size it) (v it)) (rem it) (chunk_size it)).

(** [ChunksExact::remainder]. *)
Definition remainder (it : t) : list A := rem it.

(** [for chunk in &mut it { body }] with an accumulator threaded through
  the body; the iterator is returned for the later [remainder] call. *)
Fixpoint for_each {B : Type} (fuel : nat) (body : list A -> B -> outcome B)
  (it : t) (acc : B) : outcome (B * t) :=
match fuel with
| O => OutOfFuel
| S fuel' =>
    match next it with
    | None => Ok (acc, it)
    | Some (chunk, it') => acc' <- body chunk acc ;; for_each fuel' body it' acc'
    end
end.

(** ** Reference partition (spec section 4.3) *)

(** Chunk [i] of [l]: the samples at offsets [i * n] to [i * n + n - 1]. *)
Definition chunk_at (n : nat) (l : list A) (i : nat) : list A :=
firstn n (skipn (i * n) l).

(** All chunks, the last one possibly short: [ceil (len / n)] of them. *)
Definition chunks_ref (n : nat) (l : list A) : list (list A) :=
map (chunk_at n l) (seq 0 (div_ceil (length l) n)).

(** The full chunks only. *)
Definition full_chunks (n : nat) (l : list A) : list (list A) :=
map (chunk_at n l) (seq 0 (length l / n)).

(** ** Steps of the iterator *)

Inductive step : t -> list A -> t -> Prop :=
| step_next it c it' : next it = Some (c, it') -> step it c it'.

Inductive steps : t -> list (list A) -> t -> Prop :=
| steps_refl it : steps it [] it
| steps_cons it c it' cs it'' :
  step it c it' -> steps it' cs it'' -> steps it (c :: cs) it''.

(** The iterator's invariant: [v] holds whole chunks, [rem] less than
  one. *)
Definition inv (it : t) : Prop :=
0 < chunk_size it /\ length (v it) mod chunk_size it = 0 /\
length (rem it) < chunk_size it.

(** ** Lemmas on the partition *)

Lemma chunk_at_skipn n l i : chunk_at n (skipn n l) i = chunk_at n l (S i).
Proof. unfold chunk_at. rewrite skipn_skipn. do 2 f_equal. lia. Qed.

Lemma chunk_at_firstn n m l i :
S i * n <= m -> chunk_at n (firstn m l) i = chunk_at n l i.
Proof.
intros H. unfold chunk_at. rewrite skipn_firstn_comm, firstn_firstn.
f_equal. lia.
Qed.

Lemma chunk_at_length n l i :
S i * n <= length l -> length (chunk_at n l i) = n.
Proof. intros H. unfold chunk_at. apply firstn_skipn_length_le. lia. Qed.

(** The chunks below [q] of [l] are its first chunk followed by the
  chunks of the rest. *)
Lemma map_chunk_at_succ n l q :
map (chunk_at n l) (seq 0 (S q)) = firstn n l :: map (chunk_at n (skipn n l)) (seq 0 q).
Proof.
simpl (seq 0 (S q)). rewrite map_cons, map_seq_shift. f_equal.
apply map_ext. intros i. symmetry. apply chunk_at_skipn.
Qed.

Lemma concat_chunks_upto n l q :
q * n <= length l -> concat (map (chunk_at n l) (seq 0 q)) = firstn (q * n) l.
Proof.
revert l; induction q as [|q IH]; intros l H; [reflexivity|].
rewrite map_chunk_at_succ. simpl concat. rewrite IH by (rewrite length_skipn; simpl in H; lia).
replace (S q * n) with (n + q * n) by lia. now rewrite firstn_add_skipn.
Qed.

Lemma mod_sub_chunk (a n : nat) : 0 < n -> n <= a -> a mod n = 0 -> (a - n) mod n = 0.
Proof.
intros Hn Ha Hm. apply Nat.Div0.div_exact in Hm.
replace (a - n) with ((a / n - 1) * n) by nia. apply Nat.Div0.mod_mul.
Qed.

Lemma map_chunk_at_firstn n m l q :
q * n <= m -> map (chunk_at n (firstn m l)) (seq 0 q) = map (chunk_at n l) (seq 0 q).
Proof.
intros H. apply map_ext_in. intros i Hi. apply in_seq in Hi.
apply chunk_at_firstn. nia.
Qed.

(** The partition of the spec is the full chunks followed by the
  non-empty tail. *)
Lemma chunks_ref_split n l :
0 < n ->
chunks_ref n l =
  full_chunks n l ++
  (if is_empty (skipn (length l / n * n) l) then [] else [skipn (length l / n * n) l]).
Proof.
intros Hn. pose proof (Nat.div_mod_eq (length l) n) as Hd.
pose proof (Nat.mod_upper_bound (length l) n ltac:(lia)) as Hm.
unfold chunks_ref, full_chunks. rewrite div_ceil_spec by exact Hn.
destruct (Nat.eqb_spec (length l mod n) 0) as [H0|H0].
- rewrite (skipn_all2 l) by nia. simpl. now rewrite Nat.add_0_r, app_nil_r.
- destruct (skipn (length l / n * n) l) eqn:E.
  + apply (f_equal (@length A)) in E. rewrite length_skipn in E. simpl in E. nia.
  + rewrite seq_app, map_app. simpl. do 2 f_equal.
    unfold chunk_at. rewrite E. apply firstn_all2.
    apply (f_equal (@length A)) in E. rewrite length_skipn in E. simpl in *. nia.
Qed.

Lemma chunks_ref_length n l : length (chunks_ref n l) = div_ceil (length l) n.
Proof. unfold chunks_ref. now rewrite length_map, length_seq. Qed.

Lemma chunks_ref_nil n : chunks_ref n [] = [].
Proof.
unfold chunks_ref, div_ceil. simpl.
destruct n as [|n]; [reflexivity|]. rewrite Nat.div_small by lia. reflexivity.
Qed.

(** A buffer no longer than one chunk is one chunk. *)
Lemma chunks_ref_single n l : 0 < length l <= n -> chunks_ref n l = [l].
Proof.
intros H. unfold chunks_ref, div_ceil.
replace ((length l + n - 1) / n) with 1.
- simpl. unfold chunk_at. simpl. now rewrite firstn_all2 by lia.
- apply Nat.div_unique with (r := length l - 1); lia.
Qed.

(** A non-empty buffer is its first chunk followed by the partition of
    the rest. *)
Lemma chunks_ref_cons n l :
0 < n -> l <> [] -> chunks_ref n l = firstn n l :: chunks_ref n (skipn n l).
Proof.
intros Hn Hl. unfold chunks_ref.
assert (0 < length l) by (destruct l; [congruence | simpl; lia]).
rewrite div_ceil_step, length_skipn by assumption.
apply map_chunk_at_succ.
Qed.

Lemma concat_tail (s : list A) : concat (if is_empty s then [] else [s]) = s.
Proof. destruct s; simpl; [reflexivity | now rewrite app_nil_r]. Qed.

(** ** Lemmas on the iterator *)

Lemma new_spec slice n :
0 < n ->
new slice n =
  Ok (mk (firstn (length slice / n * n) slice) (skipn (length slice / n * n) slice) n).
Proof.
intros Hn. unfold new. destruct (Nat.eqb_spec n 0) as [|_]; [lia|]. cbv zeta.
pose proof (Nat.div_mod_eq (length slice) n).
replace (length slice - length slice mod n) with (length slice / n * n) by nia.
reflexivity.
Qed.

Lemma new_ok_chunk_size slice n it : new slice n = Ok it -> 0 < n.
Proof. unfold new. destruct (Nat.eqb_spec n 0); [discriminate | lia]. Qed.

Lemma next_full w r n :
0 < n -> n <= length w -> next (mk w r n) = Some (firstn n w, mk (skipn n w) r n).
Proof. intros Hn H. unfold next. simpl. destruct (Nat.ltb_spec (length w) n); [lia | reflexivity]. Qed.

Lemma next_short it : length (v it) < chunk_size it -> next it = None.
Proof. intros H. unfold next. now rewrite (proj2 (Nat.ltb_lt _ _) H). Qed.

Lemma step_spec it c it' :
step it c it' ->
chunk_size it <= length (v it) /\ c = firstn (chunk_size it) (v it) /\
it' = mk (skipn (chunk_size it) (v it)) (rem it) (chunk_size it).
Proof.
intros [it0 c0 it0' Hn]. unfold next in Hn.
destruct (Nat.ltb_spec (length (v it0)) (chunk_size it0)); [discriminate|].
injection Hn as <- <-. auto.
Qed.

Lemma step_preserves_inv it c it' :
inv it -> step it c it' ->
inv it' /\ v it = c ++ v it' /\ length c = chunk_size it /\
rem it' = rem it /\ chunk_size it' = chunk_size it.
Proof.
intros (Hn & Hv & Hr) Hs. apply step_spec in Hs as (Hle & -> & ->).
unfold inv; simpl. rewrite length_skipn, firstn_length_le by exact Hle.
repeat split; auto using mod_sub_chunk. symmetry. apply firstn_skipn.
Qed.

Lemma fold_collect (cs : list (list A)) acc :
fold_outcome (fun c acc => Ok (acc ++ [c])) cs acc = Ok (acc ++ cs).
Proof.
revert acc; induction cs as [|c cs IH]; intros acc; simpl.
- now rewrite app_nil_r.
- rewrite IH. now rewrite <- app_assoc.
Qed.

(** The loop over an iterator holding [q] whole chunks, given more than
  [q] units of fuel, runs the body on those chunks in order. *)
Lemma for_each_chunks {B : Type} (body : list A -> B -> outcome B) q :
forall fuel w r n acc,
0 < n -> length w = q * n -> q < fuel ->
for_each fuel body (mk w r n) acc =
  acc' <- fold_outcome body (map (chunk_at n w) (seq 0 q)) acc ;; Ok (acc', mk [] r n).
Proof.
induction q as [|q IH]; intros fuel w r n acc Hn Hw Hq;
  (destruct fuel as [|fuel]; [lia|]).
- destruct w as [|x w]; [|simpl in Hw; lia].
  cbn [for_each]. rewrite next_short by (simpl; lia). reflexivity.
- cbn [for_each]. rewrite next_full by (simpl in Hw; lia).
  rewrite map_chunk_at_succ. cbn [fold_outcome].
  destruct (body (firstn n w) acc) as [acc'|p|]; cbn [bind]; try reflexivity.
  apply IH; [lia | rewrite length_skipn; simpl in Hw; lia | lia].
Qed.

Lemma for_each_new {B : Type} (body : list A -> B -> outcome B) slice n it acc :
new slice n = Ok it ->
for_each (S (length slice)) body it acc =
  acc' <- fold_outcome body (full_chunks n slice) acc ;;
  Ok (acc', mk [] (skipn (length slice / n * n) slice) n).
Proof.
intros H. pose proof (new_ok_chunk_size _ _ _ H) as Hn.
rewrite new_spec in H by exact Hn. injection H as <-.
pose proof (div_mul_le (length slice) n).
rewrite (for_each_chunks body (length slice / n));
  [| lia | rewrite firstn_length_le; lia | now apply div_lt_succ].
rewrite map_chunk_at_firstn by lia. reflexivity.
Qed.

(** ** Theorems *)

(** C10: [chunks_exact] establishes the iterator's invariant: a positive
  chunk size, whole chunks in [v], a remainder shorter than one chunk,
  and [v ++ rem] equal to the slice. *)
Theorem new_establishes_inv slice n it :
new slice n = Ok it -> inv it /\ v it ++ rem it = slice /\ chunk_size it = n.
Proof.
intros H. pose proof (new_ok_chunk_size _ _ _ H) as Hn.
rewrite new_spec in H by exact Hn. injection H as <-.
pose proof (Nat.div_mod_eq (length slice) n).
pose proof (Nat.mod_upper_bound (length slice) n ltac:(lia)).
pose proof (div_mul_le (length slice) n).
unfold inv; simpl. rewrite firstn_length_le, length_skipn by lia.
repeat split; [lia | apply Nat.Div0.mod_mul | nia | apply firstn_skipn].
Qed.

(** C11: along every run of [next] from a state satisfying the invariant,
  the invariant holds, every chunk yielded has exactly [chunk_size]
  elements, the chunks are the consumed prefix of [v] in order, and
  the remainder and chunk size never change. *)
Theorem steps_preserve_inv it cs it' :
inv it -> steps it cs it' ->
inv it' /\ v it = concat cs ++ v it' /\
Forall (fun c => length c = chunk_size it) cs /\
rem it' = rem it /\ chunk_size it' = chunk_size it.
Proof.
intros Hinv Hs. induction Hs as [it | it c it' cs it'' Hstep _ IH].
- split; [exact Hinv|]. repeat split; constructor.
- destruct (step_preserves_inv it c it' Hinv Hstep) as (Hi' & Hv & Hc & Hr & Hn).
  destruct (IH Hi') as (Hi'' & Hv' & Hall & Hr' & Hn').
  split; [exact Hi''|]. rewrite Hn in Hall.
  repeat split; [| constructor; assumption | congruence | congruence].
  rewrite Hv, Hv'. apply app_assoc.
Qed.

(** C12: termination of the [for] loop: every step of [next] shortens
  [v], so the loop stops.  Given more than [length v / chunk_size]
  units of fuel, the loop never runs out, whatever the body does
  (short of running out itself). *)
Theorem for_each_enough_fuel {B : Type} (body : list A -> B -> outcome B) it acc fuel :
inv it -> length (v it) / chunk_size it < fuel ->
(forall c b, body c b <> OutOfFuel) ->
for_each fuel body it acc <> OutOfFuel.
Proof.
intros (Hn & Hv & _) Hf Hbody. destruct it as [w r n]; simpl in *.
apply Nat.Div0.div_exact in Hv.
rewrite (for_each_chunks body (length w / n)) by (auto; lia).
pose proof (fold_outcome_no_fuel body (map (chunk_at n w) (seq 0 (length w / n))) acc Hbody).
destruct (fold_outcome _ _ _); simpl; congruence.
Qed.

Lemma step_decreases it c it' :
inv it -> step it c it' -> length (v it') < length (v it).
Proof.
intros (Hn & _ & _) Hs. apply step_spec in Hs as (Hle & _ & ->).
simpl. rewrite length_skipn. lia.
Qed.

(** C3: refinement of the partition.  Draining [chunks_exact] with a
  [for] loop and then appending the remainder when it is not empty
  (lib.rs 92-104) yields exactly [chunks_ref], the partition of the
  slice by index of the spec. *)
Theorem drain_refines slice n it :
new slice n = Ok it ->
exists it',
  for_each (S (length slice)) (fun c acc => Ok (acc ++ [c])) it [] =
    Ok (full_chunks n slice, it') /\
  full_chunks n slice ++ (if is_empty (remainder it') then [] else [remainder it']) =
    chunks_ref n slice.
Proof.
intros H. pose proof (new_ok_chunk_size _ _ _ H) as Hn.
rewrite (for_each_new _ _ _ _ _ H), fold_collect. simpl.
eexists; split; [reflexivity|]. symmetry. now apply chunks_ref_split.
Qed.

(** Every chunk of the partition has at least one sample. *)
Lemma chunk_at_length_pos n l i :
0 < n -> i < div_ceil (length l) n ->
length (chunk_at n l i) = Nat.min n (length l - i * n) /\ 0 < length (chunk_at n l i).
Proof.
intros Hn Hi. unfold chunk_at. rewrite length_firstn, length_skipn.
split; [reflexivity|].
rewrite div_ceil_spec in Hi by exact Hn. pose proof (Nat.div_mod_eq (length l) n).
destruct (Nat.eqb_spec (length l mod n) 0); nia.
Qed.

(** A chunk of the partition is a non-empty run of samples of the
    buffer, no longer than the chunk size or the buffer. *)
Lemma chunks_ref_In n l c :
0 < n -> In c (chunks_ref n l) ->
c <> [] /\ length c <= Nat.min n (length l) /\ forall x, In x c -> In x l.
Proof.
intros Hn H. unfold chunks_ref in H. apply in_map_iff in H as (i & <- & Hi).
apply in_seq in Hi. destruct (chunk_at_length_pos n l i Hn ltac:(lia)) as [Hl Hp].
split; [intros E; rewrite E in Hp; simpl in Hp; lia|]. split; [lia|].
intros x Hx. unfold chunk_at in Hx. now apply in_firstn_l, in_skipn_l in Hx.
Qed.

(** The partition of a buffer whose first part is whole chunks is the
    partition of that part followed by the partition of the rest. *)
Lemma chunks_ref_app n l1 l2 :
0 < n -> length l1 mod n = 0 -> chunks_ref n (l1 ++ l2) = chunks_ref n l1 ++ chunks_ref n l2.
Proof.
intros Hn. remember (length l1) as k eqn:Ek. revert l1 Ek.
induction k as [k IH] using (well_founded_induction lt_wf). intros l1 Ek Hm.
destruct l1 as [|x l1']; [now rewrite chunks_ref_nil|].
remember (x :: l1') as l1 eqn:El. assert (Hk : n <= k).
{ destruct (Nat.lt_ge_cases k n) as [Hlt|]; [|lia]. rewrite Nat.mod_small in Hm by lia.
  subst l1; simpl in Ek; lia. }
rewrite (chunks_ref_cons n (l1 ++ l2)), (chunks_ref_cons n l1) by (subst l1; auto; discriminate).
rewrite firstn_app, skipn_app. replace (n - length l1) with 0 by lia.
rewrite firstn_O, skipn_O, app_nil_r. simpl. f_equal.
apply (IH (k - n)); [lia | rewrite length_skipn; lia | apply mod_sub_chunk; lia].
Qed.

(** With chunks of one sample, the partition is the list of samples. *)
Lemma chunks_ref_one l : chunks_ref 1 l = map (fun x => [x]) l.
Proof.
induction l as [|x l IH]; [apply chunks_ref_nil|].
rewrite chunks_ref_cons by (auto; discriminate). simpl. now rewrite IH.
Qed.

(** C13: roundtrip of the code's partition.  Draining [chunks_exact]
  with the [for] loop of lib.rs 94 yields [len / n] chunks of exactly
  [n] samples; the remainder then read on line 99 has [len mod n]
  samples; and chunks and remainder concatenate back to the slice: no
  sample is lost, duplicated or reordered. *)
Theorem drain_partition slice n it :
new slice n = Ok it ->
exists cs it',
  for_each (S (length slice)) (fun c acc => Ok (acc ++ [c])) it [] = Ok (cs, it') /\
  concat cs ++ remainder it' = slice /\
  length cs = length slice / n /\ Forall (fun c => length c = n) cs /\
  length (remainder it') = length slice mod n.
Proof.
intros H. pose proof (new_ok_chunk_size _ _ _ H) as Hn.
rewrite (for_each_new _ _ _ _ _ H), fold_collect. simpl.
do 2 eexists; split; [reflexivity|]. cbn [remainder rem].
pose proof (div_mul_le (length slice) n) as Hle.
pose proof (Nat.div_mod_eq (length slice) n).
unfold full_chunks. rewrite concat_chunks_upto, firstn_skipn by exact Hle.
split; [reflexivity|]. rewrite length_map, length_seq, length_skipn.
split; [reflexivity|]. split; [|nia].
apply Forall_forall. intros c Hc. apply in_map_iff in Hc as (i & <- & Hi).
apply in_seq in Hi. apply chunk_at_length. destruct Hi as [_ Hi]. simpl in Hi.
pose proof (Nat.mul_le_mono_r (S i) (length slice / n) n ltac:(lia)). lia.
Qed.
End WithElem.

(** The partition commutes with a map on the samples: chunk [i] of the
    mapped buffer is the mapped chunk [i]. *)
Lemma chunks_ref_map {A B : Type} (g : A -> B) n (l : list A) :
  chunks_ref n (map g l) = map (map g) (chunks_ref n l).
Proof.
  unfold chunks_ref. rewrite length_map, map_map. apply map_ext. intros i.
  unfold chunk_at. now rewrite skipn_map, firstn_map.
Qed.
(** ** Witnesses on a buffer of five samples in chunks of two *)

Definition it5 : t := mk [1; 2; 3; 4] [5] 2.

Lemma new_establishes_inv_witness :
  new [1; 2; 3; 4; 5] 2 = Ok it5 /\
  (inv it5 /\ v it5 ++ rem it5 = [1; 2; 3; 4; 5] /\ chunk_size it5 = 2).
Proof. split; [reflexivity|]. apply (new_establishes_inv [1; 2; 3; 4; 5] 2 it5). reflexivity. Defined.

Lemma steps_preserve_inv_witness :
  let it' := mk [] [5] 2 in
  inv it' /\ v it5 = concat [[1; 2]; [3; 4]] ++ v it' /\
  Forall (fun c => length c = chunk_size it5) [[1; 2]; [3; 4]] /\
  rem it' = rem it5 /\ chunk_size it' = chunk_size it5.
Proof.
  apply (steps_preserve_inv it5 [[1; 2]; [3; 4]] (mk [] [5] 2)).
  - unfold inv; simpl; lia.
  - econstructor; [constructor; reflexivity|].
    econstructor; [constructor; reflexivity | constructor].
Defined.

Lemma for_each_enough_fuel_witness :
  for_each 3 (fun c acc => Ok (acc ++ [c])) it5 [] <> OutOfFuel.
Proof.
  apply (for_each_enough_fuel (fun c acc => Ok (acc ++ [c])) it5 [] 3).
  - unfold inv; simpl; lia.
  - simpl; lia.
  - intros c b; discriminate.
Defined.

Lemma drain_refines_witness :
  exists it',
    for_each (S (length [1; 2; 3; 4; 5])) (fun c acc => Ok (acc ++ [c])) it5 [] =
      Ok (full_chunks 2 [1; 2; 3; 4; 5], it') /\
    full_chunks 2 [1; 2; 3; 4; 5] ++ (if is_empty (remainder it') then [] else [remainder it']) =
      chunks_ref 2 [1; 2; 3; 4; 5].
Proof. apply (drain_refines [1; 2; 3; 4; 5] 2 it5). reflexivity. Defined.

Lemma drain_partition_witness :
  new [1; 2; 3; 4; 5] 2 = Ok it5 /\
  exists cs it',
    for_each (S (length [1; 2; 3; 4; 5])) (fun c acc => Ok (acc ++ [c])) it5 [] = Ok (cs, it') /\
    concat cs ++ remainder it' = [1; 2; 3; 4; 5] /\
    length cs = length [1; 2; 3; 4; 5] / 2 /\ Forall (fun c => length c = 2) cs /\
    length (remainder it') = length [1; 2; 3; 4; 5] mod 2.
Proof. split; [reflexivity|]. apply (drain_partition [1; 2; 3; 4; 5] 2 it5). reflexivity. Defined.
End ChunksExact.
