(* ===== verification/SliceChunks.v ===== *)
(** * [core::slice::Chunks]: the reference iterator

    [<[T]>::chunks(chunk_size)] yields the same partition as the code's
    [chunks_exact] loop followed by its remainder (lib.rs 91 names the
    pairing as the efficient form of it).  This file models [Chunks] as
    the core library writes it, the record of its two fields [v] and
    [chunk_size]: [next] splits [min (len v) chunk_size] elements off
    the front and stops on an empty slice.  Its loop, given enough fuel,
    runs the body on [chunks_ref], the spec's partition; the analyser
    file uses this to prove the code's loop equivalent to a loop over
    [chunks]. *)

From Stdlib Require Import List Arith Lia.
From S2P Require Import Prelude Chunks.
Import ListNotations.
Open Scope rust_scope.

Module SliceChunks.
Section WithElem.
Context {A : Type}.

Record t : Type := mk { v : list A; chunk_size : nat }.

(** [<[T]>::chunks], with its [assert!(chunk_size != 0)]. *)
Definition new (slice : list A) (chunk_size : nat) : outcome t :=
if chunk_size =? 0 then Panic ZeroChunkSize else Ok (mk slice chunk_size).

(** [<Chunks as Iterator>::next]. *)
Definition next (it : t) : option (list A * t) :=
if is_empty (v it) then None
else
  let chunksz := Nat.min (length (v it)) (chunk_size it) in
  Some (firstn chunksz (v it), mk (skipn chunksz (v it)) (chunk_size it)).

(** [for chunk in it { body }]. *)
Fixpoint for_each {B : Type} (fuel : nat) (body : list A -> B -> outcome B)
  (it : t) (acc : B) : outcome (B * t) :=
match fuel with
| O => OutOfFuel
| S fuel' =>
    match next it with
    | None => Ok (acc, it)
    | Some (chunk, it') => acc' <- body chunk acc ;; for_each fuel' body it' acc'
    end
end.

(** ** Lemmas *)

Lemma next_cons l n :
0 < n -> l <> [] -> next (mk l n) = Some (firstn n l, mk (skipn n l) n).
Proof.
intros Hn Hl. unfold next. simpl.
destruct l as [|x l]; [congruence|]. cbn [is_empty].
destruct (Nat.leb_spec (length (x :: l)) n).
- rewrite Nat.min_l by lia. now rewrite !firstn_all2, !skipn_all2 by lia.
- now rewrite Nat.min_r by lia.
Qed.

(** The loop over [chunks], given more steps than there are chunks,
    runs the body on the partition in order. *)
Lemma for_each_chunks_ref {B : Type} (body : list A -> B -> outcome B) :
forall fuel l n acc,
0 < n -> div_ceil (length l) n < fuel ->
for_each fuel body (mk l n) acc =
  acc' <- fold_outcome body (ChunksExact.chunks_ref n l) acc ;; Ok (acc', mk [] n).
Proof.
induction fuel as [|fuel IH]; intros l n acc Hn Hf; [lia|].
destruct l as [|x l].
- rewrite ChunksExact.chunks_ref_nil. reflexivity.
- cbn [for_each]. rewrite next_cons by (auto; discriminate).
  rewrite ChunksExact.chunks_ref_cons by (auto; discriminate). cbn [fold_outcome].
  destruct (body (firstn n (x :: l)) acc) as [acc'|p|]; cbn [bind]; try reflexivity.
  apply IH; [exact Hn|].
  rewrite div_ceil_step in Hf by (auto; simpl; lia).
  rewrite length_skipn. lia.
Qed.

Lemma chunks_for_each_new {B : Type} (body : list A -> B -> outcome B) slice n :
forall acc, 0 < n ->
it <- new slice n ;; for_each (S (length slice)) body it acc =
  acc' <- fold_outcome body (ChunksExact.chunks_ref n slice) acc ;; Ok (acc', mk [] n).
Proof.
intros acc Hn. unfold new. destruct (Nat.eqb_spec n 0); [lia|]. cbn [bind].
apply for_each_chunks_ref; [exact Hn|].
pose proof (div_ceil_le (length slice) n Hn). lia.
Qed.
End WithElem.
End SliceChunks.
