(* ===== verification/Level.v ===== *)
(** * The RMS reducer and the decibel converter (lib.rs 7, 27-54)

    Both functions are written once, against the class [PcmArith] of
    the scalar operations the Rust code performs.  [F32] and [F64] are
    the types of [f32] and [f64] values.  The class is the interface
    between the numeric code and its arithmetic: [Ieee] instantiates it
    with binary32/binary64, which is the program.  The structural
    theorems of [Analyzer] are proved against the class, so they hold
    for any instance; the numeric ones are proved on [ieee_arith]. *)

From Stdlib Require Import List ZArith.
From S2P Require Import Prelude.
Import ListNotations.

Class PcmArith (F32 F64 : Type) : Type := {
  (** the literal [m e e] (m times 10 to the e) of type [f32] *)
  f32_lit : Z -> Z -> F32;
  (** [f32::max] *)
  f32_max : F32 -> F32 -> F32;
  (** [*] on [f32] *)
  f32_mul : F32 -> F32 -> F32;
  (** [f32::log10] *)
  f32_log10 : F32 -> F32;
  (** [x as f64] for [x : f32] *)
  f32_to_f64 : F32 -> F64;
  (** [*], [+] and [/] on [f64] *)
  f64_mul : F64 -> F64 -> F64;
  f64_add : F64 -> F64 -> F64;
  f64_div : F64 -> F64 -> F64;
  (** [f64::sqrt] *)
  f64_sqrt : F64 -> F64;
  (** [-0.0], the seed of [<f64 as Sum>::sum] *)
  f64_neg_zero : F64;
  (** [n as f64] for [n : usize] *)
  usize_to_f64 : nat -> F64;
  (** [x as f32] for [x : f64] *)
  f64_to_f32 : F64 -> F32
}.

Section Level.
Context {F32 F64 : Type} `{PcmArith F32 F64}.

(** [const MIN_RMS: f32 = 1.0e-10]. *)
Definition MIN_RMS : F32 := f32_lit 1 (-10).

(** [iter.sum::<f64>()]: [fold(-0.0, |a, b| a + b)]. *)
Definition f64_sum (xs : list F64) : F64 := fold_left f64_add xs f64_neg_zero.

(** The square [(sample as f64) * (sample as f64)]. *)
Definition square_f64 (sample : F32) : F64 :=
  f64_mul (f32_to_f64 sample) (f32_to_f64 sample).

Definition calculate_rms (chunk : list F32) : F32 :=
  if is_empty chunk then f32_lit 0 0
  else
    let sum_sq := f64_sum (map square_f64 chunk) in
    f64_to_f32 (f64_sqrt (f64_div sum_sq (usize_to_f64 (length chunk)))).

Definition rms_to_dbfs (rms : F32) : F32 :=
  let rms_clamped := f32_max rms MIN_RMS in
  f32_mul (f32_lit 20 0) (f32_log10 rms_clamped).

(** The level of one chunk, as the loop body computes it. *)
Definition chunk_dbfs (chunk : list F32) : F32 := rms_to_dbfs (calculate_rms chunk).

(** The level of the clamp floor: [20 * log10 MIN_RMS]. *)
Definition dbfs_floor : F32 := f32_mul (f32_lit 20 0) (f32_log10 MIN_RMS).

(** ** Lemmas *)

Lemma calculate_rms_nil : calculate_rms [] = f32_lit 0 0.
Proof. reflexivity. Qed.

Lemma calculate_rms_cons x xs :
  calculate_rms (x :: xs) =
    f64_to_f32 (f64_sqrt (f64_div (f64_sum (map square_f64 (x :: xs)))
                                  (usize_to_f64 (S (length xs))))).
Proof. reflexivity. Qed.

(** The converter sees its argument only through the clamp. *)
Lemma rms_to_dbfs_clamp r1 r2 :
  f32_max r1 MIN_RMS = f32_max r2 MIN_RMS -> rms_to_dbfs r1 = rms_to_dbfs r2.
Proof. unfold rms_to_dbfs. intros ->. reflexivity. Qed.

(** The RMS sees a sample only through its square: a map on the samples
    that keeps every square keeps the RMS. *)
Lemma calculate_rms_map (g : F32 -> F32) :
  (forall x, square_f64 (g x) = square_f64 x) ->
  forall chunk, calculate_rms (map g chunk) = calculate_rms chunk.
Proof.
  intros Hg [|x xs]; [reflexivity|]. rewrite map_cons, !calculate_rms_cons, length_map.
  rewrite <- map_cons, map_map. do 4 f_equal. apply map_ext. exact Hg.
Qed.
End Level.

#[export] Hint Rewrite @calculate_rms_nil @calculate_rms_cons : audio.
