(* ===== verification/Binary.v ===== *)
(** * Binary floating point: conversions and sign lemmas over [SpecFloat]

    Stdlib's [SpecFloat] is an executable model of IEEE-754 binary
    formats parameterised by [prec] and [emax], with round to nearest,
    ties to even.  This file adds the format conversion that Rust's [as]
    casts between [f32] and [f64] perform ([sf_convert]).  It adds a
    predicate [sign_or_nan] saying that a value has a given sign bit or
    is NaN, and proves how each operation the analyser uses acts on it,
    and when each operation keeps NaN out of its result. *)

From Stdlib Require Import List ZArith Lia Bool.
From Stdlib Require Import Floats.SpecFloat.
From S2P Require Import Prelude.
Import ListNotations.

(** [x as T] between binary formats: the exact value of [x], rounded to
    nearest even in the target format. *)
Definition sf_convert (prec emax : Z) (x : spec_float) : spec_float :=
  match x with
  | S754_finite s m e => binary_normalize prec emax (cond_Zopp s (Zpos m)) e s
  | _ => x
  end.

(** [x] has sign bit [s], or is a NaN. *)
Definition sign_or_nan (s : bool) (x : spec_float) : bool :=
  match x with
  | S754_nan => true
  | S754_zero s' | S754_infinity s' | S754_finite s' _ _ => Bool.eqb s' s
  end.

(** Not negative: the sign bit is clear, or NaN. *)
Definition not_negative (x : spec_float) : bool := sign_or_nan false x.

Definition is_nan (x : spec_float) : bool :=
  match x with S754_nan => true | _ => false end.

Definition is_neg_zero (x : spec_float) : bool :=
  match x with S754_zero true => true | _ => false end.

(** [+0.0] or [-0.0]. *)
Definition is_zero (x : spec_float) : bool :=
  match x with S754_zero _ => true | _ => false end.

(** A number: a zero or a finite value, not an infinity or NaN. *)
Definition is_finite (x : spec_float) : bool :=
  match x with S754_zero _ | S754_finite _ _ _ => true | _ => false end.

Ltac destruct_signs := repeat match goal with b : bool |- _ => destruct b end.

Section Sign.
Variables prec emax : Z.

Lemma binary_round_aux_sign s m e l :
  sign_or_nan s (binary_round_aux prec emax s m e l) = true.
Proof.
  unfold binary_round_aux.
  destruct (shr_fexp prec emax m e l) as [mrs' e'].
  destruct (shr_fexp prec emax _ e' loc_Exact) as [mrs'' e''].
  destruct (shr_m mrs'') as [|p|p]; simpl; try apply eqb_reflx; [|reflexivity].
  destruct (e'' <=? emax - prec)%Z; simpl; apply eqb_reflx.
Qed.

Lemma binary_round_sign s m e :
  sign_or_nan s (binary_round prec emax s m e) = true.
Proof.
  unfold binary_round. destruct (shl_align _ _ _) as [mz ez].
  apply binary_round_aux_sign.
Qed.

Lemma binary_normalize_pos_sign p e b :
  not_negative (binary_normalize prec emax (Zpos p) e b) = true.
Proof. apply binary_round_sign. Qed.

Lemma sf_convert_sign s x :
  sign_or_nan s x = true -> sign_or_nan s (sf_convert prec emax x) = true.
Proof.
  destruct x as [s'|s'| |s' m e]; simpl; auto. intros Hs.
  destruct s, s'; try discriminate Hs; apply binary_round_sign.
Qed.

(** A square is never negative. *)
Lemma SFmul_self_not_negative x : not_negative (SFmul prec emax x x) = true.
Proof.
  destruct x as [s|s| |s m e]; simpl; rewrite ?xorb_nilpotent; try reflexivity.
  apply binary_round_aux_sign.
Qed.

(** Adding a non-negative value to a non-negative value or to [-0.0]
    gives a non-negative value. *)
Lemma SFadd_not_negative a b :
  (not_negative a || is_neg_zero a) = true ->
  not_negative b = true ->
  not_negative (SFadd prec emax a b) = true.
Proof.
  destruct a as [sa|sa| |sa ma ea], b as [sb|sb| |sb mb eb]; simpl; intros Ha Hb;
    destruct_signs; try discriminate; try reflexivity; apply binary_round_sign.
Qed.

(** A quotient of non-negative values is non-negative. *)
Lemma SFdiv_not_negative a b :
  not_negative a = true -> not_negative b = true ->
  not_negative (SFdiv prec emax a b) = true.
Proof.
  destruct a as [sa|sa| |sa ma ea], b as [sb|sb| |sb mb eb]; simpl; intros Ha Hb;
    destruct_signs; try discriminate; try reflexivity.
  destruct (SFdiv_core_binary _ _ _ _ _ _) as [[mz ez] lz]. apply binary_round_aux_sign.
Qed.

(** A left fold of additions from [-0.0] or a non-negative value over a
    non-empty list of non-negative values is non-negative. *)
Lemma fold_SFadd_not_negative l a :
  (not_negative a || is_neg_zero a) = true -> forallb not_negative l = true -> l <> [] ->
  not_negative (fold_left (SFadd prec emax) l a) = true.
Proof.
  revert a; induction l as [|y l IH]; intros a Ha Hl Hne; [congruence|].
  simpl in Hl |- *. apply andb_prop in Hl as [Hy Hl].
  destruct l as [|z l]; [simpl; now apply SFadd_not_negative|].
  apply IH; [rewrite (SFadd_not_negative a y Ha Hy); reflexivity | exact Hl | discriminate].
Qed.

(** Summing [+0.0]s from a zero of either sign gives [+0.0]. *)
Lemma fold_SFadd_pos_zeros l s :
  Forall (eq (S754_zero false)) l -> l <> [] ->
  fold_left (SFadd prec emax) l (S754_zero s) = S754_zero false.
Proof.
  revert s; induction l as [|y l IH]; intros s Hl Hne; [congruence|].
  inversion Hl as [|y' l' Hy Hl']; subst. cbn [fold_left].
  replace (SFadd prec emax (S754_zero s) (S754_zero false)) with (S754_zero false)
    by (destruct s; reflexivity).
  destruct l as [|z l]; [reflexivity | apply IH; [exact Hl' | discriminate]].
Qed.

(** The square of a zero, widened, is [+0.0]. *)
Lemma square_zero prec' emax' x :
  is_zero x = true ->
  SFmul prec emax (sf_convert prec' emax' x) (sf_convert prec' emax' x) = S754_zero false.
Proof. destruct x as [s| | |]; try discriminate; destruct s; reflexivity. Qed.

Lemma SFsqrt_not_negative a :
  not_negative a = true -> not_negative (SFsqrt prec emax a) = true.
Proof.
  destruct a as [sa|sa| |sa ma ea]; simpl; intros Ha; destruct_signs; try discriminate;
    try reflexivity.
  destruct (SFsqrt_core_binary _ _ _ _) as [[mz ez] lz]. apply binary_round_aux_sign.
Qed.

(** ** Negation

    Rounding treats the sign as a tag: rounding [-v] is the opposite of
    rounding [v].  So [as] casts commute with negation, and a product
    of two negated operands is the product of the operands. *)

Lemma binary_round_aux_opp s m e l :
  binary_round_aux prec emax (negb s) m e l = SFopp (binary_round_aux prec emax s m e l).
Proof.
  unfold binary_round_aux.
  destruct (shr_fexp prec emax m e l) as [mrs' e'].
  destruct (shr_fexp prec emax _ e' loc_Exact) as [mrs'' e''].
  destruct (shr_m mrs'') as [|p|p]; try reflexivity; cbn.
  now destruct (e'' <=? emax - prec)%Z.
Qed.

Lemma binary_round_opp s m e :
  binary_round prec emax (negb s) m e = SFopp (binary_round prec emax s m e).
Proof.
  unfold binary_round. destruct (shl_align _ _ _) as [mz ez]. apply binary_round_aux_opp.
Qed.

Lemma SFmul_opp_opp x y : SFmul prec emax (SFopp x) (SFopp y) = SFmul prec emax x y.
Proof. destruct x as [sx|sx| |sx mx ex], y as [sy|sy| |sy my ey]; cbn; destruct_signs; reflexivity. Qed.
End Sign.

(** ** Comparison *)

Lemma compare_cont_swap p q : Pos.compare_cont Eq q p = CompOpp (Pos.compare_cont Eq p q).
Proof. symmetry. apply Pos.compare_cont_antisym. Qed.

Lemma SFcompare_swap x y : SFcompare y x = option_map CompOpp (SFcompare x y).
Proof.
  destruct x as [sx|sx| |sx mx ex], y as [sy|sy| |sy my ey]; destruct_signs;
    simpl; try reflexivity;
    rewrite (Z.compare_antisym ex ey); destruct (ex ?= ey)%Z; simpl; try reflexivity;
    rewrite compare_cont_swap; try reflexivity; now destruct (Pos.compare_cont Eq mx my).
Qed.
(** Not below is at least, for values that are not NaN. *)
Lemma SFltb_false_leb x y :
  is_nan x = false -> is_nan y = false -> SFltb x y = false -> SFleb y x = true.
Proof.
  intros Hx Hy. unfold SFltb, SFleb. rewrite (SFcompare_swap x y).
  destruct x as [sx|sx| |sx mx ex], y as [sy|sy| |sy my ey]; try discriminate;
    destruct (SFcompare _ _) as [[]|] eqn:E; simpl; try reflexivity; try discriminate;
    destruct_signs; discriminate.
Qed.
(** Comparing equal to a finite value is being that value. *)
Lemma SFcompare_Eq_finite x s m e :
  SFcompare x (S754_finite s m e) = Some Eq -> x = S754_finite s m e.
Proof.
  destruct x as [sx|sx| |sx mx ex]; destruct_signs; simpl; try discriminate;
    intros H; injection H as H;
    destruct (Z.compare_spec ex e); subst; try discriminate.
  all: try (destruct (Pos.compare_cont Eq mx m) eqn:E; simpl in H; try discriminate H).
  all: apply Pos.compare_eq in E; now subst.
Qed.

(** [x as T] of [-x] is [-(x as T)]. *)
Lemma sf_convert_opp prec emax x :
  sf_convert prec emax (SFopp x) = SFopp (sf_convert prec emax x).
Proof.
  destruct x as [s|s| |s m e]; try reflexivity. destruct s; cbn [SFopp sf_convert negb cond_Zopp].
  - exact (binary_round_opp prec emax true m e).
  - exact (binary_round_opp prec emax false m e).
Qed.

(** ** Exact rounding

    A value [m * 2^e] whose mantissa is already canonical is returned
    unchanged by rounding; a positive integer mantissa with at most
    [prec] digits is only shifted into canonical form. *)

Lemma digits2_pos_iter_xO p k :
  digits2_pos (Pos.iter xO p k) = (digits2_pos p + k)%positive.
Proof.
  induction k as [|k IH] using Pos.peano_ind.
  - simpl. now rewrite Pos.add_1_r.
  - rewrite Pos.iter_succ. simpl. rewrite IH. now rewrite Pos.add_succ_r.
Qed.

Lemma Zpos_iter_xO p k : Zpos (Pos.iter xO p k) = (Zpos p * 2 ^ Zpos k)%Z.
Proof.
  induction k as [|k IH] using Pos.peano_ind.
  - simpl. lia.
  - rewrite Pos.iter_succ, Pos2Z.inj_succ, Z.pow_succ_r by lia.
    change (Zpos (xO (Pos.iter xO p k))) with (2 * Zpos (Pos.iter xO p k))%Z.
    rewrite IH. ring.
Qed.

Lemma digits2_pos_size p : digits2_pos p = Pos.size p.
Proof. induction p as [p IH|p IH|]; simpl; now rewrite ?IH. Qed.

Lemma digits2_pos_log2 p : Zpos (digits2_pos p) = (Z.log2 (Zpos p) + 1)%Z.
Proof. destruct p as [p|p|]; simpl; rewrite ?digits2_pos_size; lia. Qed.

(** A mantissa below [2^k] has at most [k] digits. *)
Lemma digits2_pos_le p k : (Zpos p < 2 ^ k)%Z -> (Zpos (digits2_pos p) <= k)%Z.
Proof.
  intros H. rewrite digits2_pos_log2.
  apply Z.log2_lt_pow2 in H; lia.
Qed.

Lemma iter_pos_iter {A : Type} (f : A -> A) n x : iter_pos f n x = Pos.iter f x n.
Proof.
  revert x; induction n as [n IH|n IH|]; intros x; simpl; [|now rewrite !IH|reflexivity].
  rewrite !IH, !Pos.iter_swap. reflexivity.
Qed.

(** Shifting [m * 2^k] right by [k] bits is exact. *)
Lemma shr_1_iter_xO m k :
  iter_pos shr_1 k (Build_shr_record (Zpos (Pos.iter xO m k)) false false) =
  Build_shr_record (Zpos m) false false.
Proof.
  rewrite iter_pos_iter. revert m.
  induction k as [|k IH] using Pos.peano_ind; intros m; [reflexivity|].
  rewrite Pos.iter_succ_r, Pos.iter_succ. simpl. apply IH.
Qed.

Section Exact.
Variables prec emax : Z.

Lemma shr_fexp_canonical m e :
  fexp prec emax (Zpos (digits2_pos m) + e) = e ->
  shr_fexp prec emax (Zpos m) e loc_Exact = (Build_shr_record (Zpos m) false false, e).
Proof. intros H. unfold shr_fexp. simpl Zdigits2. now rewrite H, Z.sub_diag. Qed.

Lemma binary_round_aux_canonical s m e :
  fexp prec emax (Zpos (digits2_pos m) + e) = e -> (e <= emax - prec)%Z ->
  binary_round_aux prec emax s (Zpos m) e loc_Exact = S754_finite s m e.
Proof.
  intros Hc He. unfold binary_round_aux. rewrite shr_fexp_canonical by exact Hc.
  cbn [shr_m loc_of_shr_record round_nearest_even].
  rewrite shr_fexp_canonical by exact Hc. cbn [shr_m].
  now rewrite (proj2 (Z.leb_le _ _) He).
Qed.

(** Rounding [p * 2^e] with [p] of at most [prec] digits, in the normal
    or subnormal range, is exact: the result is [p] shifted left onto
    the canonical exponent. *)
Lemma binary_round_exact s p e :
  (Zpos (digits2_pos p) <= prec)%Z -> (emin prec emax <= e)%Z ->
  (fexp prec emax (Zpos (digits2_pos p) + e) <= emax - prec)%Z ->
  exists m, binary_round prec emax s p e =
              S754_finite s m (fexp prec emax (Zpos (digits2_pos p) + e)) /\
            Zpos m = (Zpos p * 2 ^ (e - fexp prec emax (Zpos (digits2_pos p) + e)))%Z.
Proof.
  intros Hd He Hmax. unfold binary_round.
  remember (fexp prec emax (Zpos (digits2_pos p) + e)) as e' eqn:Ee'.
  assert (Hle : (e' <= e)%Z) by (subst e'; unfold fexp, emin in *; lia).
  unfold shl_align. destruct (e' - e)%Z as [|k|k] eqn:Ek; [| lia |].
  - assert (He' : e' = e) by lia. subst e'. exists p. rewrite He'. split.
    + apply binary_round_aux_canonical; [exact He' | rewrite He' in Hmax; exact Hmax].
    + rewrite Z.sub_diag. lia.
  - exists (Pos.iter xO p k). split.
    + apply binary_round_aux_canonical; [|exact Hmax].
      rewrite digits2_pos_iter_xO, Pos2Z.inj_add, Ee'. f_equal. lia.
    + rewrite Zpos_iter_xO. do 2 f_equal. lia.
Qed.

(** Rounding a canonical [m * 2^e] written as [(m * 2^p) * 2^(e - p)]
    gives back [m * 2^e]: the extra low bits are zeros. *)
Lemma binary_round_aux_shifted s m e p :
  fexp prec emax (Zpos (digits2_pos m) + e) = e -> (e <= emax - prec)%Z ->
  binary_round_aux prec emax s (Zpos (Pos.iter xO m p)) (e - Zpos p) loc_Exact =
    S754_finite s m e.
Proof.
  intros Hc He. unfold binary_round_aux, shr_fexp. cbn [Zdigits2].
  rewrite digits2_pos_iter_xO, Pos2Z.inj_add.
  replace (Zpos (digits2_pos m) + Zpos p + (e - Zpos p))%Z with (Zpos (digits2_pos m) + e)%Z
    by lia.
  rewrite Hc. replace (e - (e - Zpos p))%Z with (Zpos p) by lia.
  unfold shr. cbn [shr_record_of_loc]. rewrite shr_1_iter_xO.
  replace (e - Zpos p + Zpos p)%Z with e by lia.
  cbn [shr_m loc_of_shr_record round_nearest_even Zdigits2].
  rewrite Hc, Z.sub_diag. now rewrite (proj2 (Z.leb_le _ _) He).
Qed.

Lemma binary_round_shifted s m e p :
  fexp prec emax (Zpos (digits2_pos m) + e) = e -> (e <= emax - prec)%Z ->
  binary_round prec emax s (Pos.iter xO m p) (e - Zpos p) = S754_finite s m e.
Proof.
  intros Hc He. unfold binary_round.
  rewrite digits2_pos_iter_xO, Pos2Z.inj_add.
  replace (Zpos (digits2_pos m) + Zpos p + (e - Zpos p))%Z with (Zpos (digits2_pos m) + e)%Z
    by lia.
  rewrite Hc. unfold shl_align. replace (e - (e - Zpos p))%Z with (Zpos p) by lia.
  now apply binary_round_aux_shifted.
Qed.

(** Rounding ignores trailing zero bits: [(q * 2^j) * 2^(e - j)] rounds
    as [q * 2^e] does, for [q] of at most [prec] digits in range. *)
Lemma binary_round_trailing s q e j :
  (Zpos (digits2_pos q) <= prec)%Z -> (emin prec emax <= e)%Z ->
  (fexp prec emax (Zpos (digits2_pos q) + e) <= emax - prec)%Z ->
  binary_round prec emax s (Pos.iter xO q j) (e - Zpos j) = binary_round prec emax s q e.
Proof.
  intros Hd He Hmax.
  destruct (binary_round_exact s q e Hd He Hmax) as (m' & -> & Hm').
  remember (fexp prec emax (Zpos (digits2_pos q) + e)) as f eqn:Ef.
  assert (Hfe : (f <= e)%Z) by (subst f; unfold fexp, emin in *; lia).
  assert (Hdm : Zpos (digits2_pos m') = (Zpos (digits2_pos q) + (e - f))%Z).
  { rewrite !digits2_pos_log2, Hm', Z.log2_mul_pow2 by lia. lia. }
  assert (Hcan : fexp prec emax (Zpos (digits2_pos m') + f) = f).
  { rewrite Hdm. replace (Zpos (digits2_pos q) + (e - f) + f)%Z
      with (Zpos (digits2_pos q) + e)%Z by lia. now rewrite Ef. }
  unfold binary_round. rewrite digits2_pos_iter_xO, Pos2Z.inj_add.
  replace (Zpos (digits2_pos q) + Zpos j + (e - Zpos j))%Z with (Zpos (digits2_pos q) + e)%Z
    by lia.
  rewrite <- Ef. unfold shl_align.
  destruct (f - (e - Zpos j))%Z as [|t|t] eqn:Et.
  - assert (Hr : Pos.iter xO q j = m')
      by (apply Pos2Z.inj; rewrite Zpos_iter_xO, Hm'; do 2 f_equal; lia).
    replace (e - Zpos j)%Z with f by lia. rewrite Hr.
    apply binary_round_aux_canonical; [apply Hcan | lia].
  - destruct (Pos.lt_total t j) as [Hlt | [-> | Hgt]]; [| |lia].
    + assert (Hr : Pos.iter xO q j = Pos.iter xO (Pos.iter xO q (j - t)) t).
      { rewrite <- Pos.iter_add. f_equal. lia. }
      assert (Hm : Pos.iter xO q (j - t) = m').
      { apply Pos2Z.inj. rewrite Zpos_iter_xO, Hm', Pos2Z.inj_sub by lia. do 2 f_equal. lia. }
      rewrite Hr. replace (e - Zpos j)%Z with (f - Zpos t)%Z by lia. rewrite Hm.
      apply binary_round_aux_shifted; [apply Hcan | lia].
    + replace (e - Zpos j)%Z with (f - Zpos j)%Z by lia.
      assert (Hm : q = m') by (apply Pos2Z.inj; rewrite Hm'; replace (e - f)%Z with 0%Z by lia; lia).
      rewrite <- Hm. apply binary_round_aux_shifted; [rewrite Hm; apply Hcan | lia].
  - assert (Hr : Pos.iter xO (Pos.iter xO q j) t = m').
    { apply Pos2Z.inj. rewrite !Zpos_iter_xO, Hm', <- Z.mul_assoc, <- Z.pow_add_r by lia.
      do 2 f_equal. lia. }
    rewrite Hr. apply binary_round_aux_canonical; [apply Hcan | lia].
Qed.

(** With no low bit lost on the way, the core rounding of an exact
    quotient is the rounding of the integer: when the canonical exponent
    is not below [e], [binary_round] does no left shift first. *)
Lemma binary_round_aux_unshifted s m e :
  (e <= fexp prec emax (Zpos (digits2_pos m) + e))%Z ->
  binary_round_aux prec emax s (Zpos m) e loc_Exact = binary_round prec emax s m e.
Proof.
  intros H. unfold binary_round, shl_align.
  destruct (fexp prec emax (Zpos (digits2_pos m) + e) - e)%Z eqn:E; [reflexivity | reflexivity | lia].
Qed.
End Exact.

(** ** Absence of NaN

    Rounding produces a NaN only from a negative shifted mantissa, so
    rounding a non-negative mantissa, and hence every [binary_normalize],
    gives a number, a zero or an infinity.  Each operation the analyser
    applies then keeps NaN out on the operands it receives. *)

Lemma iter_pos_ind {A : Type} (P : A -> Prop) (f : A -> A) :
  (forall x, P x -> P (f x)) -> forall n x, P x -> P (iter_pos f n x).
Proof. intros Hf n; induction n as [n IH|n IH|]; intros x Hx; simpl; auto. Qed.

Lemma shr_1_nonneg mrs : (0 <= shr_m mrs)%Z -> (0 <= shr_m (shr_1 mrs))%Z.
Proof. destruct mrs as [[|[p|p|]|p] r s]; simpl; lia. Qed.

Section NoNaN.
Variables prec emax : Z.

Lemma shr_fexp_nonneg m e l :
  (0 <= m)%Z -> (0 <= shr_m (fst (shr_fexp prec emax m e l)))%Z.
Proof.
  intros Hm. unfold shr_fexp, shr.
  destruct (_ - e)%Z; simpl; try (destruct l as [|[]]; exact Hm).
  apply iter_pos_ind; [apply shr_1_nonneg | destruct l as [|[]]; exact Hm].
Qed.

Lemma round_nearest_even_nonneg m l : (0 <= m)%Z -> (0 <= round_nearest_even m l)%Z.
Proof.
  intros Hm. unfold round_nearest_even.
  destruct l as [|[]]; try destruct (Z.even m); lia.
Qed.

Lemma binary_round_aux_not_nan s m e l :
  (0 <= m)%Z -> is_nan (binary_round_aux prec emax s m e l) = false.
Proof.
  intros Hm. unfold binary_round_aux.
  pose proof (shr_fexp_nonneg m e l Hm) as H1.
  destruct (shr_fexp prec emax m e l) as [mrs' e'] eqn:E1. simpl in H1.
  pose proof (shr_fexp_nonneg _ e' loc_Exact
                (round_nearest_even_nonneg _ (loc_of_shr_record mrs') H1)) as H2.
  destruct (shr_fexp _ _ _ e' loc_Exact) as [mrs'' e''] eqn:E2. simpl in H2.
  destruct (shr_m mrs'') as [|p|p]; [reflexivity| |lia].
  now destruct (e'' <=? emax - prec)%Z.
Qed.

Lemma binary_round_not_nan s m e : is_nan (binary_round prec emax s m e) = false.
Proof.
  unfold binary_round. destruct (shl_align _ _ _) as [mz ez].
  apply binary_round_aux_not_nan. lia.
Qed.

Lemma binary_normalize_not_nan m e b : is_nan (binary_normalize prec emax m e b) = false.
Proof. destruct m; [reflexivity | apply binary_round_not_nan ..]. Qed.

Lemma sf_convert_not_nan x :
  is_nan x = false -> is_nan (sf_convert prec emax x) = false.
Proof. destruct x; simpl; auto using binary_normalize_not_nan. Qed.

(** A square of a number is a number: [0 * inf] cannot arise. *)
Lemma SFmul_self_not_nan x :
  is_nan x = false -> is_nan (SFmul prec emax x x) = false.
Proof.
  destruct x as [s|s| |s m e]; simpl; intros Hx; try reflexivity; [discriminate|].
  apply binary_round_aux_not_nan. lia.
Qed.

(** A sum of numbers that are not negative (the first may be [-0.0]) is
    a number: [+inf + -inf] cannot arise. *)
Lemma SFadd_not_nan a b :
  (not_negative a || is_neg_zero a) = true -> not_negative b = true ->
  is_nan a = false -> is_nan b = false ->
  is_nan (SFadd prec emax a b) = false.
Proof.
  destruct a as [sa|sa| |sa ma ea], b as [sb|sb| |sb mb eb]; simpl; intros Ha Hb Hna Hnb;
    destruct_signs; try discriminate; try reflexivity; apply binary_normalize_not_nan.
Qed.

Lemma fold_SFadd_not_nan l a :
  (not_negative a || is_neg_zero a) = true -> is_nan a = false ->
  forallb not_negative l = true -> forallb (fun x => negb (is_nan x)) l = true ->
  is_nan (fold_left (SFadd prec emax) l a) = false.
Proof.
  revert a; induction l as [|y l IH]; intros a Ha Hna Hl Hnl; [exact Hna|].
  simpl in Hl, Hnl |- *. apply andb_prop in Hl as [Hy Hl].
  apply andb_prop in Hnl as [Hny Hnl]. apply negb_true_iff in Hny.
  apply IH; [| apply SFadd_not_nan | exact Hl | exact Hnl]; auto.
  now rewrite SFadd_not_negative.
Qed.

(** A number that is not negative divided by a positive finite value
    is a number. *)
Lemma SFdiv_not_nan a m e :
  not_negative a = true -> is_nan a = false ->
  is_nan (SFdiv prec emax a (S754_finite false m e)) = false.
Proof.
  destruct a as [sa|sa| |sa ma ea]; simpl; intros Ha Hna; try reflexivity; [discriminate|].
  unfold SFdiv_core_binary.
  match goal with |- context [Z.div_eucl ?n (Zpos m)] =>
    assert (Hn : (0 <= n)%Z) by (destruct (_ - _ - _)%Z; [lia | apply Z.shiftl_nonneg; lia | lia]);
    replace (Z.div_eucl n (Zpos m)) with (n / Zpos m, n mod Zpos m)%Z
      by (unfold Z.div, Z.modulo; now destruct (Z.div_eucl n (Zpos m)));
    apply binary_round_aux_not_nan, Z.div_pos; lia
  end.
Qed.

(** The square root of a number that is not negative is a number. *)
Lemma SFsqrt_not_nan a :
  not_negative a = true -> is_nan a = false -> is_nan (SFsqrt prec emax a) = false.
Proof.
  destruct a as [sa|sa| |sa ma ea]; simpl; intros Ha Hna; destruct_signs;
    try discriminate; try reflexivity.
  unfold SFsqrt_core_binary.
  match goal with |- context [Z.sqrtrem ?n] =>
    pose proof (Z.sqrtrem_sqrt n) as Hq; destruct (Z.sqrtrem n) as [q r] end.
  apply binary_round_aux_not_nan. simpl in Hq. subst q. apply Z.sqrt_nonneg.
Qed.
End NoNaN.

(** Aligning a mantissa on a lower exponent multiplies it by a power of
    two. *)
Lemma shl_align_value m e ez :
  (ez <= e)%Z -> Zpos (fst (shl_align m e ez)) = (Zpos m * 2 ^ (e - ez))%Z.
Proof.
  intros H. unfold shl_align. destruct (ez - e)%Z as [|k|k] eqn:E; simpl fst.
  - replace (e - ez)%Z with 0%Z by lia. lia.
  - lia.
  - rewrite Zpos_iter_xO. do 2 f_equal. lia.
Qed.

(** ** NaN and infinity through the sum

    A NaN anywhere in a sum makes it NaN; a [+inf] among values that are
    neither NaN nor negative makes it [+inf]. *)

Section NonFinite.
Variables prec emax : Z.

Lemma fold_SFadd_from_nan l : fold_left (SFadd prec emax) l S754_nan = S754_nan.
Proof. induction l as [|y l IH]; [reflexivity | exact IH]. Qed.

Lemma fold_SFadd_nan l a :
  In S754_nan l -> fold_left (SFadd prec emax) l a = S754_nan.
Proof.
  revert a; induction l as [|y l IH]; intros a Hin; [destruct Hin|].
  destruct Hin as [-> | Hin]; simpl.
  - replace (SFadd prec emax a S754_nan) with S754_nan by (destruct a; reflexivity).
    apply fold_SFadd_from_nan.
  - now apply IH.
Qed.

Lemma SFadd_inf_l b :
  not_negative b = true -> is_nan b = false ->
  SFadd prec emax (S754_infinity false) b = S754_infinity false.
Proof. destruct b as [[]|[]| |[] ? ?]; simpl; intros; try discriminate; reflexivity. Qed.

Lemma SFadd_inf_r a :
  (not_negative a || is_neg_zero a) = true -> is_nan a = false ->
  SFadd prec emax a (S754_infinity false) = S754_infinity false.
Proof. destruct a as [[]|[]| |[] ? ?]; simpl; intros; try discriminate; reflexivity. Qed.

Lemma fold_SFadd_from_inf l :
  forallb not_negative l = true -> forallb (fun x => negb (is_nan x)) l = true ->
  fold_left (SFadd prec emax) l (S754_infinity false) = S754_infinity false.
Proof.
  induction l as [|y l IH]; intros Hl Hn; [reflexivity|].
  simpl in Hl, Hn. apply andb_prop in Hl as [Hy Hl]. apply andb_prop in Hn as [Hny Hn].
  cbn [fold_left]. rewrite SFadd_inf_l by (auto; now apply negb_true_iff). now apply IH.
Qed.

Lemma fold_SFadd_inf l a :
  In (S754_infinity false) l ->
  (not_negative a || is_neg_zero a) = true -> is_nan a = false ->
  forallb not_negative l = true -> forallb (fun x => negb (is_nan x)) l = true ->
  fold_left (SFadd prec emax) l a = S754_infinity false.
Proof.
  revert a; induction l as [|y l IH]; intros a Hin Ha Hna Hl Hn; [destruct Hin|].
  simpl in Hl, Hn. cbn [fold_left]. apply andb_prop in Hl as [Hy Hl].
  apply andb_prop in Hn as [Hny Hn]. apply negb_true_iff in Hny.
  destruct Hin as [-> | Hin].
  - rewrite SFadd_inf_r by assumption. now apply fold_SFadd_from_inf.
  - apply IH; auto; [now rewrite SFadd_not_negative | now apply SFadd_not_nan].
Qed.
End NonFinite.
