(* ===== verification/Rounding.v ===== *)
(** * Rounding never overshoots a representable bound

    [SpecFloat]'s [binary_round] shifts the mantissa right with
    [shr_1], keeping a round and a sticky bit, rounds to nearest even,
    and renormalises.  This file gives the arithmetic meaning of those
    steps: [k] shifts divide by [2^k] and the bits record whether the
    remainder is zero, and rounding to nearest yields at most the
    ceiling of the exact quotient.  From there, rounding a positive value
    [M * 2^e] that is at most [K * 2^F], with [K < 2^prec] and [F] in the
    exponent range, gives zero or a finite number still at most
    [K * 2^F], with exponent at most [F]: never an infinity.  Values are
    compared as integers in units of [2^emin], the smallest exponent
    of the format. *)

From Stdlib Require Import ZArith Lia Bool.
From Stdlib Require Import Floats.SpecFloat.
From S2P Require Import Prelude Binary.

(** ** Right shifts *)

Lemma shr_1_spec m r s :
  (0 <= m)%Z ->
  shr_m (shr_1 (Build_shr_record m r s)) = (m / 2)%Z /\
  shr_r (shr_1 (Build_shr_record m r s)) = Z.odd m /\
  shr_s (shr_1 (Build_shr_record m r s)) = (r || s).
Proof.
  intros Hm. destruct m as [|[p|p|]|p]; try lia; cbn;
    repeat split; try (rewrite <- Z.div2_div; reflexivity).
Qed.

(** [k] right shifts from an exact record: the quotient by [2^k], and a
    round or sticky bit set exactly when the remainder is not zero. *)
Lemma shr_iter_spec M p :
  (0 <= M)%Z ->
  shr_m (iter_pos shr_1 p (Build_shr_record M false false)) = (M / 2 ^ Zpos p)%Z /\
  (shr_r (iter_pos shr_1 p (Build_shr_record M false false)) ||
   shr_s (iter_pos shr_1 p (Build_shr_record M false false))) =
    negb (M mod 2 ^ Zpos p =? 0)%Z.
Proof.
  intros HM. rewrite iter_pos_iter. induction p as [|p IH] using Pos.peano_ind.
  - cbn [Pos.iter]. destruct (shr_1_spec M false false HM) as (-> & -> & ->).
    split; [reflexivity|]. cbn [orb]. rewrite Zmod_odd. destruct (Z.odd M); reflexivity.
  - rewrite Pos.iter_succ. destruct (Pos.iter shr_1 _ p) as [m r s] eqn:E.
    cbn [shr_m shr_r shr_s] in IH. destruct IH as [-> IH].
    assert (Hq : (0 <= M / 2 ^ Zpos p)%Z) by (apply Z.div_pos; lia).
    destruct (shr_1_spec _ r s Hq) as (-> & -> & ->).
    rewrite Pos2Z.inj_succ, Z.pow_succ_r by lia.
    rewrite Z.div_div by lia. split; [f_equal; lia|].
    rewrite (Z.mul_comm 2), Z.rem_mul_r by lia. rewrite IH, Zmod_odd.
    pose proof (Z.mod_pos_bound M (2 ^ Zpos p) ltac:(lia)).
    pose proof (Z.pow_pos_nonneg 2 (Zpos p) ltac:(lia) ltac:(lia)).
    destruct (Z.odd (M / 2 ^ Zpos p)); cbn [orb].
    + replace (M mod 2 ^ Zpos p + 2 ^ Zpos p * 1 =? 0)%Z with false; [reflexivity|].
      symmetry. apply Z.eqb_neq. lia.
    + now rewrite Z.mul_0_r, Z.add_0_r.
Qed.

(** Rounding to nearest moves the truncated quotient up by at most one,
    and only when bits were lost. *)
Lemma round_nearest_even_bound q l :
  (q <= round_nearest_even q l <= q + (if l is loc_Exact then 0 else 1))%Z.
Proof. destruct l as [|[| |]]; cbn; try destruct (Z.even q); lia. Qed.

Lemma loc_of_shr_record_exact mrs :
  loc_of_shr_record mrs = loc_Exact <-> (shr_r mrs || shr_s mrs) = false.
Proof. destruct mrs as [m [] []]; cbn; split; congruence. Qed.

(** The rounded quotient is at most the ceiling: [R * 2^k < M + 2^k]. *)
Lemma round_shr_ceil M p :
  (0 <= M)%Z ->
  let mrs := iter_pos shr_1 p (Build_shr_record M false false) in
  (0 <= round_nearest_even (shr_m mrs) (loc_of_shr_record mrs))%Z /\
  (round_nearest_even (shr_m mrs) (loc_of_shr_record mrs) * 2 ^ Zpos p < M + 2 ^ Zpos p)%Z.
Proof.
  intros HM mrs. destruct (shr_iter_spec M p HM) as [Hm Hb]. fold mrs in Hm, Hb.
  pose proof (round_nearest_even_bound (shr_m mrs) (loc_of_shr_record mrs)) as HR.
  pose proof (Z.div_mod M (2 ^ Zpos p) ltac:(lia)).
  pose proof (Z.mod_pos_bound M (2 ^ Zpos p) ltac:(lia)).
  pose proof (Z.div_pos M (2 ^ Zpos p) HM ltac:(lia)).
  revert HR. destruct (loc_of_shr_record mrs) eqn:El; intros HR.
  - apply loc_of_shr_record_exact in El. rewrite El in Hb.
    symmetry in Hb. apply negb_false_iff, Z.eqb_eq in Hb. split; nia.
  - assert (Hs : (shr_r mrs || shr_s mrs) = true).
    { destruct (shr_r mrs || shr_s mrs) eqn:E; [reflexivity|].
      apply loc_of_shr_record_exact in E. congruence. }
    rewrite Hs in Hb. symmetry in Hb. apply negb_true_iff, Z.eqb_neq in Hb. split; nia.
Qed.

Section Bound.
Variables prec emax : Z.
Hypothesis Hprec : (0 < prec)%Z.

Let emin := emin prec emax.

(** One pass of [shr_fexp] from an exact record: the new exponent is
    the larger of [e] and the canonical one, the kept mantissa is the
    truncated quotient, and its rounding is at most the ceiling. *)
Lemma shr_fexp_spec M e :
  (0 <= M)%Z ->
  let r := shr_fexp prec emax M e loc_Exact in
  snd r = Z.max e (fexp prec emax (Zdigits2 M + e)) /\
  (0 <= shr_m (fst r))%Z /\ (shr_m (fst r) * 2 ^ (snd r - e) <= M)%Z /\
  (0 <= round_nearest_even (shr_m (fst r)) (loc_of_shr_record (fst r)))%Z /\
  (round_nearest_even (shr_m (fst r)) (loc_of_shr_record (fst r)) * 2 ^ (snd r - e)
     < M + 2 ^ (snd r - e))%Z.
Proof.
  intros HM r. unfold r, shr_fexp, shr. cbn [shr_record_of_loc].
  destruct (fexp prec emax (Zdigits2 M + e) - e)%Z as [|p|p] eqn:E; cbn [fst snd shr_m].
  - rewrite Z.sub_diag. cbn. repeat split; lia.
  - destruct (shr_iter_spec M p HM) as [Hm _]. destruct (round_shr_ceil M p HM) as [H0 H1].
    replace (e + Zpos p - e)%Z with (Zpos p) by lia. rewrite Hm in H0, H1 |- *.
    pose proof (Z.div_pos M (2 ^ Zpos p) HM ltac:(lia)).
    pose proof (Z.mul_div_le M (2 ^ Zpos p) ltac:(lia)). repeat split; lia.
  - rewrite Z.sub_diag. cbn. repeat split; lia.
Qed.

Lemma digits_bound (R : Z) f F :
  (0 <= R)%Z -> (R < 2 ^ (prec + F - f))%Z -> (fexp prec emax (Zdigits2 R + f) <= Z.max (F) (emin))%Z.
Proof.
  intros HR Hlt.
  assert (H0 : (0 <= prec + F - f)%Z).
  { destruct (Z.lt_ge_cases (prec + F - f) 0) as [Hn|]; [|lia].
    rewrite Z.pow_neg_r in Hlt by exact Hn. lia. }
  unfold fexp. destruct R as [|r|r]; [cbn; fold emin; lia | | lia].
  cbn [Zdigits2]. rewrite digits2_pos_log2.
  assert (Z.log2 (Zpos r) < prec + F - f)%Z by (apply Z.log2_lt_pow2; lia). fold emin. lia.
Qed.

(** Rounding a positive [M * 2^e] at most [K * 2^F] ([K] of at most
    [prec] bits, [F] below the overflow threshold) gives [+0] or a finite
    value at most [K * 2^F] with exponent at most [F]: rounding does not
    overshoot a representable bound, and never overflows. *)
Lemma binary_round_bound M e K F :
  (emin <= e <= F)%Z -> (F <= emax - prec)%Z -> (0 < K < 2 ^ prec)%Z ->
  (Zpos M * 2 ^ (e - emin) <= K * 2 ^ (F - emin))%Z ->
  binary_round prec emax false M e = S754_zero false \/
  exists m e', binary_round prec emax false M e = S754_finite false m e' /\
    (emin <= e' <= F)%Z /\ (Zpos m * 2 ^ (e' - emin) <= K * 2 ^ (F - emin))%Z.
Proof.
  intros He HF HK HB.
  set (d := Zpos (digits2_pos M)). set (f := fexp prec emax (d + e)).
  assert (HMlt : (Zpos M < 2 ^ (prec + F - e))%Z).
  { assert (2 ^ (prec + F - emin) = 2 ^ (prec + F - e) * 2 ^ (e - emin))%Z
      by (rewrite <- Z.pow_add_r by lia; f_equal; lia).
    assert (2 ^ (prec + F - emin) = 2 ^ prec * 2 ^ (F - emin))%Z
      by (rewrite <- Z.pow_add_r by lia; f_equal; lia).
    pose proof (Z.pow_pos_nonneg 2 (e - emin) ltac:(lia) ltac:(lia)).
    pose proof (Z.pow_pos_nonneg 2 (F - emin) ltac:(lia) ltac:(lia)). nia. }
  assert (Hf : (emin <= f <= F)%Z).
  { pose proof (digits_bound (Zpos M) e F ltac:(lia) HMlt) as Hd. cbn [Zdigits2] in Hd.
    unfold f, fexp in Hd |- *. fold emin in Hd |- *. lia. }
  (* the left shift of [binary_round] to the canonical exponent *)
  destruct (shl_align M e f) as [mz e1] eqn:Esh.
  assert (Hsh : (e1 = Z.min e f /\ Zdigits2 (Zpos mz) + e1 = d + e /\
                 Zpos mz * 2 ^ (e1 - emin) = Zpos M * 2 ^ (e - emin))%Z).
  { unfold shl_align in Esh. destruct (f - e)%Z as [|p|p] eqn:E; injection Esh as <- <-;
      cbn [Zdigits2]; try (repeat split; lia).
    rewrite digits2_pos_iter_xO, Zpos_iter_xO. repeat split; [lia | lia |].
    rewrite <- Z.mul_assoc, <- Z.pow_add_r by lia. f_equal. f_equal. lia. }
  destruct Hsh as (He1 & Hd1 & Hv1).
  unfold binary_round. fold d f. rewrite Esh. unfold binary_round_aux.
  (* the first pass: truncation and rounding to exponent [f] *)
  destruct (shr_fexp_spec (Zpos mz) e1 ltac:(lia)) as (Hs1 & _ & _ & HR0 & HR1).
  destruct (shr_fexp prec emax (Zpos mz) e1 loc_Exact) as [mrs1 e2] eqn:E1.
  cbn [fst snd] in Hs1, HR0, HR1. rewrite Hd1 in Hs1. fold f in Hs1.
  replace e2 with f in * by lia. clear Hs1.
  set (R := round_nearest_even (shr_m mrs1) (loc_of_shr_record mrs1)) in *.
  assert (HRN : (R <= K * 2 ^ (F - f))%Z).
  { assert (Hk : (2 ^ (F - e1) = 2 ^ (F - f) * 2 ^ (f - e1))%Z)
      by (rewrite <- Z.pow_add_r by lia; f_equal; lia).
    assert (Hm : (Zpos mz <= K * 2 ^ (F - e1))%Z).
    { assert (2 ^ (F - emin) = 2 ^ (F - e1) * 2 ^ (e1 - emin))%Z
        by (rewrite <- Z.pow_add_r by lia; f_equal; lia).
      pose proof (Z.pow_pos_nonneg 2 (e1 - emin) ltac:(lia) ltac:(lia)). nia. }
    pose proof (Z.pow_pos_nonneg 2 (f - e1) ltac:(lia) ltac:(lia)).
    pose proof (Z.pow_pos_nonneg 2 (F - f) ltac:(lia) ltac:(lia)). nia. }
  (* the second pass: renormalisation after rounding up *)
  destruct (shr_fexp_spec R f HR0) as (Hs2 & Hm0 & Hm2 & _ & _).
  destruct (shr_fexp prec emax R f loc_Exact) as [mrs2 e3] eqn:E2.
  cbn [fst snd] in Hs2, Hm0, Hm2.
  assert (He3 : (f <= e3 <= F)%Z).
  { assert (HRlt : (R < 2 ^ (prec + F - f))%Z).
    { assert (2 ^ (prec + F - f) = 2 ^ prec * 2 ^ (F - f))%Z
        by (rewrite <- Z.pow_add_r by lia; f_equal; lia).
      pose proof (Z.pow_pos_nonneg 2 (F - f) ltac:(lia) ltac:(lia)). nia. }
    pose proof (digits_bound R f F HR0 HRlt). lia. }
  destruct (shr_m mrs2) as [|m|m] eqn:Em; [now left | right | lia].
  rewrite (proj2 (Z.leb_le _ _)) by lia. exists m, e3. split; [reflexivity|]. split; [lia|].
  assert (2 ^ (e3 - emin) = 2 ^ (e3 - f) * 2 ^ (f - emin))%Z
    by (rewrite <- Z.pow_add_r by lia; f_equal; lia).
  assert (2 ^ (F - emin) = 2 ^ (F - f) * 2 ^ (f - emin))%Z
    by (rewrite <- Z.pow_add_r by lia; f_equal; lia).
  pose proof (Z.pow_pos_nonneg 2 (f - emin) ltac:(lia) ltac:(lia)). nia.
Qed.
End Bound.
