(* ===== verification/Scaling.v ===== *)
(** * Rounding commutes with a power-of-two scaling

    Multiplying a float by [2^k] moves its exponent by [k] and leaves
    its mantissa alone ([sf_scale]).  Away from the subnormal range,
    where [fexp] takes its [emin] branch, the canonical exponent [fexp]
    moves with the value, so [SpecFloat]'s rounding ([shr_fexp],
    [binary_round_aux], [binary_round]) and every operation built on it
    ([SFmul], [SFadd], [SFdiv], [SFsqrt], the conversions) commute with
    the scaling, as long as neither result overflows.  The condition
    "away from the subnormal range" is [emin <= mag - prec], where
    [mag = Zdigits2 m + e] is the binary magnitude of [m * 2^e].  The
    file also bounds the magnitude and the exponent of a rounded value
    by those of the exact one ([binary_round_aux_finite],
    [binary_round_aux_mag]): rounding never lowers the magnitude and
    raises it by at most one. *)

From Stdlib Require Import ZArith Lia Bool.
From Stdlib Require Import Floats.SpecFloat.
From S2P Require Import Prelude Binary Rounding.

(** [x * 2^k], exactly: the exponent moved by [k]. *)
Definition sf_scale (k : Z) (x : spec_float) : spec_float :=
  match x with
  | S754_finite s m e => S754_finite s m (e + k)
  | _ => x
  end.

(** ** Binary digits *)

Lemma Zdigits2_log2 m : (0 < m)%Z -> Zdigits2 m = (Z.log2 m + 1)%Z.
Proof. intros Hm. destruct m as [|p|p]; try lia. apply digits2_pos_log2. Qed.

Lemma Zdigits2_nonneg m : (0 <= Zdigits2 m)%Z.
Proof. destruct m; cbn; lia. Qed.

Lemma Zdigits2_pos m : (0 < m)%Z -> (1 <= Zdigits2 m)%Z.
Proof. intros Hm. rewrite Zdigits2_log2 by exact Hm. pose proof (Z.log2_nonneg m). lia. Qed.

Lemma Zdigits2_mono a b : (0 <= a <= b)%Z -> (Zdigits2 a <= Zdigits2 b)%Z.
Proof.
  intros H. destruct (Z.eq_dec a 0) as [->|Ha]; [apply Zdigits2_nonneg|].
  rewrite !Zdigits2_log2 by lia. pose proof (Z.log2_le_mono a b ltac:(lia)). lia.
Qed.

Lemma Zdigits2_lt_pow a j : (0 <= a < 2 ^ j)%Z -> (Zdigits2 a <= j)%Z.
Proof.
  intros H. destruct (Z.eq_dec a 0) as [->|Ha].
  - destruct (Z.lt_ge_cases j 0) as [Hj|Hj]; [rewrite Z.pow_neg_r in H; lia | cbn; lia].
  - rewrite Zdigits2_log2 by lia. assert (0 <= j)%Z.
    { destruct (Z.lt_ge_cases j 0) as [Hj|Hj]; [rewrite Z.pow_neg_r in H; lia | lia]. }
    pose proof (Z.log2_lt_pow2 a j ltac:(lia)). lia.
Qed.

Lemma Zdigits2_pow_le a : (0 < a)%Z -> (2 ^ (Zdigits2 a - 1) <= a < 2 ^ Zdigits2 a)%Z.
Proof.
  intros Ha. rewrite Zdigits2_log2 by exact Ha. replace (Z.log2 a + 1 - 1)%Z with (Z.log2 a) by lia.
  destruct (Z.log2_spec a Ha) as [H1 H2]. rewrite Z.add_1_r. lia.
Qed.

Lemma Zdigits2_ge_pow a j : (0 <= j)%Z -> (2 ^ j <= a)%Z -> (j + 1 <= Zdigits2 a)%Z.
Proof.
  intros Hj H. assert (Ha : (0 < a)%Z) by (pose proof (Z.pow_pos_nonneg 2 j ltac:(lia) Hj); lia).
  rewrite Zdigits2_log2 by exact Ha. pose proof (Z.log2_le_mono _ _ H).
  rewrite Z.log2_pow2 in * by exact Hj. lia.
Qed.

(** Dropping [s] low bits of a number of more than [s] digits leaves
    exactly [Zdigits2 m - s] digits. *)
Lemma Zdigits2_div_pow m s :
  (0 < m)%Z -> (0 <= s < Zdigits2 m)%Z -> Zdigits2 (m / 2 ^ s) = (Zdigits2 m - s)%Z.
Proof.
  intros Hm Hs. rewrite (Zdigits2_log2 m Hm) in Hs |- *.
  rewrite <- Z.shiftr_div_pow2 by lia.
  assert (Hq : (0 < Z.shiftr m s)%Z).
  { rewrite Z.shiftr_div_pow2 by lia. apply Z.div_str_pos. split; [lia|].
    apply Z.le_trans with (2 ^ Z.log2 m)%Z; [apply Z.pow_le_mono_r; lia | apply Z.log2_spec; lia]. }
  rewrite Zdigits2_log2, Z.log2_shiftr by lia. lia.
Qed.

(** ** Truncating shifts *)

Lemma Zdigits2_mul_pow (m : positive) s :
  (0 <= s)%Z -> Zdigits2 (Zpos m * 2 ^ s) = (Zdigits2 (Zpos m) + s)%Z.
Proof.
  intros Hs. destruct (Z.eq_dec s 0) as [E0|E0]; [rewrite E0, Z.mul_1_r; lia|].
  replace (Zpos m * 2 ^ s)%Z with (Zpos (Pos.iter xO m (Z.to_pos s)))
    by (rewrite Zpos_iter_xO, Z2Pos.id by lia; reflexivity).
  cbn [Zdigits2]. rewrite digits2_pos_iter_xO, Pos2Z.inj_add, Z2Pos.id by lia. reflexivity.
Qed.

Lemma Zdigits2_mul_pow' a s :
  (0 < a)%Z -> (0 <= s)%Z -> Zdigits2 (a * 2 ^ s) = (Zdigits2 a + s)%Z.
Proof. intros Ha Hs. destruct a as [|p|p]; try lia. apply Zdigits2_mul_pow, Hs. Qed.

(** The integer square root of a number of [d] digits has
    [(d + 1) / 2] digits. *)
Lemma Zdigits2_sqrt m : (0 < m)%Z -> Zdigits2 (Z.sqrt m) = ((Zdigits2 m + 1) / 2)%Z.
Proof.
  intros Hm. pose proof (Zdigits2_pow_le m Hm) as [H1 H2]. pose proof (Zdigits2_pos m Hm).
  set (d := Zdigits2 m) in *. set (t := ((d + 1) / 2)%Z).
  assert (Ht : (d <= 2 * t <= d + 1)%Z).
  { unfold t. pose proof (Z.div_mod (d + 1) 2 ltac:(lia)). pose proof (Z.mod_pos_bound (d + 1) 2 ltac:(lia)). lia. }
  assert (Hhi : (Z.sqrt m < 2 ^ t)%Z).
  { apply Z.sqrt_lt_square; [lia | apply Z.pow_nonneg; lia|].
    rewrite <- Z.pow_add_r by lia. apply Z.lt_le_trans with (2 ^ d)%Z; [lia | apply Z.pow_le_mono_r; lia]. }
  assert (Hlo : (2 ^ (t - 1) <= Z.sqrt m)%Z).
  { rewrite <- (Z.sqrt_square (2 ^ (t - 1))) by (apply Z.pow_nonneg; lia).
    apply Z.sqrt_le_mono. rewrite <- Z.pow_add_r by lia.
    apply Z.le_trans with (2 ^ (d - 1))%Z; [apply Z.pow_le_mono_r; lia | lia]. }
  pose proof (Zdigits2_ge_pow (Z.sqrt m) (t - 1) ltac:(lia) Hlo).
  pose proof (Zdigits2_lt_pow (Z.sqrt m) t ltac:(split; [apply Z.sqrt_nonneg | exact Hhi])). lia.
Qed.

Lemma shr_m_iter m r s p :
  (0 <= m)%Z -> shr_m (iter_pos shr_1 p (Build_shr_record m r s)) = (m / 2 ^ Zpos p)%Z.
Proof.
  intros Hm. rewrite iter_pos_iter. induction p as [|p IH] using Pos.peano_ind.
  - cbn. destruct (shr_1_spec m r s Hm) as [H _]. exact H.
  - rewrite Pos.iter_succ. destruct (Pos.iter shr_1 (Build_shr_record m r s) p) as [m' r' s'] eqn:E.
    cbn [shr_m] in IH. subst m'.
    destruct (shr_1_spec (m / 2 ^ Zpos p) r' s') as [H _]; [apply Z.div_pos; lia|].
    rewrite H, Z.div_div by lia. f_equal. rewrite Pos2Z.inj_succ, Z.pow_succ_r; lia.
Qed.

Lemma round_nearest_even_le q l : (q <= round_nearest_even q l <= q + 1)%Z.
Proof. pose proof (round_nearest_even_bound q l). destruct l; lia. Qed.

Lemma shr_m_of_loc m l : shr_m (shr_record_of_loc m l) = m.
Proof. destruct l as [|[]]; reflexivity. Qed.

Section Shift.
Variables prec emax : Z.
Hypothesis Hprec : (0 < prec)%Z.
Hypothesis Hemax : (prec < emax)%Z.
#[local] Set Default Proof Using "Hprec Hemax".

Let emin := emin prec emax.
Let fexp := fexp prec emax.

(** [m * 2^e] lies in the normal range: [fexp] is not at [emin]. *)
Definition normal_mag (m e : Z) : Prop := (emin <= Zdigits2 m + e - prec)%Z.

Lemma fexp_normal m e : normal_mag m e -> fexp (Zdigits2 m + e) = (Zdigits2 m + e - prec)%Z.
Proof. unfold normal_mag, fexp, SpecFloat.fexp. fold emin. lia. Qed.

(** [shr_fexp] keeps its record and moves its exponent with [e]. *)
Lemma shr_fexp_spec_gen m e l :
  (0 <= m)%Z ->
  snd (shr_fexp prec emax m e l) = Z.max e (fexp (Zdigits2 m + e)) /\
  shr_m (fst (shr_fexp prec emax m e l)) = (m / 2 ^ (snd (shr_fexp prec emax m e l) - e))%Z.
Proof.
  intros Hm. unfold shr_fexp, shr. fold fexp.
  destruct (fexp (Zdigits2 m + e) - e)%Z as [|p|p] eqn:E; cbn [fst snd].
  - rewrite Z.sub_diag, Z.div_1_r, shr_m_of_loc. split; [lia | reflexivity].
  - destruct l as [|[]]; (split; [lia|]); cbn [shr_record_of_loc];
      rewrite shr_m_iter by exact Hm; do 2 f_equal; lia.
  - rewrite Z.sub_diag, Z.div_1_r, shr_m_of_loc. split; [lia | reflexivity].
Qed.

Lemma shr_fexp_shift m e l k :
  normal_mag m e -> normal_mag m (e + k) ->
  shr_fexp prec emax m (e + k) l =
    (fst (shr_fexp prec emax m e l), (snd (shr_fexp prec emax m e l) + k)%Z).
Proof.
  intros H1 H2. unfold shr_fexp. fold fexp.
  replace (Zdigits2 m + (e + k))%Z with (Zdigits2 m + e + k)%Z by lia.
  pose proof (fexp_normal m e H1) as F1. pose proof (fexp_normal m (e + k) H2) as F2.
  replace (Zdigits2 m + (e + k))%Z with (Zdigits2 m + e + k)%Z in F2 by lia.
  rewrite F1, F2. unfold shr.
  replace (Zdigits2 m + e + k - prec - (e + k))%Z with (Zdigits2 m + e - prec - e)%Z by lia.
  destruct (Zdigits2 m + e - prec - e)%Z; cbn [fst snd]; f_equal; lia.
Qed.

(** One [shr_fexp] pass in the normal range keeps the magnitude of a
    positive mantissa: the truncated quotient has exactly the digits
    the exponent gained. *)
Lemma shr_fexp_mag m e l :
  (0 < m)%Z -> normal_mag m e ->
  (Zdigits2 (shr_m (fst (shr_fexp prec emax m e l))) + snd (shr_fexp prec emax m e l) =
     Zdigits2 m + e)%Z.
Proof.
  intros Hm Hn. destruct (shr_fexp_spec_gen m e l ltac:(lia)) as [Hs Hq].
  rewrite Hq, Hs. rewrite fexp_normal by exact Hn.
  destruct (Z.le_gt_cases (Zdigits2 m + e - prec) e) as [Hle|Hgt].
  - rewrite Z.max_l by lia. rewrite Z.sub_diag, Z.pow_0_r, Z.div_1_r. reflexivity.
  - rewrite Z.max_r by lia. rewrite Zdigits2_div_pow by lia. lia.
Qed.

(** The magnitude after one pass never exceeds the larger of the
    magnitude before it and [emin]. *)
Lemma shr_fexp_mag_le m e l :
  (0 <= m)%Z ->
  (Zdigits2 (shr_m (fst (shr_fexp prec emax m e l))) + snd (shr_fexp prec emax m e l) <=
     Z.max (Zdigits2 m + e) emin)%Z.
Proof.
  intros Hm. destruct (shr_fexp_spec_gen m e l Hm) as [Hs Hq]. rewrite Hq, Hs.
  unfold fexp, SpecFloat.fexp. fold emin.
  set (d := Zdigits2 m). set (e' := Z.max e (Z.max (d + e - prec) emin)).
  destruct (Z.eq_dec m 0) as [->|Hm0].
  - rewrite Zdiv_0_l. subst d e'. change (Zdigits2 0) with 0%Z. lia.
  - pose proof (Zdigits2_pow_le m ltac:(lia)) as [Hlo Hhi]. fold d in Hlo, Hhi.
    destruct (Z.lt_ge_cases (e' - e) d) as [Hlt|Hge].
    + rewrite Zdigits2_div_pow by (subst e'; lia). lia.
    + rewrite Z.div_small.
      * change (Zdigits2 0) with 0%Z. subst e'. assert (0 <= d)%Z by apply Zdigits2_nonneg. lia.
      * split; [lia|]. apply Z.lt_le_trans with (2 ^ d)%Z; [lia | apply Z.pow_le_mono_r; lia].
Qed.

Lemma Zdigits2_succ a : (0 <= a)%Z -> (Zdigits2 (a + 1) <= Zdigits2 a + 1)%Z.
Proof.
  intros Ha. destruct (Z.eq_dec a 0) as [->|Ha0]; [cbn; lia|].
  pose proof (Zdigits2_pow_le a ltac:(lia)) as [H1 H2].
  apply Zdigits2_lt_pow. split; [lia|].
  rewrite Z.pow_add_r by (pose proof (Zdigits2_nonneg a); lia). lia.
Qed.

(** The final step of [binary_round_aux]: a mantissa and exponent
    become a zero, a finite value, or an infinity past [emax]. *)
Definition round_finish (sx : bool) (m e : Z) : spec_float :=
  match m with
  | Z0 => S754_zero sx
  | Zpos p => if (e <=? emax - prec)%Z then S754_finite sx p e else S754_infinity sx
  | Zneg _ => S754_nan
  end.

Lemma binary_round_aux_eq sx mx ex lx :
  binary_round_aux prec emax sx mx ex lx =
    let r1 := shr_fexp prec emax mx ex lx in
    let m1 := round_nearest_even (shr_m (fst r1)) (loc_of_shr_record (fst r1)) in
    let r2 := shr_fexp prec emax m1 (snd r1) loc_Exact in
    round_finish sx (shr_m (fst r2)) (snd r2).
Proof.
  unfold binary_round_aux. destruct (shr_fexp prec emax mx ex lx) as [r1 e1].
  cbn [fst snd]. destruct (shr_fexp prec emax _ e1 loc_Exact) as [r2 e2]. reflexivity.
Qed.

(** The rounded first-pass mantissa keeps the magnitude in the normal
    range, so the second pass is in the normal range too. *)
Lemma round_first_pass_mag mx ex lx :
  (0 < mx)%Z -> normal_mag mx ex ->
  let r1 := shr_fexp prec emax mx ex lx in
  let m1 := round_nearest_even (shr_m (fst r1)) (loc_of_shr_record (fst r1)) in
  (0 < m1)%Z /\ (Zdigits2 mx + ex <= Zdigits2 m1 + snd r1 <= Zdigits2 mx + ex + 1)%Z.
Proof.
  intros Hm Hn r1 m1. pose proof (shr_fexp_mag mx ex lx Hm Hn) as Hmag. fold r1 in Hmag.
  destruct (shr_fexp_spec_gen mx ex lx ltac:(lia)) as [_ Hq]. fold r1 in Hq.
  assert (Hq0 : (0 <= shr_m (fst r1))%Z) by (rewrite Hq; apply Z_div_nonneg_nonneg; [lia | apply Z.pow_nonneg; lia]).
  pose proof (round_nearest_even_le (shr_m (fst r1)) (loc_of_shr_record (fst r1))) as Hb.
  fold m1 in Hb.
  assert (Hd1 : (Zdigits2 (shr_m (fst r1)) <= Zdigits2 m1)%Z) by (apply Zdigits2_mono; lia).
  assert (Hd2 : (Zdigits2 m1 <= Zdigits2 (shr_m (fst r1)) + 1)%Z).
  { apply Z.le_trans with (Zdigits2 (shr_m (fst r1) + 1)); [apply Zdigits2_mono; lia|].
    now apply Zdigits2_succ. }
  assert (Hpos : (0 < shr_m (fst r1))%Z).
  { destruct (Z.eq_dec (shr_m (fst r1)) 0) as [E|E]; [|lia].
    rewrite E in Hmag. cbn in Hmag. destruct (shr_fexp_spec_gen mx ex lx ltac:(lia)) as [Hs _].
    fold r1 in Hs. unfold fexp, SpecFloat.fexp in Hs. fold emin in Hs. unfold normal_mag in Hn.
    pose proof (Zdigits2_pos mx Hm). lia. }
  split; [lia|]. lia.
Qed.

(** Rounding in the normal range commutes with a shift of the
    exponent up to the final overflow test: both roundings compute the
    same mantissa, at exponents [k] apart. *)
Lemma binary_round_aux_shift_core sx mx ex lx k :
  (0 < mx)%Z -> normal_mag mx ex -> normal_mag mx (ex + k) ->
  exists m e, binary_round_aux prec emax sx mx ex lx = round_finish sx m e /\
              binary_round_aux prec emax sx mx (ex + k) lx = round_finish sx m (e + k).
Proof.
  intros Hm Hn Hnk. rewrite !binary_round_aux_eq. rewrite (shr_fexp_shift mx ex lx k Hn Hnk).
  cbv zeta. cbn [fst snd].
  destruct (round_first_pass_mag mx ex lx Hm Hn) as [Hm1 [Hlo _]]. cbv zeta in Hm1, Hlo.
  set (r1 := shr_fexp prec emax mx ex lx) in *.
  set (m1 := round_nearest_even (shr_m (fst r1)) (loc_of_shr_record (fst r1))) in *.
  assert (N1 : normal_mag m1 (snd r1)) by (unfold normal_mag in *; lia).
  assert (N2 : normal_mag m1 (snd r1 + k)) by (unfold normal_mag in *; lia).
  rewrite (shr_fexp_shift m1 (snd r1) loc_Exact k N1 N2). cbn [fst snd].
  eexists; eexists; split; reflexivity.
Qed.

(** A shifted finish is the shifted value when the original is a
    number and the shifted one is a number too, or has room below the
    overflow threshold. *)
Lemma round_finish_scale sx m e k :
  is_finite (round_finish sx m e) = true ->
  (is_finite (round_finish sx m (e + k)) = true \/ (e + k <= emax - prec)%Z) ->
  round_finish sx m (e + k) = sf_scale k (round_finish sx m e).
Proof.
  unfold round_finish. intros F1 F2. destruct m as [|p|p]; try reflexivity.
  destruct (Z.leb_spec e (emax - prec)); destruct (Z.leb_spec (e + k) (emax - prec));
    cbn in *; try reflexivity; destruct F2; try discriminate; lia.
Qed.

(** Rounding in the normal range commutes with a shift of the
    exponent, when neither result overflows. *)
Lemma binary_round_aux_shift sx mx ex lx k :
  (0 < mx)%Z -> normal_mag mx ex -> normal_mag mx (ex + k) ->
  is_finite (binary_round_aux prec emax sx mx ex lx) = true ->
  is_finite (binary_round_aux prec emax sx mx (ex + k) lx) = true ->
  binary_round_aux prec emax sx mx (ex + k) lx = sf_scale k (binary_round_aux prec emax sx mx ex lx).
Proof.
  intros Hm Hn Hnk F1 F2.
  destruct (binary_round_aux_shift_core sx mx ex lx k Hm Hn Hnk) as (m & e & E1 & E2).
  rewrite E1 in F1 |- *. rewrite E2 in F2 |- *. apply round_finish_scale; auto.
Qed.

(** The same, when the rounded value is finite and its exponent moved
    by [k] stays at most [emax - prec]. *)
Lemma binary_round_aux_shift_room sx mx ex lx k s m e :
  (0 < mx)%Z -> normal_mag mx ex -> normal_mag mx (ex + k) ->
  binary_round_aux prec emax sx mx ex lx = S754_finite s m e -> (e + k <= emax - prec)%Z ->
  binary_round_aux prec emax sx mx (ex + k) lx = S754_finite s m (e + k).
Proof.
  intros Hm Hn Hnk Hr Hroom.
  destruct (binary_round_aux_shift_core sx mx ex lx k Hm Hn Hnk) as (m' & e' & E1 & E2).
  rewrite E2. rewrite E1 in Hr. unfold round_finish in Hr |- *.
  destruct m' as [|p|p]; try discriminate.
  destruct (Z.leb_spec e' (emax - prec)); [|discriminate]. injection Hr as <- <- <-.
  now rewrite (proj2 (Z.leb_le _ _) Hroom).
Qed.

(** An upper bound on the magnitude of any rounded value: at most one
    above the larger of the exact magnitude and [emin]. *)
Lemma binary_round_aux_mag_le sx mx ex lx :
  (0 <= mx)%Z ->
  match binary_round_aux prec emax sx mx ex lx with
  | S754_finite _ m e => (Zdigits2 (Zpos m) + e <= Z.max (Zdigits2 mx + ex) emin + 1)%Z
  | _ => True
  end.
Proof.
  intros Hm. rewrite binary_round_aux_eq. cbv zeta.
  set (r1 := shr_fexp prec emax mx ex lx).
  destruct (shr_fexp_spec_gen mx ex lx Hm) as [_ Hq1]. fold r1 in Hq1.
  pose proof (shr_fexp_mag_le mx ex lx Hm) as Hl1. fold r1 in Hl1.
  assert (Hq0 : (0 <= shr_m (fst r1))%Z)
    by (rewrite Hq1; apply Z_div_nonneg_nonneg; [lia | apply Z.pow_nonneg; lia]).
  set (m1 := round_nearest_even (shr_m (fst r1)) (loc_of_shr_record (fst r1))).
  pose proof (round_nearest_even_le (shr_m (fst r1)) (loc_of_shr_record (fst r1))) as Hb.
  fold m1 in Hb.
  assert (Hd1 : (Zdigits2 m1 <= Zdigits2 (shr_m (fst r1)) + 1)%Z).
  { apply Z.le_trans with (Zdigits2 (shr_m (fst r1) + 1)); [apply Zdigits2_mono; lia|].
    now apply Zdigits2_succ. }
  pose proof (shr_fexp_mag_le m1 (snd r1) loc_Exact ltac:(lia)) as Hl2.
  unfold round_finish.
  destruct (shr_m (fst (shr_fexp prec emax m1 (snd r1) loc_Exact))) as [|p|p]; [exact I| |exact I].
  destruct (_ <=? _)%Z; [|exact I]. unfold emin in *. lia.
Qed.
(** Rounding a value whose exponent and magnitude leave room below
    [emax] gives a zero or a finite value, never an infinity. *)
Lemma binary_round_aux_finite sx mx ex lx :
  (0 <= mx)%Z -> (ex <= emax - prec)%Z -> (Zdigits2 mx + ex <= emax - 1)%Z ->
  is_finite (binary_round_aux prec emax sx mx ex lx) = true.
Proof.
  intros Hm He Hd. rewrite binary_round_aux_eq. cbv zeta.
  set (r1 := shr_fexp prec emax mx ex lx).
  destruct (shr_fexp_spec_gen mx ex lx Hm) as [Hs1 Hq1]. fold r1 in Hs1, Hq1.
  pose proof (shr_fexp_mag_le mx ex lx Hm) as Hl1. fold r1 in Hl1.
  assert (Hq0 : (0 <= shr_m (fst r1))%Z) by (rewrite Hq1; apply Z_div_nonneg_nonneg; [lia | apply Z.pow_nonneg; lia]).
  set (m1 := round_nearest_even (shr_m (fst r1)) (loc_of_shr_record (fst r1))).
  pose proof (round_nearest_even_le (shr_m (fst r1)) (loc_of_shr_record (fst r1))) as Hb.
  fold m1 in Hb.
  assert (Hd1 : (Zdigits2 m1 <= Zdigits2 (shr_m (fst r1)) + 1)%Z).
  { apply Z.le_trans with (Zdigits2 (shr_m (fst r1) + 1)); [apply Zdigits2_mono; lia|].
    now apply Zdigits2_succ. }
  assert (Hm1 : (0 <= m1)%Z) by lia.
  destruct (shr_fexp_spec_gen m1 (snd r1) loc_Exact Hm1) as [Hs2 Hq2].
  assert (Hq20 : (0 <= shr_m (fst (shr_fexp prec emax m1 (snd r1) loc_Exact)))%Z)
    by (rewrite Hq2; apply Z_div_nonneg_nonneg; [lia | apply Z.pow_nonneg; lia]).
  unfold fexp, SpecFloat.fexp in Hs1, Hs2. fold emin in Hs1, Hs2.
  assert (Hemin : (emin <= emax - prec)%Z) by (unfold emin, SpecFloat.emin; lia).
  unfold round_finish.
  destruct (shr_m (fst (shr_fexp prec emax m1 (snd r1) loc_Exact))) as [|p|p]; [reflexivity | | lia].
  rewrite (proj2 (Z.leb_le _ _)); [reflexivity|]. rewrite Hs2. lia.
Qed.

(** Rounding in the normal range never lowers the magnitude and raises
    it by at most one. *)
Lemma binary_round_aux_mag sx mx ex lx :
  (0 < mx)%Z -> normal_mag mx ex ->
  match binary_round_aux prec emax sx mx ex lx with
  | S754_finite _ m e => (Zdigits2 mx + ex <= Zdigits2 (Zpos m) + e <= Zdigits2 mx + ex + 1)%Z
  | S754_zero _ => False
  | _ => True
  end.
Proof.
  intros Hm Hn. rewrite binary_round_aux_eq. cbv zeta.
  destruct (round_first_pass_mag mx ex lx Hm Hn) as [Hm1 [Hlo Hhi]]. cbv zeta in Hm1, Hlo, Hhi.
  set (r1 := shr_fexp prec emax mx ex lx) in *.
  set (m1 := round_nearest_even (shr_m (fst r1)) (loc_of_shr_record (fst r1))) in *.
  assert (N1 : normal_mag m1 (snd r1)) by (unfold normal_mag in *; lia).
  pose proof (shr_fexp_mag m1 (snd r1) loc_Exact Hm1 N1) as Hmag2.
  destruct (shr_fexp_spec_gen m1 (snd r1) loc_Exact ltac:(lia)) as [Hs2 _].
  unfold round_finish.
  destruct (shr_m (fst (shr_fexp prec emax m1 (snd r1) loc_Exact))) as [|p|p] eqn:E; [| |exact I].
  - exfalso. cbn in Hmag2. unfold fexp, SpecFloat.fexp in Hs2. fold emin in Hs2.
    unfold normal_mag in N1. pose proof (Zdigits2_pos m1 Hm1). lia.
  - destruct (_ <=? _)%Z; [|exact I]. lia.
Qed.

(** ** [binary_round]: the left shift to the canonical exponent first *)

Lemma shl_align_mag mx ex ex' :
  (Zdigits2 (Zpos (fst (shl_align mx ex ex'))) + snd (shl_align mx ex ex') =
     Zdigits2 (Zpos mx) + ex)%Z.
Proof.
  unfold shl_align. destruct (ex' - ex)%Z as [|p|p] eqn:E; cbn [fst snd]; try lia.
  cbn [Zdigits2]. rewrite digits2_pos_iter_xO, Pos2Z.inj_add. lia.
Qed.

Lemma shl_align_shift mx ex ex' k :
  shl_align mx (ex + k) (ex' + k) =
    (fst (shl_align mx ex ex'), (snd (shl_align mx ex ex') + k)%Z).
Proof.
  unfold shl_align. replace (ex' + k - (ex + k))%Z with (ex' - ex)%Z by lia.
  destruct (ex' - ex)%Z; cbn [fst snd]; f_equal; lia.
Qed.

Lemma binary_round_eq sx mx ex :
  binary_round prec emax sx mx ex =
    let sa := shl_align mx ex (fexp (Zdigits2 (Zpos mx) + ex)) in
    binary_round_aux prec emax sx (Zpos (fst sa)) (snd sa) loc_Exact.
Proof. unfold binary_round. destruct (shl_align _ _ _) as [mz ez]. reflexivity. Qed.

Lemma binary_round_shift sx mx ex k :
  normal_mag (Zpos mx) ex -> normal_mag (Zpos mx) (ex + k) ->
  is_finite (binary_round prec emax sx mx ex) = true ->
  is_finite (binary_round prec emax sx mx (ex + k)) = true ->
  binary_round prec emax sx mx (ex + k) = sf_scale k (binary_round prec emax sx mx ex).
Proof.
  intros Hn Hnk. rewrite !binary_round_eq. cbv zeta.
  replace (Zdigits2 (Zpos mx) + (ex + k))%Z with (Zdigits2 (Zpos mx) + ex + k)%Z by lia.
  pose proof (fexp_normal _ _ Hn) as F1. pose proof (fexp_normal _ _ Hnk) as F2.
  replace (Zdigits2 (Zpos mx) + (ex + k))%Z with (Zdigits2 (Zpos mx) + ex + k)%Z in F2 by lia.
  rewrite F2. replace (Zdigits2 (Zpos mx) + ex + k - prec)%Z
    with (fexp (Zdigits2 (Zpos mx) + ex) + k)%Z by (rewrite F1; lia).
  rewrite shl_align_shift. cbn [fst snd].
  pose proof (shl_align_mag mx ex (fexp (Zdigits2 (Zpos mx) + ex))) as Hmag.
  apply binary_round_aux_shift; [lia | unfold normal_mag in *; lia ..].
Qed.

Lemma binary_round_shift_room sx mx ex k s m e :
  normal_mag (Zpos mx) ex -> normal_mag (Zpos mx) (ex + k) ->
  binary_round prec emax sx mx ex = S754_finite s m e -> (e + k <= emax - prec)%Z ->
  binary_round prec emax sx mx (ex + k) = S754_finite s m (e + k).
Proof.
  intros Hn Hnk. rewrite !binary_round_eq. cbv zeta.
  replace (Zdigits2 (Zpos mx) + (ex + k))%Z with (Zdigits2 (Zpos mx) + ex + k)%Z by lia.
  pose proof (fexp_normal _ _ Hn) as F1. pose proof (fexp_normal _ _ Hnk) as F2.
  replace (Zdigits2 (Zpos mx) + (ex + k))%Z with (Zdigits2 (Zpos mx) + ex + k)%Z in F2 by lia.
  rewrite F2. replace (Zdigits2 (Zpos mx) + ex + k - prec)%Z
    with (fexp (Zdigits2 (Zpos mx) + ex) + k)%Z by (rewrite F1; lia).
  rewrite shl_align_shift. cbn [fst snd].
  pose proof (shl_align_mag mx ex (fexp (Zdigits2 (Zpos mx) + ex))) as Hmag.
  apply binary_round_aux_shift_room; [lia | unfold normal_mag in *; lia ..].
Qed.

Lemma binary_round_mag sx mx ex :
  normal_mag (Zpos mx) ex ->
  match binary_round prec emax sx mx ex with
  | S754_finite _ m e => (Zdigits2 (Zpos mx) + ex <= Zdigits2 (Zpos m) + e <= Zdigits2 (Zpos mx) + ex + 1)%Z
  | S754_zero _ => False
  | _ => True
  end.
Proof.
  intros Hn. rewrite binary_round_eq. cbv zeta.
  pose proof (shl_align_mag mx ex (fexp (Zdigits2 (Zpos mx) + ex))) as Hmag.
  set (sa := shl_align mx ex (fexp (Zdigits2 (Zpos mx) + ex))) in *.
  pose proof (binary_round_aux_mag sx (Zpos (fst sa)) (snd sa) loc_Exact ltac:(lia)
                ltac:(unfold normal_mag in *; lia)) as H.
  rewrite Hmag in H. exact H.
Qed.

Lemma binary_round_mag_le sx mx ex :
  match binary_round prec emax sx mx ex with
  | S754_finite _ m e => (Zdigits2 (Zpos m) + e <= Z.max (Zdigits2 (Zpos mx) + ex) emin + 1)%Z
  | _ => True
  end.
Proof.
  rewrite binary_round_eq. cbv zeta.
  pose proof (shl_align_mag mx ex (fexp (Zdigits2 (Zpos mx) + ex))) as Hmag.
  set (sa := shl_align mx ex (fexp (Zdigits2 (Zpos mx) + ex))) in *.
  pose proof (binary_round_aux_mag_le sx (Zpos (fst sa)) (snd sa) loc_Exact ltac:(lia)) as H.
  rewrite Hmag in H. exact H.
Qed.

Lemma binary_round_finite sx mx ex :
  (Zdigits2 (Zpos mx) + ex <= emax - 1)%Z -> is_finite (binary_round prec emax sx mx ex) = true.
Proof.
  intros Hd. rewrite binary_round_eq. cbv zeta.
  pose proof (shl_align_mag mx ex (fexp (Zdigits2 (Zpos mx) + ex))) as Hmag.
  apply binary_round_aux_finite; [lia | | lia].
  assert (Hsnd : (snd (shl_align mx ex (fexp (Zdigits2 (Zpos mx) + ex))) <=
                  fexp (Zdigits2 (Zpos mx) + ex))%Z).
  { unfold shl_align. destruct (_ - ex)%Z eqn:E; cbn [snd]; lia. }
  assert (emin <= emax - prec)%Z by (unfold emin, SpecFloat.emin; lia).
  assert (fexp (Zdigits2 (Zpos mx) + ex) <= emax - prec)%Z
    by (unfold fexp, SpecFloat.fexp; fold emin; lia). lia.
Qed.

(** Rounding a positive value in the normal range, with room below the
    overflow threshold, gives a positive finite value of the same
    magnitude, up to one. *)
Lemma binary_round_pos_finite mx ex :
  normal_mag (Zpos mx) ex -> (Zdigits2 (Zpos mx) + ex <= emax - 1)%Z ->
  exists m e, binary_round prec emax false mx ex = S754_finite false m e /\
    (Zdigits2 (Zpos mx) + ex <= Zdigits2 (Zpos m) + e <= Zdigits2 (Zpos mx) + ex + 1)%Z.
Proof.
  intros Hn Hup. pose proof (binary_round_finite false mx ex Hup) as F.
  pose proof (binary_round_mag false mx ex Hn) as M.
  pose proof (binary_round_sign prec emax false mx ex) as S.
  destruct (binary_round prec emax false mx ex) as [s'|s'| |s' m e]; try contradiction;
    try discriminate.
  destruct s'; [discriminate|]. exists m, e. split; [reflexivity | exact M].
Qed.

(** ** The operations *)

Lemma SFmul_scale sx mx ex sy my ey a b :
  normal_mag (Zpos (mx * my)) (ex + ey) -> normal_mag (Zpos (mx * my)) (ex + ey + (a + b)) ->
  is_finite (SFmul prec emax (S754_finite sx mx ex) (S754_finite sy my ey)) = true ->
  is_finite (SFmul prec emax (S754_finite sx mx (ex + a)) (S754_finite sy my (ey + b))) = true ->
  SFmul prec emax (S754_finite sx mx (ex + a)) (S754_finite sy my (ey + b)) =
    sf_scale (a + b) (SFmul prec emax (S754_finite sx mx ex) (S754_finite sy my ey)).
Proof.
  intros N1 N2 F1 F2. cbn [SFmul] in *.
  replace (ex + a + (ey + b))%Z with (ex + ey + (a + b))%Z in * by lia.
  apply binary_round_aux_shift; auto; lia.
Qed.

(** The exact sum of two positive floats, on the smaller exponent. *)
Definition add_mant (mx : positive) (ex : Z) (my : positive) (ey : Z) : Z :=
  (Zpos mx * 2 ^ (ex - Z.min ex ey) + Zpos my * 2 ^ (ey - Z.min ex ey))%Z.

Lemma SFadd_pos_eq mx ex my ey :
  exists P, add_mant mx ex my ey = Zpos P /\
    SFadd prec emax (S754_finite false mx ex) (S754_finite false my ey) =
      binary_round prec emax false P (Z.min ex ey).
Proof.
  cbn [SFadd cond_Zopp]. unfold add_mant.
  rewrite <- (shl_align_value mx ex (Z.min ex ey)), <- (shl_align_value my ey (Z.min ex ey)) by lia.
  eexists. split; [reflexivity | reflexivity].
Qed.

Lemma SFadd_pos_scale mx ex my ey k :
  normal_mag (add_mant mx ex my ey) (Z.min ex ey) ->
  normal_mag (add_mant mx ex my ey) (Z.min ex ey + k) ->
  is_finite (SFadd prec emax (S754_finite false mx ex) (S754_finite false my ey)) = true ->
  is_finite (SFadd prec emax (S754_finite false mx (ex + k)) (S754_finite false my (ey + k))) = true ->
  SFadd prec emax (S754_finite false mx (ex + k)) (S754_finite false my (ey + k)) =
    sf_scale k (SFadd prec emax (S754_finite false mx ex) (S754_finite false my ey)).
Proof.
  intros N1 N2. destruct (SFadd_pos_eq mx ex my ey) as (P & HP & E1).
  destruct (SFadd_pos_eq mx (ex + k) my (ey + k)) as (P' & HP' & E2).
  assert (HPP : P' = P).
  { apply Pos2Z.inj. rewrite <- HP, <- HP'. unfold add_mant.
    replace (Z.min (ex + k) (ey + k)) with (Z.min ex ey + k)%Z by lia.
    f_equal; f_equal; f_equal; lia. }
  subst P'. rewrite E1, E2. replace (Z.min (ex + k) (ey + k)) with (Z.min ex ey + k)%Z by lia.
  rewrite HP in N1, N2. apply binary_round_shift; assumption.
Qed.

(** The magnitude of the exact sum is at least that of each operand. *)
Lemma add_mant_mag mx ex my ey :
  (Zdigits2 (Zpos mx) + ex <= Zdigits2 (add_mant mx ex my ey) + Z.min ex ey)%Z /\
  (Zdigits2 (Zpos my) + ey <= Zdigits2 (add_mant mx ex my ey) + Z.min ex ey)%Z.
Proof.
  unfold add_mant. set (ez := Z.min ex ey).
  assert (Hx : forall (m : positive) e j, (0 <= j)%Z -> (ez <= e)%Z ->
             (Zdigits2 (Zpos m) + e <= Zdigits2 (Zpos m * 2 ^ (e - ez) + j) + ez)%Z).
  { intros m e j Hj He. rewrite <- (shl_align_value m e ez He).
    pose proof (shl_align_mag m e ez) as Hm. unfold shl_align in Hm |- *.
    assert (Hd : (Zdigits2 (Zpos (fst (shl_align m e ez))) <=
                  Zdigits2 (Zpos (fst (shl_align m e ez)) + j))%Z) by (apply Zdigits2_mono; lia).
    unfold shl_align in Hd. destruct (ez - e)%Z eqn:E; cbn [fst snd] in *; lia. }
  split.
  - apply Hx; [pose proof (Z.pow_nonneg 2 (ey - ez)); lia | unfold ez; lia].
  - replace (Zpos mx * 2 ^ (ex - ez) + Zpos my * 2 ^ (ey - ez))%Z
      with (Zpos my * 2 ^ (ey - ez) + Zpos mx * 2 ^ (ex - ez))%Z by ring. apply Hx; [pose proof (Z.pow_nonneg 2 (ex - ez)); lia | unfold ez; lia].
Qed.

Lemma fexp_normal_Z z : (emin <= z - prec)%Z -> fexp z = (z - prec)%Z.
Proof. unfold fexp, SpecFloat.fexp. fold emin. lia. Qed.

(** Bounds on a truncated quotient [m / b] of numbers of [d] and [d2]
    digits: between [2^(d - 1 - d2)] and [2^(d - d2 + 1)]. *)
Lemma div_digits m b :
  (0 < m)%Z -> (0 < b)%Z -> (Zdigits2 b <= Zdigits2 m - 1)%Z ->
  (Zdigits2 m - Zdigits2 b <= Zdigits2 (m / b) <= Zdigits2 m - Zdigits2 b + 1)%Z.
Proof.
  intros Hm Hb Hd. pose proof (Zdigits2_pow_le m Hm) as [Hm1 Hm2].
  pose proof (Zdigits2_pow_le b Hb) as [Hb1 Hb2].
  set (dm := Zdigits2 m) in *. set (db := Zdigits2 b) in *.
  pose proof (Zdigits2_pos b Hb).
  assert (Hlo : (2 ^ (dm - 1 - db) <= m / b)%Z).
  { apply Z.div_le_lower_bound; [lia|].
    apply Z.le_trans with (2 ^ db * 2 ^ (dm - 1 - db))%Z; [apply Z.mul_le_mono_nonneg_r; [apply Z.pow_nonneg|]; lia|].
    rewrite <- Z.pow_add_r by lia. replace (db + (dm - 1 - db))%Z with (dm - 1)%Z by lia. lia. }
  assert (Hhi : (m / b < 2 ^ (dm - db + 1))%Z).
  { apply Z.div_lt_upper_bound; [lia|].
    apply Z.lt_le_trans with (2 ^ dm)%Z; [lia|].
    apply Z.le_trans with (2 ^ (db - 1) * 2 ^ (dm - db + 1))%Z; [|apply Z.mul_le_mono_nonneg_r; [apply Z.pow_nonneg|]; lia].
    rewrite <- Z.pow_add_r by lia. replace (db - 1 + (dm - db + 1))%Z with dm by lia. lia. }
  split.
  - pose proof (Zdigits2_ge_pow (m / b) (dm - 1 - db) ltac:(lia) Hlo). lia.
  - apply Zdigits2_lt_pow. split; [apply Z.div_pos; lia | exact Hhi].
Qed.

(** The division core in the normal range: a positive quotient whose
    magnitude is that of the exact quotient, up to one, at an exponent
    at most [D - prec]. *)
Lemma SFdiv_core_spec (m1 m2 : positive) e1 e2 :
  let D := (Zdigits2 (Zpos m1) + e1 - (Zdigits2 (Zpos m2) + e2))%Z in
  (emin <= D - prec)%Z ->
  let '(q, e', _) := SFdiv_core_binary prec emax (Zpos m1) e1 (Zpos m2) e2 in
  (0 < q)%Z /\ (D <= Zdigits2 q + e' <= D + 1)%Z /\ (e' <= D - prec)%Z.
Proof.
  intros D HD. unfold SFdiv_core_binary. fold fexp.
  replace (Zdigits2 (Zpos m1) + e1 - (Zdigits2 (Zpos m2) + e2))%Z with D by reflexivity.
  rewrite (fexp_normal_Z D HD).
  set (e' := Z.min (D - prec) (e1 - e2)).
  assert (Hs : (0 <= e1 - e2 - e')%Z) by (unfold e'; lia).
  set (s := (e1 - e2 - e')%Z) in *.
  assert (Hm' : (match s with Zpos _ => Z.shiftl (Zpos m1) s | Z0 => Zpos m1 | Zneg _ => 0 end
                 = Zpos m1 * 2 ^ s)%Z).
  { destruct s as [|p|p] eqn:Es; [lia | apply Z.shiftl_mul_pow2; lia | lia]. }
  rewrite Hm'. destruct (Z.div_eucl (Zpos m1 * 2 ^ s) (Zpos m2)) as [q r] eqn:E.
  assert (Hq : q = (Zpos m1 * 2 ^ s / Zpos m2)%Z) by (unfold Z.div; now rewrite E).
  assert (Hd : Zdigits2 (Zpos m1 * 2 ^ s) = (Zdigits2 (Zpos m1) + s)%Z)
    by exact (Zdigits2_mul_pow m1 s Hs).
  assert (Hgt : (Zdigits2 (Zpos m2) <= Zdigits2 (Zpos m1 * 2 ^ s) - 1)%Z).
  { rewrite Hd. unfold s, e', D in *. lia. }
  pose proof (div_digits (Zpos m1 * 2 ^ s) (Zpos m2) ltac:(pose proof (Z.pow_pos_nonneg 2 s ltac:(lia) Hs); lia)
                ltac:(lia) Hgt) as [H1 H2].
  rewrite <- Hq, Hd in H1, H2.
  assert (Hq0 : (0 < q)%Z).
  { assert (0 <= q)%Z by (rewrite Hq; apply Z.div_pos; [pose proof (Z.pow_pos_nonneg 2 s ltac:(lia) Hs); lia | lia]).
    destruct (Z.eq_dec q 0) as [E0|E0]; [|lia].
    rewrite E0 in H1. change (Zdigits2 0) with 0%Z in H1. rewrite Hd in Hgt. lia. }
  split; [exact Hq0|]. unfold s, e', D in *. lia.
Qed.

Lemma SFdiv_core_shift (m1 m2 : positive) e1 e2 k :
  let D := (Zdigits2 (Zpos m1) + e1 - (Zdigits2 (Zpos m2) + e2))%Z in
  (emin <= D - prec)%Z -> (emin <= D + k - prec)%Z ->
  SFdiv_core_binary prec emax (Zpos m1) (e1 + k) (Zpos m2) e2 =
    let '(q, e', l) := SFdiv_core_binary prec emax (Zpos m1) e1 (Zpos m2) e2 in (q, (e' + k)%Z, l).
Proof.
  intros D H1 H2. unfold SFdiv_core_binary. fold fexp.
  replace (Zdigits2 (Zpos m1) + (e1 + k) - (Zdigits2 (Zpos m2) + e2))%Z with (D + k)%Z
    by (unfold D; lia).
  replace (Zdigits2 (Zpos m1) + e1 - (Zdigits2 (Zpos m2) + e2))%Z with D by reflexivity.
  rewrite (fexp_normal_Z D H1), (fexp_normal_Z (D + k) H2).
  replace (Z.min (D + k - prec) (e1 + k - e2)) with (Z.min (D - prec) (e1 - e2) + k)%Z by lia.
  replace (e1 + k - e2 - (Z.min (D - prec) (e1 - e2) + k))%Z
    with (e1 - e2 - Z.min (D - prec) (e1 - e2))%Z by lia.
  destruct (match (e1 - e2 - Z.min (D - prec) (e1 - e2))%Z with
            | Zpos _ => _ | Z0 => _ | Zneg _ => _ end).
  all: destruct (Z.div_eucl _ _); reflexivity.
Qed.

(** A quotient of positive floats in the normal range, with room below
    the overflow threshold, is a positive finite float of the
    magnitude of the exact quotient, up to two. *)
Lemma SFdiv_pos_finite mx ex my ey :
  let D := (Zdigits2 (Zpos mx) + ex - (Zdigits2 (Zpos my) + ey))%Z in
  (emin <= D - prec)%Z -> (D <= emax - 2)%Z ->
  exists m e, SFdiv prec emax (S754_finite false mx ex) (S754_finite false my ey) = S754_finite false m e /\
    (D <= Zdigits2 (Zpos m) + e <= D + 2)%Z.
Proof.
  intros D HD Hup. cbn [SFdiv xorb].
  pose proof (SFdiv_core_spec mx my ex ey HD) as Hc.
  destruct (SFdiv_core_binary prec emax (Zpos mx) ex (Zpos my) ey) as [[q e'] l].
  destruct Hc as (Hq & Hmag & He').
  assert (N : normal_mag q e') by (unfold normal_mag; fold D; lia).
  pose proof (binary_round_aux_finite false q e' l ltac:(lia) ltac:(lia) ltac:(lia)) as F.
  pose proof (binary_round_aux_mag false q e' l Hq N) as M.
  destruct (binary_round_aux prec emax false q e' l) as [s'|s'| |s' m e] eqn:E; try contradiction;
    try discriminate.
  assert (Hs : s' = false).
  { pose proof (binary_round_aux_sign prec emax false q e' l) as Hsg. rewrite E in Hsg. cbn in Hsg.
    now destruct s'. }
  subst s'. exists m, e. split; [reflexivity | lia].
Qed.

Lemma SFdiv_pos_scale mx ex my ey k :
  let D := (Zdigits2 (Zpos mx) + ex - (Zdigits2 (Zpos my) + ey))%Z in
  (emin <= D - prec)%Z -> (emin <= D + k - prec)%Z -> (D <= emax - 2)%Z -> (D + k <= emax - 2)%Z ->
  SFdiv prec emax (S754_finite false mx (ex + k)) (S754_finite false my ey) =
    sf_scale k (SFdiv prec emax (S754_finite false mx ex) (S754_finite false my ey)).
Proof.
  intros D H1 H2 H3 H4. cbn [SFdiv xorb]. rewrite (SFdiv_core_shift mx my ex ey k H1 H2).
  pose proof (SFdiv_core_spec mx my ex ey H1) as Hc.
  destruct (SFdiv_core_binary prec emax (Zpos mx) ex (Zpos my) ey) as [[q e'] l].
  destruct Hc as (Hq & Hmag & He').
  apply binary_round_aux_shift; [lia | unfold normal_mag; fold D; lia .. | |];
    apply binary_round_aux_finite; lia.
Qed.

(** The square-root core in the normal range: a positive root whose
    magnitude is exactly [H = (mag + 1) / 2], at an exponent at most
    [H - prec]. *)
Lemma SFsqrt_core_spec (m : positive) e :
  let H := Z.div2 (Zdigits2 (Zpos m) + e + 1) in
  (emin <= H - prec)%Z ->
  let '(q, e', _) := SFsqrt_core_binary prec emax (Zpos m) e in
  (0 < q)%Z /\ (Zdigits2 q + e' = H)%Z /\ (e' <= H - prec)%Z.
Proof.
  intros H HH. unfold SFsqrt_core_binary. fold fexp.
  replace (Z.div2 (Zdigits2 (Zpos m) + e + 1)) with H by reflexivity.
  rewrite (fexp_normal_Z H HH).
  set (e' := Z.min (H - prec) (Z.div2 e)).
  assert (Hs : (0 <= e - 2 * e')%Z).
  { unfold e'. pose proof (Z.div2_odd e) as Ho. destruct (Z.odd e); cbn [Z.b2z] in Ho; lia. }
  set (s := (e - 2 * e')%Z) in *.
  assert (Hm' : (match s with Zpos _ => Z.shiftl (Zpos m) s | Z0 => Zpos m | Zneg _ => 0 end
                 = Zpos m * 2 ^ s)%Z).
  { destruct s as [|p|p] eqn:Es; [lia | apply Z.shiftl_mul_pow2; lia | lia]. }
  rewrite Hm'. pose proof (Z.sqrtrem_sqrt (Zpos m * 2 ^ s)) as Hsq.
  destruct (Z.sqrtrem (Zpos m * 2 ^ s)) as [q r]. cbn [fst] in Hsq. subst q.
  pose proof (Z.pow_pos_nonneg 2 s ltac:(lia) Hs).
  pose proof (Zdigits2_sqrt (Zpos m * 2 ^ s) ltac:(pose proof (Pos2Z.is_pos m); nia)) as Hd.
  rewrite (Zdigits2_mul_pow m s Hs) in Hd.
  assert (Hq : (0 < Z.sqrt (Zpos m * 2 ^ s))%Z).
  { apply Z.sqrt_pos. pose proof (Pos2Z.is_pos m). nia. }
  split; [exact Hq|]. split; [|unfold e'; lia].
  rewrite Hd. unfold H, s. rewrite Z.div2_div.
  replace (Zdigits2 (Zpos m) + (e - 2 * e') + 1)%Z with (Zdigits2 (Zpos m) + e + 1 + (- e') * 2)%Z by lia.
  rewrite Z.div_add by lia. lia.
Qed.

Lemma SFsqrt_core_shift (m : positive) e k :
  let H := Z.div2 (Zdigits2 (Zpos m) + e + 1) in
  (emin <= H - prec)%Z -> (emin <= H + k - prec)%Z ->
  SFsqrt_core_binary prec emax (Zpos m) (e + 2 * k) =
    let '(q, e', l) := SFsqrt_core_binary prec emax (Zpos m) e in (q, (e' + k)%Z, l).
Proof.
  intros H H1 H2. unfold SFsqrt_core_binary. fold fexp.
  replace (Z.div2 (Zdigits2 (Zpos m) + (e + 2 * k) + 1)) with (H + k)%Z
    by (unfold H; rewrite !Z.div2_div;
        replace (Zdigits2 (Zpos m) + (e + 2 * k) + 1)%Z with (Zdigits2 (Zpos m) + e + 1 + k * 2)%Z by lia;
        now rewrite Z.div_add by lia).
  replace (Z.div2 (Zdigits2 (Zpos m) + e + 1)) with H by reflexivity.
  replace (Z.div2 (e + 2 * k)) with (Z.div2 e + k)%Z
    by (rewrite !Z.div2_div; replace (e + 2 * k)%Z with (e + k * 2)%Z by lia;
        now rewrite Z.div_add by lia).
  rewrite (fexp_normal_Z H H1), (fexp_normal_Z (H + k) H2).
  replace (Z.min (H + k - prec) (Z.div2 e + k)) with (Z.min (H - prec) (Z.div2 e) + k)%Z by lia.
  replace (e + 2 * k - 2 * (Z.min (H - prec) (Z.div2 e) + k))%Z
    with (e - 2 * Z.min (H - prec) (Z.div2 e))%Z by lia.
  destruct (match (e - 2 * Z.min (H - prec) (Z.div2 e))%Z with
            | Zpos _ => _ | Z0 => _ | Zneg _ => _ end).
  all: destruct (Z.sqrtrem _); reflexivity.
Qed.

Lemma SFsqrt_pos_finite mx ex :
  let H := Z.div2 (Zdigits2 (Zpos mx) + ex + 1) in
  (emin <= H - prec)%Z -> (H <= emax - 1)%Z ->
  exists m e, SFsqrt prec emax (S754_finite false mx ex) = S754_finite false m e /\
    (H <= Zdigits2 (Zpos m) + e <= H + 1)%Z.
Proof.
  intros H HH Hup. cbn [SFsqrt].
  pose proof (SFsqrt_core_spec mx ex HH) as Hc.
  destruct (SFsqrt_core_binary prec emax (Zpos mx) ex) as [[q e'] l].
  destruct Hc as (Hq & Hmag & He').
  assert (N : normal_mag q e') by (unfold normal_mag; lia).
  pose proof (binary_round_aux_finite false q e' l ltac:(lia) ltac:(lia) ltac:(lia)) as F.
  pose proof (binary_round_aux_mag false q e' l Hq N) as M.
  destruct (binary_round_aux prec emax false q e' l) as [s'|s'| |s' m e] eqn:E; try contradiction;
    try discriminate.
  assert (Hs : s' = false).
  { pose proof (binary_round_aux_sign prec emax false q e' l) as Hsg. rewrite E in Hsg. cbn in Hsg.
    now destruct s'. }
  subst s'. exists m, e. split; [reflexivity | lia].
Qed.

Lemma SFsqrt_pos_scale mx ex k :
  let H := Z.div2 (Zdigits2 (Zpos mx) + ex + 1) in
  (emin <= H - prec)%Z -> (emin <= H + k - prec)%Z -> (H <= emax - 1)%Z -> (H + k <= emax - 1)%Z ->
  SFsqrt prec emax (S754_finite false mx (ex + 2 * k)) =
    sf_scale k (SFsqrt prec emax (S754_finite false mx ex)).
Proof.
  intros H H1 H2 H3 H4. cbn [SFsqrt]. rewrite (SFsqrt_core_shift mx ex k H1 H2).
  pose proof (SFsqrt_core_spec mx ex H1) as Hc.
  destruct (SFsqrt_core_binary prec emax (Zpos mx) ex) as [[q e'] l].
  destruct Hc as (Hq & Hmag & He').
  apply binary_round_aux_shift; [lia | unfold normal_mag; lia .. | |];
    apply binary_round_aux_finite; lia.
Qed.

End Shift.
