(* ===== verification/Ieee.v ===== *)
(** * The IEEE instance: [f32] and [f64] as the program computes them

    [binary32] and [binary64] are Stdlib's executable [spec_float] at
    [(prec, emax) = (24, 128)] and [(53, 1024)], with round to nearest,
    ties to even, the default and only rounding mode of Rust.  The
    operations are those of lib.rs:
    - literals ([1.0e-10], [20.0], [0.0]) are correctly rounded
      ([sf_of_decimal]), as rustc parses them;
    - [as f64] and [as f32] are [sf_convert], and [len as f64] rounds the
      integer;
    - [f32::max] returns the other operand when one is NaN ([rust_fmax]);
      on equal operands it may return either, and [rust_fmax] returns the
      first, which is the same value;
    - [f32::log10] calls [log10f] of the platform's libm, whose results
      IEEE-754 does not fix: it is the section variable [log10f], and a
      theorem that needs a property of it states that property as a
      hypothesis.
    Beyond the sign and NaN theorems, the file proves exactness: [as
    f64] of a binary32 is exact and [as f32] undoes it, and [len as f64]
    is exact below [2^53]; the exactness of the whole reducer on
    constant-magnitude chunks is in [Exact]. *)

From Stdlib Require Import List ZArith Lia Bool.
From Stdlib Require Import Floats.SpecFloat.
From S2P Require Import Prelude Binary Level.
Import ListNotations.

Definition binary32 : Type := spec_float.
Definition binary64 : Type := spec_float.

Definition prec32 : Z := 24.
Definition emax32 : Z := 128.
Definition prec64 : Z := 53.
Definition emax64 : Z := 1024.

(** The decimal literal [m * 10^e], correctly rounded. *)
Definition sf_of_decimal (prec emax m e : Z) : spec_float :=
  if (0 <=? e)%Z then binary_normalize prec emax (m * 10 ^ e) 0 false
  else
    match m with
    | Z0 => S754_zero false
    | Zpos p | Zneg p =>
        let '(q, e', l) := SFdiv_core_binary prec emax (Zpos p) 0 (10 ^ (- e)) 0 in
        binary_round_aux prec emax (m <? 0)%Z q e' l
    end.

(** [f32::max]: IEEE-754 maxNum, the other operand when one is NaN. *)
Definition rust_fmax (x y : spec_float) : spec_float :=
  match x, y with
  | S754_nan, _ => y
  | _, S754_nan => x
  | _, _ => if SFltb x y then y else x
  end.

(** [n as f64] for [n : usize]. *)
Definition usize_as_f64 (n : nat) : binary64 :=
  binary_normalize prec64 emax64 (Z.of_nat n) 0 false.

(** The binary32 value of an integer, for writing samples. *)
Definition f32_of_Z (z : Z) : binary32 := binary_normalize prec32 emax32 z 0 false.

(** [1.0e-10] as a binary32 literal. *)
Definition min_rms32 : binary32 := sf_of_decimal prec32 emax32 1 (-10).

(** The arguments [log10f] may receive from the clamp: [+inf], or a
    positive finite value not below [MIN_RMS]. *)
Definition log10_arg_ok (x : binary32) : bool :=
  match x with
  | S754_infinity false => true
  | S754_finite false _ _ => SFleb min_rms32 x
  | _ => false
  end.

Lemma min_rms32_value : min_rms32 = S754_finite false 14411519 (-57).
Proof. vm_compute. reflexivity. Qed.

(** [n as f64] is exact below [2^53]: a positive finite value [m * 2^e]
    equal to [n]. *)
Lemma usize_as_f64_exact n :
  0 < n -> (Z.of_nat n < 2 ^ 53)%Z ->
  exists m e, usize_as_f64 n = S754_finite false m e /\ (e <= 0)%Z /\
              Zpos m = (Z.of_nat n * 2 ^ (- e))%Z.
Proof.
  intros Hn Hlt. destruct n as [|k]; [lia|]. unfold usize_as_f64.
  change (Z.of_nat (S k)) with (Zpos (Pos.of_succ_nat k)) in *.
  pose proof (digits2_pos_le _ 53 Hlt) as Hd.
  destruct (binary_round_exact prec64 emax64 false (Pos.of_succ_nat k) 0 Hd
              ltac:(unfold emin, prec64, emax64; lia)
              ltac:(unfold fexp, emin, prec64, emax64; lia)) as (m & Hr & Hm).
  exists m, (fexp prec64 emax64 (Zpos (digits2_pos (Pos.of_succ_nat k)) + 0)).
  split; [exact Hr|]. split; [unfold fexp, emin, prec64, emax64 in *; lia|].
  rewrite Hm. now rewrite Z.sub_0_l.
Qed.

(** A binary32 value: canonical mantissa of at most 24 bits, exponent
    at least [-149] (subnormals) and at most [104]. *)
Lemma valid_binary32_bounds s m e :
  valid_binary prec32 emax32 (S754_finite s m e) = true ->
  fexp prec32 emax32 (Zpos (digits2_pos m) + e) = e /\
  (Zpos (digits2_pos m) <= 24)%Z /\ (-149 <= e <= 104)%Z.
Proof.
  cbn [valid_binary]. unfold bounded, canonical_mantissa.
  intros H. apply andb_prop in H as [Hc He].
  apply Z.eqb_eq in Hc. apply Z.leb_le in He.
  unfold fexp, emin, prec32, emax32 in *. lia.
Qed.

(** [x as f64] (line 34) is exact on binary32 values: the mantissa is
    shifted left onto the 53-bit format, the value unchanged. *)
Lemma f32_to_f64_exact s m e :
  valid_binary prec32 emax32 (S754_finite s m e) = true ->
  exists p, sf_convert prec64 emax64 (S754_finite s m e) =
            S754_finite s (Pos.iter xO m p) (e - Zpos p) /\
            (Zpos (digits2_pos m) + Zpos p = 53)%Z.
Proof.
  intros Hv. apply valid_binary32_bounds in Hv as (_ & Hd & He).
  assert (Hd53 : (Zpos (digits2_pos m) <= prec64)%Z) by (unfold prec64; lia).
  destruct (binary_round_exact prec64 emax64 s m e Hd53
              ltac:(unfold emin, prec64, emax64; lia)
              ltac:(unfold fexp, emin, prec64, emax64; lia)) as (m' & Hr & Hm).
  set (e' := fexp prec64 emax64 (Zpos (digits2_pos m) + e)) in *.
  assert (Hk : (0 < e - e')%Z) by (subst e'; unfold fexp, emin, prec64, emax64; lia).
  exists (Z.to_pos (e - e')).
  assert (Hp : Zpos (Z.to_pos (e - e')) = (e - e')%Z) by (apply Z2Pos.id; lia).
  assert (Hm' : m' = Pos.iter xO m (Z.to_pos (e - e'))).
  { apply Pos2Z.inj. now rewrite Zpos_iter_xO, Hp. }
  subst m'. rewrite Hp. replace (e - (e - e'))%Z with e' by lia.
  split; [destruct s; exact Hr|]. subst e'. unfold fexp, emin, prec64, emax64. lia.
Qed.

Section WithLibm.
(** [log10f] of the platform's libm. *)
Variable log10f : binary32 -> binary32.

#[local] Instance ieee_arith : PcmArith binary32 binary64 := {|
  f32_lit := sf_of_decimal prec32 emax32;
  f32_max := rust_fmax;
  f32_mul := SFmul prec32 emax32;
  f32_log10 := log10f;
  f32_to_f64 := sf_convert prec64 emax64;
  f64_mul := SFmul prec64 emax64;
  f64_add := SFadd prec64 emax64;
  f64_div := SFdiv prec64 emax64;
  f64_sqrt := SFsqrt prec64 emax64;
  f64_neg_zero := S754_zero true;
  usize_to_f64 := usize_as_f64;
  f64_to_f32 := sf_convert prec32 emax32
|}.

(** ** Lemmas *)

(** [MIN_RMS] is the binary32 value [0x2EDBE6FF = 14411519 * 2^-57]. *)
Lemma MIN_RMS_value : MIN_RMS = S754_finite false 14411519 (-57).
Proof. vm_compute. reflexivity. Qed.

Lemma f32_zero_value : f32_lit 0 0 = S754_zero false.
Proof. reflexivity. Qed.

(** The clamp of line 49 on a value at or below [MIN_RMS], or NaN. *)
Lemma clamp_floor rms :
  (is_nan rms || SFleb rms MIN_RMS) = true -> f32_max rms MIN_RMS = MIN_RMS.
Proof.
  intros H. change (f32_max rms MIN_RMS) with (rust_fmax rms MIN_RMS).
  rewrite MIN_RMS_value in *.
  destruct rms as [s|s| |s m e]; destruct_signs; try reflexivity; try (simpl in H; discriminate H).
  unfold rust_fmax. destruct (SFltb _ _) eqn:E; [reflexivity|].
  cbn [is_nan orb] in H. unfold SFleb, SFltb in *.
  destruct (SFcompare (S754_finite false m e) _) as [[]|] eqn:C; try discriminate.
  now apply SFcompare_Eq_finite in C.
Qed.

(** Line 34 squares [-x] as it squares [x]: [as f64] commutes with
    negation and the product of two negated operands is the product of
    the operands, whatever [x] is (zeros, infinities and NaN included). *)
Lemma square_f64_opp x : square_f64 (SFopp x) = square_f64 x.
Proof.
  unfold square_f64. cbn [f32_to_f64 f64_mul ieee_arith].
  rewrite sf_convert_opp. apply SFmul_opp_opp.
Qed.

(** The f64 squares of samples that are not NaN are neither NaN nor
    negative. *)
Lemma squares_no_nan (chunk : list binary32) :
  forallb (fun x => negb (is_nan x)) chunk = true ->
  forallb not_negative (map square_f64 chunk) = true /\
  forallb (fun x => negb (is_nan x)) (map square_f64 chunk) = true.
Proof.
  intros Hn. split; apply forallb_forall; intros y Hy;
    apply in_map_iff in Hy as (z & <- & Hz); unfold square_f64;
    cbn [f32_to_f64 f64_mul ieee_arith]; [apply SFmul_self_not_negative|].
  apply negb_true_iff, SFmul_self_not_nan, sf_convert_not_nan.
  apply forallb_forall with (x := z) in Hn; [|exact Hz]. now apply negb_true_iff.
Qed.

(** A silent chunk (every sample [+0.0] or [-0.0]) has RMS [+0.0]:
    the squares are [+0.0], their sum from [-0.0] is [+0.0], and so are
    the quotient and its square root. *)
Lemma silent_rms (chunk : list binary32) :
  chunk <> [] -> (Z.of_nat (length chunk) < 2 ^ 53)%Z -> forallb is_zero chunk = true ->
  calculate_rms chunk = S754_zero false.
Proof.
  intros Hne Hlen Hz. destruct chunk as [|x xs]; [congruence|].
  rewrite calculate_rms_cons. unfold f64_sum.
  cbn [f64_to_f32 f64_sqrt f64_div usize_to_f64 f64_add f64_neg_zero ieee_arith].
  rewrite fold_SFadd_pos_zeros; [| | discriminate].
  - destruct (usize_as_f64_exact (S (length xs))) as (m & e & -> & _);
      [lia | exact Hlen | reflexivity].
  - apply Forall_forall. intros y Hy. apply in_map_iff in Hy as (z & <- & Hz').
    apply forallb_forall with (x := z) in Hz; [|exact Hz'].
    symmetry. unfold square_f64. cbn [f32_to_f64 f64_mul ieee_arith].
    now apply square_zero.
Qed.

(** The level of a zero RMS is the floor. *)
Lemma zero_rms_floor : rms_to_dbfs (S754_zero false) = dbfs_floor.
Proof. unfold rms_to_dbfs, dbfs_floor. cbv zeta. now rewrite clamp_floor. Qed.

(** ** Theorems *)

(** C6: the clamp of line 49 keeps [log10f] on its domain: for every
    RMS value, NaN and infinities included, [log10f] receives [+inf] or
    a positive finite value at least [MIN_RMS], never a NaN, a zero or a
    negative number. *)
Theorem clamp_in_log10_domain rms : log10_arg_ok (f32_max rms MIN_RMS) = true.
Proof.
  change (f32_max rms MIN_RMS) with (rust_fmax rms min_rms32).
  unfold log10_arg_ok. rewrite min_rms32_value.
  destruct rms as [s|s| |s m e]; destruct_signs; try reflexivity.
  unfold rust_fmax. destruct (SFltb _ _) eqn:E; [reflexivity|].
  now apply SFltb_false_leb in E.
Qed.

(** C7: the floor is applied with [max], not by testing for zero: every
    RMS value at or below [MIN_RMS], and NaN, gives the same level
    [20 * log10 MIN_RMS]. *)
Theorem dbfs_floor_uniform rms :
  (is_nan rms || SFleb rms min_rms32) = true -> rms_to_dbfs rms = dbfs_floor.
Proof. intros H. unfold rms_to_dbfs, dbfs_floor. cbv zeta. now rewrite clamp_floor. Qed.

(** C8: the RMS of any chunk is never negative: its sign bit is clear,
    or it is NaN.  Every step of lines 34-38 keeps the sign. *)
Theorem calculate_rms_not_negative (chunk : list binary32) : not_negative (calculate_rms chunk) = true.
Proof.
  destruct chunk as [|x xs]; [reflexivity|].
  rewrite calculate_rms_cons.
  cbn [f64_to_f32 f64_sqrt f64_div usize_to_f64 ieee_arith].
  apply sf_convert_sign, SFsqrt_not_negative, SFdiv_not_negative.
  - unfold f64_sum. cbn [f64_add f64_neg_zero ieee_arith].
    apply fold_SFadd_not_negative; [reflexivity | | discriminate].
    apply forallb_forall. intros y Hy. apply in_map_iff in Hy as (z & <- & _).
    apply SFmul_self_not_negative.
  - apply binary_normalize_pos_sign.
Qed.

(** C9: a silent chunk (every sample [+0.0] or [-0.0]) of any length
    has an RMS of exactly [+0.0], and its level is the floor
    [20 * log10 MIN_RMS], never [log10f 0]. *)
Theorem silent_chunk_floor (chunk : list binary32) :
  chunk <> [] -> (Z.of_nat (length chunk) < 2 ^ 53)%Z -> forallb is_zero chunk = true ->
  calculate_rms chunk = S754_zero false /\ chunk_dbfs chunk = dbfs_floor.
Proof.
  intros Hne Hlen Hz. pose proof (silent_rms chunk Hne Hlen Hz) as Hrms.
  split; [exact Hrms|]. unfold chunk_dbfs. rewrite Hrms. exact zero_rms_floor.
Qed.

(** C21: a chunk without NaN samples has an RMS that is not NaN, also
    when samples are infinite: a square is never [0 * inf], the sum of
    squares never [+inf + -inf], the divisor [len as f64] is a positive
    finite number, and the square root receives a non-negative value. *)
Theorem calculate_rms_not_nan (chunk : list binary32) :
  forallb (fun x => negb (is_nan x)) chunk = true -> (Z.of_nat (length chunk) < 2 ^ 53)%Z ->
  is_nan (calculate_rms chunk) = false.
Proof.
  intros Hn Hlen. destruct chunk as [|x xs]; [reflexivity|].
  destruct (squares_no_nan _ Hn) as [Hs1 Hs2].
  rewrite calculate_rms_cons.
  cbn [f64_to_f32 f64_sqrt f64_div usize_to_f64 ieee_arith].
  destruct (usize_as_f64_exact (S (length xs))) as (m & e & -> & _); [lia | exact Hlen|].
  assert (Hsum : not_negative (f64_sum (map square_f64 (x :: xs))) = true /\
                 is_nan (f64_sum (map square_f64 (x :: xs))) = false).
  { unfold f64_sum. cbn [f64_add f64_neg_zero ieee_arith]. split.
    - apply fold_SFadd_not_negative; [reflexivity | exact Hs1 | discriminate].
    - apply fold_SFadd_not_nan; [reflexivity | reflexivity | exact Hs1 | exact Hs2]. }
  destruct Hsum as [Hsum1 Hsum2].
  apply sf_convert_not_nan, SFsqrt_not_nan;
    [apply SFdiv_not_negative; [exact Hsum1 | reflexivity] | apply SFdiv_not_nan; assumption].
Qed.
(** The round trip of the casts of lines 34 and 38.  Every binary32
    value, zeros, infinities and NaN included, converted to f64 and back
    is itself: [sample as f64] loses nothing, so the f64 accumulator of
    the RMS sees the samples exactly. *)
Lemma f32_f64_roundtrip (x : binary32) :
  valid_binary prec32 emax32 x = true -> f64_to_f32 (f32_to_f64 x) = x.
Proof.
  cbn [f64_to_f32 f32_to_f64 ieee_arith].
  destruct x as [s|s| |s m e]; intros Hv; try reflexivity.
  destruct (f32_to_f64_exact s m e Hv) as (p & -> & _).
  apply valid_binary32_bounds in Hv as (Hc & _ & He).
  unfold sf_convert. cbn [cond_Zopp binary_normalize Z.opp].
  destruct s; apply binary_round_shifted; auto; unfold emax32, prec32; lia.
Qed.

(** C33: NaN propagates through the RMS, as spec 4.1 requires, and is
    then floored by the clamp: a chunk holding a NaN sample has RMS NaN,
    and its level is the floor [20 * log10 MIN_RMS], the level of
    silence. *)
Theorem nan_chunk_floor (chunk : list binary32) :
  In S754_nan chunk -> calculate_rms chunk = S754_nan /\ chunk_dbfs chunk = dbfs_floor.
Proof.
  intros Hin. assert (Hrms : calculate_rms chunk = S754_nan).
  { destruct chunk as [|x xs]; [destruct Hin|]. rewrite calculate_rms_cons.
    unfold f64_sum. cbn [f64_to_f32 f64_sqrt f64_div f64_add f64_neg_zero ieee_arith].
    rewrite fold_SFadd_nan; [reflexivity|].
    apply in_map_iff. now exists S754_nan. }
  split; [exact Hrms|]. unfold chunk_dbfs, rms_to_dbfs, dbfs_floor. rewrite Hrms. cbv zeta.
  now rewrite clamp_floor.
Qed.

(** C34: an infinite sample of either sign in a chunk without NaN makes
    the RMS [+inf] (spec 4.1): its square is [+inf], which no other
    square can cancel, and [+inf / n] and its square root stay [+inf]. *)
Theorem inf_chunk_rms (chunk : list binary32) :
  (exists s, In (S754_infinity s) chunk) ->
  forallb (fun x => negb (is_nan x)) chunk = true -> (Z.of_nat (length chunk) < 2 ^ 53)%Z ->
  calculate_rms chunk = S754_infinity false.
Proof.
  intros [s Hin] Hn Hlen. destruct chunk as [|x xs]; [destruct Hin|].
  destruct (squares_no_nan _ Hn) as [Hs1 Hs2].
  rewrite calculate_rms_cons. unfold f64_sum.
  cbn [f64_to_f32 f64_sqrt f64_div usize_to_f64 f64_add f64_neg_zero ieee_arith].
  destruct (usize_as_f64_exact (S (length xs))) as (m & e & -> & _); [lia | exact Hlen|].
  rewrite fold_SFadd_inf; try assumption; try reflexivity.
  apply in_map_iff. exists (S754_infinity s). split; [|exact Hin]. now destruct s.
Qed.

End WithLibm.

(** ** Concrete instances

    [log10f_sample] stands in for libm to evaluate the theorems on
    concrete inputs: it returns [k] on the binary32 literal [1ek] for
    [-45 <= k <= 38], as a correctly rounded [log10f] does, and NaN
    elsewhere.  No theorem above depends on it. *)
Definition log10f_sample (x : binary32) : binary32 :=
  match find (fun k => SFeqb x (sf_of_decimal prec32 emax32 1 k))
             (map (fun i => Z.of_nat i - 45)%Z (seq 0 84)) with
  | Some k => f32_of_Z k
  | None => S754_nan
  end.

Definition ieee_sample : PcmArith binary32 binary64 := ieee_arith log10f_sample.
#[local] Existing Instance ieee_sample.

Lemma dbfs_floor_uniform_witness :
  (is_nan (S754_zero true) || SFleb (S754_zero true) min_rms32) = true /\
  rms_to_dbfs (S754_zero true) = dbfs_floor.
Proof.
  split; [vm_compute; reflexivity|].
  apply (dbfs_floor_uniform log10f_sample (S754_zero true)). vm_compute. reflexivity.
Defined.

Lemma silent_chunk_floor_witness :
  (Z.of_nat (length [S754_zero false; S754_zero true]) < 2 ^ 53)%Z /\
  calculate_rms [S754_zero false; S754_zero true] = S754_zero false /\
  chunk_dbfs [S754_zero false; S754_zero true] = dbfs_floor.
Proof.
  split; [vm_compute; reflexivity|].
  apply (silent_chunk_floor log10f_sample [S754_zero false; S754_zero true]);
    [discriminate | vm_compute; reflexivity | reflexivity].
Defined.

Lemma calculate_rms_not_nan_witness :
  forallb (fun x => negb (is_nan x)) [f32_of_Z 3; S754_infinity false] = true /\
  (Z.of_nat (length [f32_of_Z 3; S754_infinity false]) < 2 ^ 53)%Z /\
  is_nan (calculate_rms [f32_of_Z 3; S754_infinity false]) = false.
Proof.
  split; [reflexivity|]. split; [vm_compute; reflexivity|].
  apply (calculate_rms_not_nan log10f_sample); [reflexivity | vm_compute; reflexivity].
Defined.

Lemma nan_chunk_floor_witness :
  In S754_nan [f32_of_Z 1; S754_nan] /\
  calculate_rms [f32_of_Z 1; S754_nan] = S754_nan /\ chunk_dbfs [f32_of_Z 1; S754_nan] = dbfs_floor.
Proof.
  assert (H : In S754_nan [f32_of_Z 1; S754_nan]) by (simpl; auto).
  split; [exact H | exact (nan_chunk_floor log10f_sample _ H)].
Defined.

Lemma inf_chunk_rms_witness :
  (exists s, In (S754_infinity s) [f32_of_Z 1; S754_infinity true]) /\
  forallb (fun x => negb (is_nan x)) [f32_of_Z 1; S754_infinity true] = true /\
  (Z.of_nat (length [f32_of_Z 1; S754_infinity true]) < 2 ^ 53)%Z /\
  calculate_rms [f32_of_Z 1; S754_infinity true] = S754_infinity false.
Proof.
  assert (H1 : exists s, In (S754_infinity s) [f32_of_Z 1; S754_infinity true])
    by (exists true; simpl; auto).
  assert (H2 : forallb (fun x => negb (is_nan x)) [f32_of_Z 1; S754_infinity true] = true)
    by (vm_compute; reflexivity).
  assert (H3 : (Z.of_nat (length [f32_of_Z 1; S754_infinity true]) < 2 ^ 53)%Z)
    by (vm_compute; reflexivity).
  split; [exact H1|]. split; [exact H2|]. split; [exact H3|].
  exact (inf_chunk_rms log10f_sample _ H1 H2 H3).
Defined.
