(* ===== verification/Exact.v ===== *)
(** * Exact IEEE computations of the RMS reducer

    On a chunk whose samples all have one magnitude [m * 2^e], every
    step of [calculate_rms] (lib.rs 34-38) is exact in the IEEE
    instance when [n * a^2 < 2^53], [a] the odd part of [m].
    [sample as f64] is exact, and the f64 square is exactly
    [m^2 * 2^(2 e) = a^2 * 2^(2 (e + t))].  The sum of [n] such
    squares from [-0.0] is the integer [n * a^2] at that scale, with no
    rounding ([SFadd_f64_of], [fold_SFadd_f64_of]).  The division by
    [n as f64] gives back [a^2 * 2^(2 (e + t))] ([SFdiv_f64_of]).  The
    square root of the realigned square is exact, and [as f32] undoes
    the widening.  So the RMS is exactly the magnitude; a one-sample
    chunk has RMS [|x|] for every binary32 [x].  [f64_of N E] is the f64
    nearest [N * 2^E]; the lemmas follow the mantissas through [SFadd],
    [SFmul], [SFdiv] and [SFsqrt] of [SpecFloat] with the shift lemmas
    of [Binary]. *)

From Stdlib Require Import List ZArith Lia Bool.
From Stdlib Require Import Floats.SpecFloat.
From S2P Require Import Prelude Level Binary Ieee.
Import ListNotations.

(** [|x|]: the sign bit cleared. *)
Definition sf_abs (x : spec_float) : spec_float :=
  match x with
  | S754_zero _ => S754_zero false
  | S754_infinity _ => S754_infinity false
  | S754_nan => S754_nan
  | S754_finite _ m e => S754_finite false m e
  end.

(** The odd part of a mantissa, and its number of trailing zero bits. *)
Fixpoint odd_part (p : positive) : positive :=
  match p with xO q => odd_part q | _ => p end.

Fixpoint trailing_zeros (p : positive) : nat :=
  match p with xO q => S (trailing_zeros q) | _ => 0 end.

(** The f64 value nearest to the integer [N] times [2^E]. *)
Definition f64_of (N E : Z) : binary64 := binary_normalize prec64 emax64 N E false.

(** ** Lemmas *)

(** A square has twice the digits, or one fewer. *)
Lemma digits2_pos_square m :
  (2 * Zpos (digits2_pos m) - 1 <= Zpos (digits2_pos (m * m)) <= 2 * Zpos (digits2_pos m))%Z.
Proof.
  rewrite !digits2_pos_log2, Pos2Z.inj_mul.
  pose proof (Z.log2_mul_below (Zpos m) (Zpos m) ltac:(lia) ltac:(lia)).
  pose proof (Z.log2_mul_above (Zpos m) (Zpos m) ltac:(lia) ltac:(lia)).
  lia.
Qed.

(** [m^2] shifted onto 53 bits has 53 digits. *)
Lemma square_mantissa_digits m q :
  Zpos q = (Zpos (m * m) * 2 ^ (53 - Zpos (digits2_pos (m * m))))%Z ->
  (Zpos (digits2_pos (m * m)) <= 53)%Z -> Zpos (digits2_pos q) = 53%Z.
Proof.
  intros Hq Hle. rewrite digits2_pos_log2, Hq, Z.log2_mul_pow2 by lia.
  pose proof (digits2_pos_log2 (m * m)). lia.
Qed.

(** The square of a widened binary32 value [m * 2^e] is exact in f64:
    [m^2] on 53 bits, at the exponent that makes the value
    [m^2 * 2^(2 e)]. *)
Lemma SFmul_widened_square s m e p :
  (Zpos (digits2_pos m) + Zpos p = 53)%Z -> (-149 <= e <= 104)%Z ->
  (Zpos (digits2_pos m) <= 24)%Z ->
  exists q,
    SFmul prec64 emax64 (S754_finite s (Pos.iter xO m p) (e - Zpos p))
                        (S754_finite s (Pos.iter xO m p) (e - Zpos p)) =
      S754_finite false q (2 * e - 53 + Zpos (digits2_pos (m * m))) /\
    Zpos q = (Zpos (m * m) * 2 ^ (53 - Zpos (digits2_pos (m * m))))%Z.
Proof.
  intros Hp He Hd. pose proof (digits2_pos_square m) as Hsq.
  set (D2 := Zpos (digits2_pos (m * m))) in *.
  set (q := Pos.iter xO (m * m)%positive (Z.to_pos (53 - D2))).
  assert (Hq : Zpos q = (Zpos (m * m) * 2 ^ (53 - D2))%Z)
    by (unfold q; rewrite Zpos_iter_xO, Z2Pos.id by lia; reflexivity).
  assert (Hdq : Zpos (digits2_pos q) = 53%Z)
    by (unfold q; rewrite digits2_pos_iter_xO, Pos2Z.inj_add, Z2Pos.id by lia; lia).
  exists q. split; [|exact Hq].
  cbn [SFmul]. rewrite xorb_nilpotent.
  set (j := Z.to_pos (2 * Zpos p - (53 - D2))).
  assert (Hj : Zpos j = (2 * Zpos p - (53 - D2))%Z) by (unfold j; rewrite Z2Pos.id; lia).
  assert (Hm : (Pos.iter xO m p * Pos.iter xO m p)%positive = Pos.iter xO q j).
  { apply Pos2Z.inj. rewrite Pos2Z.inj_mul, !Zpos_iter_xO, Hq, Hj, Pos2Z.inj_mul.
    assert (HP : (2 ^ Zpos p * 2 ^ Zpos p = 2 ^ (53 - D2) * 2 ^ (2 * Zpos p - (53 - D2)))%Z)
      by (rewrite <- !Z.pow_add_r by lia; f_equal; lia).
    transitivity (Zpos m * Zpos m * (2 ^ Zpos p * 2 ^ Zpos p))%Z; [ring|]. rewrite HP. ring. }
  rewrite Hm.
  replace (e - Zpos p + (e - Zpos p))%Z with ((2 * e - 53 + D2) - Zpos j)%Z by lia.
  apply binary_round_aux_shifted; [rewrite Hdq|]; unfold fexp, emin, prec64, emax64; lia.
Qed.

(** Dividing a canonical f64 value by [1usize as f64] is exact. *)
Lemma SFdiv_one64 q f :
  Zpos (digits2_pos q) = 53%Z -> (-1073 <= f <= 971)%Z ->
  SFdiv prec64 emax64 (S754_finite false q f) (usize_as_f64 1) = S754_finite false q f.
Proof.
  intros Hq Hf.
  replace (usize_as_f64 1) with (S754_finite false (Pos.iter xO 1%positive 52) (-52))
    by (vm_compute; reflexivity).
  cbn [SFdiv xorb]. unfold SFdiv_core_binary. cbn [Zdigits2]. rewrite Hq.
  rewrite digits2_pos_iter_xO.
  change (Zpos (digits2_pos 1%positive + 52)) with 53%Z.
  replace (Z.min (fexp prec64 emax64 (53 + f - (53 + -52))) (f - -52))%Z with (f - 1)%Z
    by (unfold fexp, emin, prec64, emax64; lia).
  replace (f - -52 - (f - 1))%Z with 53%Z by lia.
  rewrite Z.shiftl_mul_pow2 by lia. rewrite Zpos_iter_xO.
  assert (E : Z.div_eucl (Zpos q * 2 ^ 53) (1 * 2 ^ 52) = (2 * Zpos q, 0)%Z).
  { transitivity ((Zpos q * 2 ^ 53) / (1 * 2 ^ 52), (Zpos q * 2 ^ 53) mod (1 * 2 ^ 52))%Z.
    - unfold Z.div, Z.modulo. now destruct (Z.div_eucl _ _).
    - change (2 ^ 53)%Z with (2 * 2 ^ 52)%Z.
      rewrite Z.mul_1_l, Z.mul_assoc, Z.div_mul, Z.mod_mul by lia. f_equal. lia. }
  rewrite E. change (new_location (1 * 2 ^ 52) 0) with loc_Exact.
  change (2 * Zpos q)%Z with (Zpos (Pos.iter xO q 1%positive)).
  replace (f - 1)%Z with (f - Zpos 1%positive)%Z by lia.
  apply binary_round_aux_shifted; [rewrite Hq|]; unfold fexp, emin, prec64, emax64; lia.
Qed.

Lemma sqrtrem_square (a : Z) : (0 <= a)%Z -> Z.sqrtrem (a * a) = (a, 0)%Z.
Proof.
  intros Ha. pose proof (Z.sqrtrem_spec (a * a) ltac:(nia)) as Hs.
  pose proof (Z.sqrtrem_sqrt (a * a)) as Hf. rewrite Z.sqrt_square in Hf by exact Ha.
  destruct (Z.sqrtrem (a * a)) as [r rem]. simpl in Hf. subst r. f_equal. nia.
Qed.

(** The square root of the exact square of a widened binary32 value is
    exact: the mantissa realigned by [SFsqrt] is [(m * 2^p)^2]. *)
Lemma SFsqrt_widened_square m e p q :
  (Zpos (digits2_pos m) + Zpos p = 53)%Z -> (-149 <= e <= 104)%Z ->
  (Zpos (digits2_pos m) <= 24)%Z ->
  Zpos q = (Zpos (m * m) * 2 ^ (53 - Zpos (digits2_pos (m * m))))%Z ->
  SFsqrt prec64 emax64 (S754_finite false q (2 * e - 53 + Zpos (digits2_pos (m * m)))) =
    S754_finite false (Pos.iter xO m p) (e - Zpos p).
Proof.
  intros Hp He Hd Hq. pose proof (digits2_pos_square m) as Hsq.
  set (d := Zpos (digits2_pos m)) in *. set (D2 := Zpos (digits2_pos (m * m))) in *.
  assert (Hdq : Zpos (digits2_pos q) = 53%Z) by (apply (square_mantissa_digits m); [exact Hq | lia]).
  cbn [SFsqrt]. unfold SFsqrt_core_binary. cbn [Zdigits2]. rewrite Hdq.
  assert (Hdiv1 : Z.div2 (53 + (2 * e - 53 + D2) + 1) = (e + d)%Z)
    by (rewrite Z.div2_div; symmetry; apply Z.div_unique with (r := (D2 + 1 - 2 * d)%Z); lia).
  assert (Hdiv2 : Z.div2 (2 * e - 53 + D2) = (e + d - 27)%Z)
    by (rewrite Z.div2_div; symmetry; apply Z.div_unique with (r := (D2 + 1 - 2 * d)%Z); lia).
  rewrite Hdiv1, Hdiv2.
  replace (Z.min (fexp prec64 emax64 (e + d)) (e + d - 27))%Z with (e - Zpos p)%Z
    by (unfold fexp, emin, prec64, emax64; lia).
  set (sh := (2 * e - 53 + D2 - 2 * (e - Zpos p))%Z).
  assert (Hsh : (0 < sh)%Z) by (unfold sh; lia).
  destruct sh as [|sp|sp] eqn:Esh; [lia | | lia].
  rewrite <- Esh, Z.shiftl_mul_pow2 by lia.
  assert (Hsqr : (Zpos q * 2 ^ sh = Zpos (Pos.iter xO m p) * Zpos (Pos.iter xO m p))%Z).
  { rewrite Hq, !Zpos_iter_xO, Pos2Z.inj_mul.
    assert (HP : (2 ^ (53 - D2) * 2 ^ sh = 2 ^ Zpos p * 2 ^ Zpos p)%Z)
      by (rewrite <- !Z.pow_add_r by lia; f_equal; unfold sh; lia).
    transitivity (Zpos m * Zpos m * (2 ^ (53 - D2) * 2 ^ sh))%Z; [ring|]. rewrite HP. ring. }
  rewrite Hsqr, sqrtrem_square by lia. cbn [Z.eqb].
  apply binary_round_aux_canonical;
    rewrite ?digits2_pos_iter_xO, ?Pos2Z.inj_add; unfold fexp, emin, prec64, emax64; lia.
Qed.

Lemma odd_part_spec p :
  Pos.iter xO (odd_part p) (Pos.of_succ_nat (trailing_zeros p)) = xO p.
Proof.
  induction p as [p _|p IH|]; cbn [odd_part trailing_zeros]; [reflexivity | | reflexivity].
  change (Pos.of_succ_nat (S (trailing_zeros p))) with (Pos.succ (Pos.of_succ_nat (trailing_zeros p))).
  rewrite Pos.iter_succ, IH. reflexivity.
Qed.

Lemma odd_part_value p :
  Zpos p = (Zpos (odd_part p) * 2 ^ Z.of_nat (trailing_zeros p))%Z.
Proof.
  pose proof (f_equal Zpos (odd_part_spec p)) as H.
  rewrite Zpos_iter_xO, Zpos_P_of_succ_nat, Z.pow_succ_r in H by lia.
  change (Zpos (xO p)) with (2 * Zpos p)%Z in H. lia.
Qed.

Lemma f64_of_pos N E : f64_of (Zpos N) E = binary_round prec64 emax64 false N E.
Proof. reflexivity. Qed.

(** An integer below [2^53] at a moderate scale is represented exactly:
    [N] shifted onto 53 bits. *)
Lemma f64_of_exact N E :
  (0 < N < 2 ^ 53)%Z -> (-1000 <= E <= 971)%Z ->
  exists M, f64_of N E = S754_finite false M (Z.log2 N + 1 + E - 53) /\
            Zpos M = (N * 2 ^ (53 - (Z.log2 N + 1)))%Z.
Proof.
  intros HN HE. destruct N as [|n|n]; try lia.
  pose proof (digits2_pos_le n 53 (proj2 HN)) as Hd. rewrite f64_of_pos.
  destruct (binary_round_exact prec64 emax64 false n E Hd
              ltac:(unfold emin, prec64, emax64; lia)
              ltac:(unfold fexp, emin, prec64, emax64; lia)) as (M & Hr & HM).
  rewrite digits2_pos_log2 in *. exists M.
  replace (fexp prec64 emax64 (Z.log2 (Zpos n) + 1 + E)) with (Z.log2 (Zpos n) + 1 + E - 53)%Z
    in * by (unfold fexp, emin, prec64, emax64; pose proof (Z.log2_nonneg (Zpos n)); lia).
  split; [exact Hr|]. rewrite HM. f_equal. f_equal. lia.
Qed.

(** Adding two positive integers at the same scale, whose sum is below
    [2^53], is exact in f64. *)
Lemma SFadd_f64_of A B E :
  (0 < A)%Z -> (0 < B)%Z -> (A + B < 2 ^ 53)%Z -> (-1000 <= E <= 971)%Z ->
  SFadd prec64 emax64 (f64_of A E) (f64_of B E) = f64_of (A + B) E.
Proof.
  intros HA HB HAB HE.
  destruct (f64_of_exact A E ltac:(lia) HE) as (ma & Ea & Hma).
  destruct (f64_of_exact B E ltac:(lia) HE) as (mb & Eb & Hmb).
  pose proof (Z.log2_le_mono A (A + B) ltac:(lia)). pose proof (Z.log2_le_mono B (A + B) ltac:(lia)).
  pose proof (Z.log2_lt_pow2 A 53 ltac:(lia)). pose proof (Z.log2_lt_pow2 B 53 ltac:(lia)).
  pose proof (Z.log2_lt_pow2 (A + B) 53 ltac:(lia)).
  apply Z.log2_lt_pow2 in HAB; [|lia].
  rewrite Ea, Eb. cbn [SFadd cond_Zopp].
  set (ea := (Z.log2 A + 1 + E - 53)%Z) in *. set (eb := (Z.log2 B + 1 + E - 53)%Z) in *.
  set (ez := Z.min ea eb).
  rewrite (shl_align_value ma ea), (shl_align_value mb eb) by lia.
  replace (Zpos ma * 2 ^ (ea - ez) + Zpos mb * 2 ^ (eb - ez))%Z
    with ((A + B) * 2 ^ (E - ez))%Z.
  2:{ rewrite Hma, Hmb, <- !Z.mul_assoc, <- !Z.pow_add_r by (unfold ea, eb, ez in *; lia).
      replace (53 - (Z.log2 A + 1) + (ea - ez))%Z with (E - ez)%Z by (unfold ea; lia).
      replace (53 - (Z.log2 B + 1) + (eb - ez))%Z with (E - ez)%Z by (unfold eb; lia). lia. }
  destruct (A + B)%Z as [|q|q] eqn:Eq; try lia.
  assert (Hez : (ez <= E)%Z) by (unfold ez, ea, eb; lia).
  unfold f64_of. destruct (Z.eq_dec ez E) as [E0|E0].
  - rewrite E0, Z.sub_diag, Z.mul_1_r. reflexivity.
  - replace ez with (E - Zpos (Z.to_pos (E - ez)))%Z at 2 by lia.
    replace (E - ez)%Z with (Zpos (Z.to_pos (E - ez))) by lia.
    rewrite <- Zpos_iter_xO. cbn [binary_normalize].
    pose proof (digits2_pos_le q 53 ltac:(lia)) as Hd.
    apply binary_round_trailing; unfold fexp, emin, prec64, emax64; lia.
Qed.

(** Adding [k] more copies of [X * 2^E] to [j] copies is exact while
    the count times [X] stays below [2^53]. *)
Lemma fold_SFadd_f64_of X E j k :
  (0 < X)%Z -> 0 < j -> (Z.of_nat (j + k) * X < 2 ^ 53)%Z -> (-1000 <= E <= 971)%Z ->
  fold_left (SFadd prec64 emax64) (repeat (f64_of X E) k) (f64_of (Z.of_nat j * X) E) =
    f64_of (Z.of_nat (j + k) * X) E.
Proof.
  intros HX. revert j; induction k as [|k IH]; intros j Hj Hk HE; simpl.
  - now rewrite Nat.add_0_r.
  - rewrite SFadd_f64_of by nia.
    replace (Z.of_nat j * X + X)%Z with (Z.of_nat (S j) * X)%Z by lia.
    rewrite IH by (try lia; rewrite Nat.add_succ_comm in Hk; exact Hk).
    now rewrite Nat.add_succ_comm.
Qed.

(** [n as f64] is [n] at scale 0. *)
Lemma usize_as_f64_of n : usize_as_f64 n = f64_of (Z.of_nat n) 0.
Proof. reflexivity. Qed.

Lemma div_eucl_exact (a b : Z) : (0 < b)%Z -> Z.div_eucl (a * b) b = (a, 0)%Z.
Proof.
  intros Hb. transitivity ((a * b) / b, (a * b) mod b)%Z.
  - unfold Z.div, Z.modulo. now destruct (Z.div_eucl _ _).
  - rewrite Z.div_mul, Z.mod_mul by lia. reflexivity.
Qed.

(** Dividing [n] copies of [X * 2^E] by [n as f64] is exact: the
    quotient is [X * 2^E] again. *)
Lemma SFdiv_f64_of X E n :
  (0 < X)%Z -> 0 < n -> (Z.of_nat n * X < 2 ^ 53)%Z -> (-1000 <= E <= 971)%Z ->
  SFdiv prec64 emax64 (f64_of (Z.of_nat n * X) E) (usize_as_f64 n) = f64_of X E.
Proof.
  intros HX Hn HnX HE. rewrite usize_as_f64_of.
  destruct (f64_of_exact (Z.of_nat n * X) E ltac:(nia) HE) as (M1 & E1 & HM1).
  destruct (f64_of_exact (Z.of_nat n) 0 ltac:(nia) ltac:(lia)) as (M2 & E2 & HM2).
  rewrite E1, E2. cbn [SFdiv xorb]. unfold SFdiv_core_binary.
  set (L1 := (Z.log2 (Z.of_nat n * X) + 1)%Z) in *.
  set (L2 := (Z.log2 (Z.of_nat n) + 1)%Z) in *.
  pose proof (Z.log2_lt_pow2 (Z.of_nat n * X) 53 ltac:(nia)).
  pose proof (Z.log2_le_mono (Z.of_nat n) (Z.of_nat n * X) ltac:(nia)).
  pose proof (Z.log2_mul_above (Z.of_nat n) X ltac:(lia) ltac:(lia)).
  pose proof (Z.log2_nonneg (Z.of_nat n)). pose proof (Z.log2_nonneg X).
  assert (D1 : Zdigits2 (Zpos M1) = 53%Z).
  { cbn [Zdigits2]. rewrite digits2_pos_log2, HM1, Z.log2_mul_pow2 by lia. lia. }
  assert (D2 : Zdigits2 (Zpos M2) = 53%Z).
  { cbn [Zdigits2]. rewrite digits2_pos_log2, HM2, Z.log2_mul_pow2 by lia. lia. }
  rewrite D1, D2.
  replace (Z.min (fexp prec64 emax64 (53 + (L1 + E - 53) - (53 + (L2 + 0 - 53))))
                 (L1 + E - 53 - (L2 + 0 - 53)))%Z with (L1 + E - L2 - 53)%Z
    by (unfold fexp, emin, prec64, emax64; lia).
  replace (L1 + E - 53 - (L2 + 0 - 53) - (L1 + E - L2 - 53))%Z with 53%Z by lia.
  rewrite Z.shiftl_mul_pow2 by lia.
  destruct X as [|x|x]; try lia.
  set (j := Z.to_pos (53 - L1 + L2)).
  assert (Hj : Zpos j = (53 - L1 + L2)%Z) by (apply Z2Pos.id; lia).
  replace (Zpos M1 * 2 ^ 53)%Z with (Zpos (Pos.iter xO x j) * Zpos M2)%Z.
  2:{ rewrite Zpos_iter_xO, HM1, HM2, Hj.
      replace (2 ^ (53 - L1 + L2))%Z with (2 ^ (53 - L1) * 2 ^ L2)%Z
        by (rewrite <- Z.pow_add_r by lia; f_equal; lia).
      replace (2 ^ 53)%Z with (2 ^ L2 * 2 ^ (53 - L2))%Z
        by (rewrite <- Z.pow_add_r by lia; f_equal; lia).
      ring. }
  rewrite div_eucl_exact by lia.
  replace (new_location (Zpos M2) 0) with loc_Exact
    by (unfold new_location; now destruct (Z.even _)).
  replace (L1 + E - L2 - 53)%Z with (E - Zpos j)%Z by lia.
  rewrite binary_round_aux_unshifted.
  - rewrite f64_of_pos. pose proof (digits2_pos_le x 53 ltac:(nia)).
    apply binary_round_trailing; unfold fexp, emin, prec64, emax64; lia.
  - rewrite digits2_pos_iter_xO, Pos2Z.inj_add, digits2_pos_log2.
    unfold fexp, emin, prec64, emax64. lia.
Qed.

(** Trailing zero bits of the integer can move into the exponent. *)
Lemma f64_of_scale N k E :
  (0 < N < 2 ^ 53)%Z -> (0 <= k)%Z -> (-1000 <= E <= 971)%Z ->
  f64_of (N * 2 ^ k) (E - k) = f64_of N E.
Proof.
  intros HN Hk HE. destruct k as [|j|j]; [now rewrite Z.mul_1_r, Z.sub_0_r | | lia].
  destruct N as [|n|n]; try lia.
  rewrite <- Zpos_iter_xO, !f64_of_pos. pose proof (digits2_pos_le n 53 ltac:(lia)).
  apply binary_round_trailing; unfold fexp, emin, prec64, emax64; lia.
Qed.

Lemma pos_lt_digits p : (Zpos p < 2 ^ Zpos (digits2_pos p))%Z.
Proof. rewrite digits2_pos_log2. apply Z.log2_spec. lia. Qed.

(** A binary32 mantissa of at most 24 bits: below [2^24], fewer than
    24 trailing zeros, and its odd part no larger. *)
Lemma mantissa24_bounds m :
  (Zpos (digits2_pos m) <= 24)%Z ->
  (Zpos m < 2 ^ 24)%Z /\ (Z.of_nat (trailing_zeros m) < 24)%Z /\ (Zpos (odd_part m) <= Zpos m)%Z.
Proof.
  intros Hd. pose proof (odd_part_value m) as Hm. pose proof (pos_lt_digits m).
  pose proof (Z.pow_pos_nonneg 2 (Z.of_nat (trailing_zeros m)) ltac:(lia)).
  assert (Hm24 : (Zpos m < 2 ^ 24)%Z)
    by (apply Z.lt_le_trans with (1 := H); apply Z.pow_le_mono_r; lia).
  split; [exact Hm24|]. split; [|nia].
  destruct (Z.lt_ge_cases (Z.of_nat (trailing_zeros m)) 24) as [|Hge]; [lia|].
  pose proof (Z.pow_le_mono_r 2 24 _ ltac:(lia) Hge). nia.
Qed.

(** The exact square [m^2 * 2^(2 e)] of a binary32 magnitude, as
    [f64_of] builds it: [m^2] on 53 bits. *)
Lemma f64_of_square m e :
  (-149 <= e <= 104)%Z -> (Zpos (digits2_pos m) <= 24)%Z ->
  exists q, f64_of (Zpos (m * m)) (2 * e) =
              S754_finite false q (2 * e - 53 + Zpos (digits2_pos (m * m))) /\
            Zpos q = (Zpos (m * m) * 2 ^ (53 - Zpos (digits2_pos (m * m))))%Z.
Proof.
  intros He Hd. pose proof (digits2_pos_square m). pose proof (pos_lt_digits (m * m)).
  assert (Zpos (m * m) < 2 ^ 53)%Z
    by (apply Z.lt_le_trans with (1 := H0); apply Z.pow_le_mono_r; lia).
  destruct (f64_of_exact (Zpos (m * m)) (2 * e) ltac:(lia) ltac:(lia)) as (M & EM & HM).
  rewrite <- digits2_pos_log2 in EM, HM. exists M. split; [rewrite EM; f_equal; lia | exact HM].
Qed.

(** The same square, with the mantissa reduced to its odd part [a]:
    [m = a * 2^t] and [m^2 * 2^(2 e) = a^2 * 2^(2 (e + t))]. *)
Lemma f64_of_odd_square m e :
  (-149 <= e <= 104)%Z -> (Zpos (digits2_pos m) <= 24)%Z ->
  f64_of (Zpos (m * m)) (2 * e) =
    f64_of (Zpos (odd_part m * odd_part m)) (2 * (e + Z.of_nat (trailing_zeros m))).
Proof.
  intros He Hd. pose proof (odd_part_value m) as Hm.
  destruct (mantissa24_bounds m Hd) as (Hm24 & Ht24 & Ha).
  set (a := odd_part m) in *. set (t := Z.of_nat (trailing_zeros m)) in *.
  rewrite <- (f64_of_scale (Zpos (a * a)) (2 * t)) by (unfold t in *; nia).
  f_equal; [|lia]. replace (2 * t)%Z with (t + t)%Z by lia.
  rewrite !Pos2Z.inj_mul, Hm, Z.pow_add_r by lia. ring.
Qed.

Section WithLibm.
Variable log10f : binary32 -> binary32.
#[local] Instance ieee_exact : PcmArith binary32 binary64 := ieee_arith log10f.

(** The f64 square of line 34 of a finite binary32 sample [+-m * 2^e]
    is exactly [m^2 * 2^(2 e)]. *)
Lemma square_f64_finite s m e :
  valid_binary prec32 emax32 (S754_finite s m e) = true ->
  square_f64 (S754_finite s m e) = f64_of (Zpos (m * m)) (2 * e).
Proof.
  intros Hv. destruct (f32_to_f64_exact s m e Hv) as (p & Hw & Hp).
  destruct (valid_binary32_bounds s m e Hv) as (_ & Hd & He).
  destruct (SFmul_widened_square s m e p Hp He Hd) as (q & Hsq & Hq).
  destruct (f64_of_square m e He Hd) as (q' & Hsq' & Hq').
  unfold square_f64. cbn [f32_to_f64 f64_mul ieee_exact ieee_arith].
  rewrite Hw, Hsq, Hsq'. do 2 f_equal. apply Pos2Z.inj. now rewrite Hq, Hq'.
Qed.

(** Lines 37-38 on an exact square: the square root and [as f32] give
    back the magnitude [m * 2^e]. *)
Lemma sqrt_square_f64 s m e :
  valid_binary prec32 emax32 (S754_finite s m e) = true ->
  f64_to_f32 (f64_sqrt (f64_of (Zpos (m * m)) (2 * e))) = S754_finite false m e.
Proof.
  intros Hv. destruct (f32_to_f64_exact s m e Hv) as (p & _ & Hp).
  destruct (valid_binary32_bounds s m e Hv) as (Hc & Hd & He).
  destruct (f64_of_square m e He Hd) as (q & -> & Hq).
  cbn [f64_to_f32 f64_sqrt ieee_exact ieee_arith].
  rewrite (SFsqrt_widened_square m e p q Hp He Hd Hq).
  cbn [sf_convert cond_Zopp binary_normalize].
  apply binary_round_shifted; [exact Hc | unfold emax32, prec32; lia].
Qed.

(** Spec 8, without tolerance: a chunk of [n] samples of one magnitude
    [|x| = m * 2^e] has RMS exactly [m * 2^e] when [n * a^2 < 2^53],
    [a] the odd part of [m].  Every square is [a^2 * 2^(2 (e + t))],
    their sum [n a^2] at that scale has no rounding, the division by
    [n as f64] is exact, and the square root undoes the square. *)
Lemma constant_magnitude_rms (chunk : list binary32) m e :
  valid_binary prec32 emax32 (S754_finite false m e) = true -> chunk <> [] ->
  Forall (fun y => sf_abs y = S754_finite false m e) chunk ->
  (Z.of_nat (length chunk) * Zpos (odd_part m) * Zpos (odd_part m) < 2 ^ 53)%Z ->
  calculate_rms chunk = S754_finite false m e.
Proof.
  intros Hv Hne Hall Hn. destruct (valid_binary32_bounds false m e Hv) as (_ & Hd & He).
  set (X := Zpos (odd_part m * odd_part m)).
  set (E := (2 * (e + Z.of_nat (trailing_zeros m)))%Z).
  assert (HE : (-1000 <= E <= 971)%Z)
    by (destruct (mantissa24_bounds m Hd) as (_ & Ht & _); unfold E; lia).
  assert (Hsq : map square_f64 chunk = repeat (f64_of X E) (length chunk)).
  { apply map_Forall_const. eapply Forall_impl; [|exact Hall]. intros [s|s| |s m' e'] Hy;
      try discriminate Hy. injection Hy as <- <-.
    rewrite square_f64_finite by exact Hv. now apply f64_of_odd_square. }
  destruct chunk as [|y ys]; [congruence|]. rewrite calculate_rms_cons. unfold f64_sum.
  rewrite Hsq. cbn [length repeat fold_left f64_add f64_neg_zero f64_div usize_to_f64
                    ieee_exact ieee_arith].
  assert (HX : (0 < X)%Z) by (unfold X; lia).
  destruct (f64_of_exact X E ltac:(simpl length in Hn; unfold X; lia) HE) as (M & EM & _).
  replace (SFadd prec64 emax64 (S754_zero true) (f64_of X E)) with (f64_of (Z.of_nat 1 * X) E)
    by (rewrite Z.mul_1_l, EM; reflexivity).
  rewrite fold_SFadd_f64_of, SFdiv_f64_of by (simpl length in Hn; lia).
  unfold X, E. rewrite <- f64_of_odd_square by assumption.
  exact (sqrt_square_f64 false m e Hv).
Qed.

(** The RMS of a one-sample chunk is exactly the absolute value of the
    sample, for every binary32 value: the square, the sum, the division
    by [1.0], the square root and the narrowing of lines 34-38 are all
    exact.  Zeros and infinities keep their magnitude and NaN stays
    NaN. *)
Lemma single_sample_rms (x : binary32) :
  valid_binary prec32 emax32 x = true -> calculate_rms [x] = sf_abs x.
Proof.
  destruct x as [s|s| |s m e]; intros Hv;
    [destruct s; vm_compute; reflexivity .. | reflexivity |].
  apply constant_magnitude_rms; [exact Hv | discriminate | now constructor |].
  destruct (valid_binary32_bounds s m e Hv) as (_ & Hd & _).
  destruct (mantissa24_bounds m Hd) as (Hm & _ & Ha). cbn [length]. nia.
Qed.
End WithLibm.
