(* ===== verification/Accumulator.v ===== *)
(** * No overflow in the f64 accumulator (spec 4.1)

    Spec 4.1 asks for the sum of squares to be accumulated in double
    precision "to avoid precision loss and overflow".  Line 34 of lib.rs
    does so: each sample is widened to f64 before it is squared, and the
    squares are summed in f64.  This file proves that the accumulator
    cannot overflow.  A binary32 magnitude is below [2^128], so its f64
    square is at most [2^256].  Rounding never overshoots a representable
    bound ([Rounding.binary_round_bound]), so after [k] additions the
    running sum is [+0] or a finite double of at most [k * 2^256].  For
    any chunk of finite samples, of any length below [2^53], the sum is
    therefore a finite double, far below the f64 overflow threshold
    [2^1024].  (In f32, the square of one sample of magnitude [2^64]
    would already be [+inf].)  Values are compared in units of [2^-1074],
    the smallest f64 exponent. *)

From Stdlib Require Import List ZArith Lia Bool.
From Stdlib Require Import Floats.SpecFloat.
From S2P Require Import Prelude Level Binary Rounding Ieee Exact.
Import ListNotations.

(** [x] is [+-0], or a positive finite f64 of at most [K * 2^F] with
    exponent at most [F]. *)
Definition f64_at_most (x : binary64) (K F : Z) : Prop :=
  match x with
  | S754_zero _ => True
  | S754_finite false m e =>
      (-1074 <= e <= F)%Z /\ (Zpos m * 2 ^ (e + 1074) <= K * 2 ^ (F + 1074))%Z
  | _ => False
  end.

(** ** Lemmas *)

Lemma f64_at_most_finite x K F : f64_at_most x K F -> is_finite x = true.
Proof. destruct x as [| | |[]]; cbn; tauto. Qed.

Lemma f64_at_most_mono x K K' F : (K <= K')%Z -> f64_at_most x K F -> f64_at_most x K' F.
Proof.
  intros HK. destruct x as [| | |[] m e]; cbn; try tauto.
  intros [He Hm]. split; [exact He|].
  pose proof (Z.pow_pos_nonneg 2 (F + 1074) ltac:(lia) ltac:(lia)). nia.
Qed.

(** The f64 sum of two values within bounds is within the sum of the
    bounds, as long as that stays below [2^53] units. *)
Lemma SFadd_at_most x y Kx Ky F :
  (0 <= Kx)%Z -> (0 <= Ky)%Z -> (Kx + Ky < 2 ^ 53)%Z -> (-1074 <= F <= 971)%Z ->
  f64_at_most x Kx F -> f64_at_most y Ky F ->
  f64_at_most (SFadd prec64 emax64 x y) (Kx + Ky) F.
Proof.
  intros HKx HKy HK HF Hx Hy.
  destruct x as [sx| | |[] mx ex]; try contradiction;
    destruct y as [sy| | |[] my ey]; try contradiction.
  - cbn. destruct sx, sy; exact I.
  - apply (f64_at_most_mono _ Ky); [lia | exact Hy].
  - apply (f64_at_most_mono _ Kx); [lia | exact Hx].
  - destruct Hx as [Hex Hmx], Hy as [Hey Hmy]. cbn [SFadd cond_Zopp].
    set (ez := Z.min ex ey).
    rewrite (shl_align_value mx ex ez), (shl_align_value my ey ez) by (unfold ez; lia).
    assert (HB : ((Zpos mx * 2 ^ (ex - ez) + Zpos my * 2 ^ (ey - ez)) * 2 ^ (ez + 1074)
                  <= (Kx + Ky) * 2 ^ (F + 1074))%Z).
    { rewrite Z.mul_add_distr_r, <- !Z.mul_assoc, <- !Z.pow_add_r by (unfold ez; lia).
      replace (ex - ez + (ez + 1074))%Z with (ex + 1074)%Z by lia.
      replace (ey - ez + (ez + 1074))%Z with (ey + 1074)%Z by lia. lia. }
    pose proof (Z.pow_pos_nonneg 2 (ex - ez) ltac:(lia) ltac:(unfold ez; lia)).
    pose proof (Z.pow_pos_nonneg 2 (ey - ez) ltac:(lia) ltac:(unfold ez; lia)).
    destruct (Zpos mx * 2 ^ (ex - ez) + Zpos my * 2 ^ (ey - ez))%Z as [|M|M] eqn:EM; try lia.
    assert (HKpos : (0 < Kx + Ky)%Z).
    { pose proof (Z.pow_pos_nonneg 2 (ez + 1074) ltac:(lia) ltac:(unfold ez; lia)).
      pose proof (Z.pow_pos_nonneg 2 (F + 1074) ltac:(lia) ltac:(lia)). nia. }
    cbn [binary_normalize].
    destruct (binary_round_bound prec64 emax64 ltac:(unfold prec64; lia) M ez (Kx + Ky) F)
      as [-> | (m & e & -> & He & Hm)];
      [unfold emin, prec64, emax64, ez; lia | unfold prec64, emax64; lia | unfold prec64; lia |
       unfold emin, prec64, emax64; replace (ez - (3 - 1024 - 53))%Z with (ez + 1074)%Z by lia;
       replace (F - (3 - 1024 - 53))%Z with (F + 1074)%Z by lia; exact HB | exact I |].
    unfold emin, prec64, emax64 in He, Hm.
    replace (e - (3 - 1024 - 53))%Z with (e + 1074)%Z in Hm by lia.
    replace (F - (3 - 1024 - 53))%Z with (F + 1074)%Z in Hm by lia.
    cbn. split; [lia | exact Hm].
Qed.

(** Summing values each within [2^F], onto an accumulator within
    [K * 2^F], stays within [(K + n) * 2^F]. *)
Lemma fold_SFadd_at_most (xs : list binary64) acc K F :
  (0 <= K)%Z -> (K + Z.of_nat (length xs) < 2 ^ 53)%Z -> (-1074 <= F <= 971)%Z ->
  Forall (fun x => f64_at_most x 1 F) xs -> f64_at_most acc K F ->
  f64_at_most (fold_left (SFadd prec64 emax64) xs acc) (K + Z.of_nat (length xs)) F.
Proof.
  revert acc K; induction xs as [|x xs IH]; intros acc K HK Hn HF Hall Hacc.
  - cbn. now rewrite Z.add_0_r.
  - inversion Hall as [|? ? Hx Hxs]; subst. cbn [fold_left length] in *.
    replace (K + Z.of_nat (S (length xs)))%Z with (K + 1 + Z.of_nat (length xs))%Z by lia.
    apply IH; [lia | lia | exact HF | exact Hxs |].
    apply SFadd_at_most; [lia | lia | lia | exact HF | exact Hacc | exact Hx].
Qed.

Section WithLibm.
Variable log10f : binary32 -> binary32.
#[local] Instance ieee_acc : PcmArith binary32 binary64 := ieee_arith log10f.

(** The f64 square of a finite binary32 sample is at most [2^256]. *)
Lemma square_f64_at_most x :
  valid_binary prec32 emax32 x = true -> is_finite x = true -> f64_at_most (square_f64 x) 1 256.
Proof.
  intros Hv Hf. destruct x as [s| | |s m e]; try discriminate.
  - unfold square_f64. cbn [f32_to_f64 f64_mul ieee_acc ieee_arith].
    rewrite square_zero by reflexivity. exact I.
  - destruct (valid_binary32_bounds s m e Hv) as (_ & Hd & He).
    assert (Hsq : square_f64 (S754_finite s m e) = f64_of (Zpos (m * m)) (2 * e))
      by exact (square_f64_finite log10f s m e Hv).
    rewrite Hsq.
    destruct (f64_of_square m e He Hd) as (q & -> & Hq).
    pose proof (digits2_pos_square m). destruct (mantissa24_bounds m Hd) as (Hm24 & _ & _).
    cbn [f64_at_most]. split; [lia|].
    assert (Hval : (Zpos q * 2 ^ (2 * e - 53 + Zpos (digits2_pos (m * m)) + 1074) =
                    Zpos (m * m) * 2 ^ (2 * e + 1074))%Z).
    { rewrite Hq, <- Z.mul_assoc, <- Z.pow_add_r by lia. f_equal. f_equal. lia. }
    rewrite Hval, Pos2Z.inj_mul.
    assert (Hm48 : (Zpos m * Zpos m < 2 ^ 48)%Z)
      by (change (2 ^ 48)%Z with (2 ^ 24 * 2 ^ 24)%Z; nia).
    assert (Hp : (2 ^ (2 * e + 1074) <= 2 ^ (208 + 1074))%Z)
      by (apply Z.pow_le_mono_r; lia).
    assert (Hs : (2 ^ (256 + 1074) = 2 ^ 48 * 2 ^ (208 + 1074))%Z)
      by (rewrite <- Z.pow_add_r by lia; reflexivity).
    pose proof (Z.pow_pos_nonneg 2 (2 * e + 1074) ltac:(lia) ltac:(lia)). nia.
Qed.

(** The f64 sum of squares of line 34 for finite samples, [n < 2^53] of
    them, is within [n * 2^256]. *)
Lemma sum_squares_at_most (chunk : list binary32) :
  Forall (fun x => valid_binary prec32 emax32 x = true /\ is_finite x = true) chunk ->
  (Z.of_nat (length chunk) < 2 ^ 53)%Z ->
  f64_at_most (f64_sum (map square_f64 chunk)) (Z.of_nat (length chunk)) 256.
Proof.
  intros Hall Hn.
  replace (Z.of_nat (length chunk)) with (0 + Z.of_nat (length (map square_f64 chunk)))%Z
    by (rewrite length_map; lia).
  unfold f64_sum. cbn [f64_add f64_neg_zero ieee_acc ieee_arith].
  apply fold_SFadd_at_most; [lia | rewrite length_map; lia | lia | | exact I].
  apply Forall_map. eapply Forall_impl; [|exact Hall].
  intros x [Hv Hf]. exact (square_f64_at_most x Hv Hf).
Qed.

(** ** Theorems *)

(** C31: the accumulator of line 34 never overflows (spec 4.1): for a chunk
    of finite binary32 samples of any length [n] below [2^53], the f64
    sum of the squares is [+-0] or a finite double of at most
    [n * 2^256], never [+inf] or NaN. *)
Theorem sum_of_squares_no_overflow (chunk : list binary32) :
  Forall (fun x => valid_binary prec32 emax32 x = true /\ is_finite x = true) chunk ->
  (Z.of_nat (length chunk) < 2 ^ 53)%Z ->
  is_finite (f64_sum (map square_f64 chunk)) = true /\
  f64_at_most (f64_sum (map square_f64 chunk)) (Z.of_nat (length chunk)) 256.
Proof.
  intros Hall Hn. pose proof (sum_squares_at_most chunk Hall Hn) as H.
  split; [exact (f64_at_most_finite _ _ _ H) | exact H].
Qed.
End WithLibm.

(** ** Witness: [f32::MAX], [-f32::MAX] and the smallest subnormal *)

#[local] Existing Instance ieee_sample.

Definition extremes : list binary32 :=
  [S754_finite false 16777215 104; S754_finite true 16777215 104; S754_finite false 1 (-149)].

Lemma sum_of_squares_no_overflow_witness :
  Forall (fun x => valid_binary prec32 emax32 x = true /\ is_finite x = true) extremes /\
  (Z.of_nat (length extremes) < 2 ^ 53)%Z /\
  is_finite (f64_sum (map square_f64 extremes)) = true /\
  f64_at_most (f64_sum (map square_f64 extremes)) (Z.of_nat (length extremes)) 256.
Proof.
  assert (H1 : Forall (fun x => valid_binary prec32 emax32 x = true /\ is_finite x = true) extremes)
    by (repeat constructor).
  assert (H2 : (Z.of_nat (length extremes) < 2 ^ 53)%Z) by (vm_compute; reflexivity).
  split; [exact H1|]. split; [exact H2|].
  exact (sum_of_squares_no_overflow log10f_sample extremes H1 H2).
Defined.
