(* ===== verification/Gain.v ===== *)
(** * A power-of-two gain scales the IEEE RMS exactly (lib.rs 27-39)

    Amplifying a chunk by [2^k] (about [6.02 * k] dB) moves the exponent
    of every sample by [k].  The squares of line 34 then move by [2 k].
    The f64 sum, the division by [len as f64] and the square root of
    line 38 all stay in the normal f64 range for any binary32 input: a
    square is at least [2^-298] and the sum at most [n * 2^256]
    ([Accumulator]).  So by [Scaling] each of them commutes with the
    shift, and the f64 root moves by [k].  The last step, [as f32],
    commutes with the shift when the RMS and the amplified RMS are
    normal binary32 values above the smallest normal binade
    ([rms_gain_room]).  Then the RMS of the amplified chunk is exactly
    the amplified RMS, bit for bit: the code computes no rounding error
    that depends on the level. *)

From Stdlib Require Import List ZArith Lia Bool.
From Stdlib Require Import Floats.SpecFloat.
From S2P Require Import Prelude Level Binary Ieee Exact Accumulator Scaling.
Import ListNotations.

(** A positive f64 value [m * 2^e] of magnitude at least [L], or a
    zero. *)
Definition mag_ge (L : Z) (x : spec_float) : Prop :=
  match x with
  | S754_zero _ => True
  | S754_finite false m e => (L <= Zdigits2 (Zpos m) + e)%Z
  | _ => False
  end.

(** The RMS values a gain of [2^k] scales exactly: a binary32 with a
    24-bit mantissa above the smallest normal binade [[2^-126, 2^-125)],
    still such a value, and finite, once scaled by [2^k]. *)
Definition rms_gain_room (k : Z) (r : binary32) : Prop :=
  match r with
  | S754_finite false m e => (2 ^ 23 <= Zpos m)%Z /\ (-149 < e)%Z /\ (-149 < e + k <= 104)%Z
  | _ => False
  end.

(** ** Lemmas *)

(** [lia] sees [t / 2] through [t = 2 * (t / 2) + t mod 2]. *)
Ltac half_bounds :=
  match goal with
  | |- context [(?t / 2)%Z] =>
      pose proof (Z.div_mod t 2 ltac:(lia)); pose proof (Z.mod_pos_bound t 2 ltac:(lia))
  end.

Lemma f64_at_most_mag m e K F :
  f64_at_most (S754_finite false m e) K F -> (K < 2 ^ 53)%Z ->
  (Zdigits2 (Zpos m) + e <= 53 + F)%Z.
Proof.
  cbn [f64_at_most]. intros [He Hm] HK.
  assert (Hlt : (Zpos m < 2 ^ (53 + F - e))%Z).
  { assert (Hs : (2 ^ (53 + F + 1074) = 2 ^ (53 + F - e) * 2 ^ (e + 1074))%Z)
      by (rewrite <- Z.pow_add_r by lia; f_equal; lia).
    assert (Hs' : (2 ^ (53 + F + 1074) = 2 ^ 53 * 2 ^ (F + 1074))%Z)
      by (rewrite <- Z.pow_add_r by lia; f_equal; lia).
    pose proof (Z.pow_pos_nonneg 2 (e + 1074) ltac:(lia) ltac:(lia)) as Pe.
    pose proof (Z.pow_pos_nonneg 2 (F + 1074) ltac:(lia) ltac:(lia)) as PF.
    assert (HKB : (K * 2 ^ (F + 1074) < 2 ^ 53 * 2 ^ (F + 1074))%Z)
      by (apply Z.mul_lt_mono_pos_r; lia).
    apply (Z.mul_lt_mono_pos_r (2 ^ (e + 1074))); [lia|]. rewrite <- Hs, Hs'. lia. }
  pose proof (Zdigits2_lt_pow (Zpos m) (53 + F - e) ltac:(lia)). lia.
Qed.

Lemma prec64_pos : (0 < prec64)%Z.
Proof. reflexivity. Qed.

Lemma prec64_lt : (prec64 < emax64)%Z.
Proof. reflexivity. Qed.

Lemma prec32_pos : (0 < prec32)%Z.
Proof. reflexivity. Qed.

Lemma prec32_lt : (prec32 < emax32)%Z.
Proof. reflexivity. Qed.

Lemma normal64 m e : (-1021 <= Zdigits2 m + e)%Z -> normal_mag prec64 emax64 m e.
Proof. unfold normal_mag, emin, prec64, emax64. lia. Qed.

(** One step of the f64 sum commutes with the shift, on positive
    values within the accumulator's bounds and of magnitude at least
    [-400]. *)
Lemma SFadd_scale_step acc x j Ka :
  (0 <= Ka)%Z -> (Ka + 1 < 2 ^ 53)%Z ->
  f64_at_most acc Ka 256 -> f64_at_most (sf_scale j acc) Ka 256 ->
  mag_ge (-400) acc -> mag_ge (-400) (sf_scale j acc) ->
  f64_at_most x 1 256 -> f64_at_most (sf_scale j x) 1 256 ->
  mag_ge (-400) x -> mag_ge (-400) (sf_scale j x) ->
  SFadd prec64 emax64 (sf_scale j acc) (sf_scale j x) = sf_scale j (SFadd prec64 emax64 acc x) /\
  mag_ge (-400) (SFadd prec64 emax64 acc x) /\ mag_ge (-400) (sf_scale j (SFadd prec64 emax64 acc x)).
Proof.
  intros HK HK1 Ha Haj Ma Maj Hx Hxj Mx Mxj.
  pose proof (SFadd_at_most acc x Ka 1 256 HK ltac:(lia) HK1 ltac:(lia) Ha Hx) as Hr.
  destruct acc as [sa|sa| |sa ma ea]; try contradiction;
    destruct x as [sx|sx| |sx mx ex]; try contradiction.
  - destruct sa, sx; cbn; repeat split; exact I.
  - destruct sx; [contradiction|]. cbn in *. repeat split; assumption.
  - destruct sa; [contradiction|]. cbn in *. repeat split; assumption.
  - destruct sa; [contradiction|]. destruct sx; [contradiction|]. cbn [sf_scale mag_ge] in *.
    pose proof (SFadd_at_most _ _ Ka 1 256 HK ltac:(lia) HK1 ltac:(lia) Haj Hxj) as Hrj.
    cbn [sf_scale] in Hrj.
    destruct (add_mant_mag prec64 emax64 prec64_pos prec64_lt ma ea mx ex) as [A1 A2].
    destruct (SFadd_pos_eq prec64 emax64 prec64_pos prec64_lt ma ea mx ex) as (P & HP & E).
    assert (Heq : SFadd prec64 emax64 (S754_finite false ma (ea + j)) (S754_finite false mx (ex + j)) =
                  sf_scale j (SFadd prec64 emax64 (S754_finite false ma ea) (S754_finite false mx ex))).
    { apply (SFadd_pos_scale prec64 emax64 prec64_pos prec64_lt); [apply normal64; lia | apply normal64; lia | |];
        eapply f64_at_most_finite; eassumption. }
    rewrite Heq in Hrj |- *. split; [reflexivity|].
    pose proof (binary_round_mag prec64 emax64 prec64_pos prec64_lt false P
                  (Z.min ea ex) ltac:(apply normal64; rewrite <- HP; lia)) as M.
    rewrite <- E in M. rewrite <- HP in M.
    destruct (SFadd prec64 emax64 (S754_finite false ma ea) (S754_finite false mx ex))
      as [s'|s'| |s' m e]; cbn [f64_at_most] in Hr; try contradiction.
    destruct s'; [contradiction|]. cbn [sf_scale mag_ge]. lia.
Qed.

Lemma fold_SFadd_scale (xs : list binary64) acc j K :
  (0 <= K)%Z -> (K + Z.of_nat (length xs) < 2 ^ 53)%Z ->
  Forall (fun x => f64_at_most x 1 256 /\ f64_at_most (sf_scale j x) 1 256 /\
                   mag_ge (-400) x /\ mag_ge (-400) (sf_scale j x)) xs ->
  f64_at_most acc K 256 -> f64_at_most (sf_scale j acc) K 256 ->
  mag_ge (-400) acc -> mag_ge (-400) (sf_scale j acc) ->
  fold_left (SFadd prec64 emax64) (map (sf_scale j) xs) (sf_scale j acc) =
    sf_scale j (fold_left (SFadd prec64 emax64) xs acc) /\
  mag_ge (-400) (fold_left (SFadd prec64 emax64) xs acc) /\
  mag_ge (-400) (sf_scale j (fold_left (SFadd prec64 emax64) xs acc)).
Proof.
  revert acc K; induction xs as [|x xs IH]; intros acc K HK Hn Hall Ha Haj Ma Maj.
  - cbn. auto.
  - inversion Hall as [|? ? (Hx & Hxj & Mx & Mxj) Hxs]; subst. cbn [map fold_left length] in *.
    destruct (SFadd_scale_step acc x j K HK ltac:(lia) Ha Haj Ma Maj Hx Hxj Mx Mxj) as (E & M1 & M2).
    rewrite E. apply (IH _ (K + 1)%Z); [lia | lia | exact Hxs | | | exact M1 | exact M2].
    + apply SFadd_at_most; [lia | lia | lia | lia | exact Ha | exact Hx].
    + rewrite <- E. apply SFadd_at_most; [lia | lia | lia | lia | exact Haj | exact Hxj].
Qed.

(** The tail of [calculate_rms] (lines 37-38) on a positive f64 sum
    [S] of magnitude in [[-400, 309]] and a count [n] below [2^53]: when
    [S] moves by [2 k] and stays in that range, and the binary32 result
    [R] has room for the gain, the result moves by [k]. *)
Lemma rms_tail_scale ms es mn en k mR eR :
  (-400 <= Zdigits2 (Zpos ms) + es <= 309)%Z ->
  (-400 <= Zdigits2 (Zpos ms) + es + 2 * k <= 309)%Z ->
  (1 <= Zdigits2 (Zpos mn) + en <= 53)%Z ->
  sf_convert prec32 emax32
    (SFsqrt prec64 emax64 (SFdiv prec64 emax64 (S754_finite false ms es) (S754_finite false mn en))) =
    S754_finite false mR eR ->
  (2 ^ 23 <= Zpos mR)%Z -> (-149 < eR)%Z -> (-149 < eR + k <= 104)%Z ->
  sf_convert prec32 emax32
    (SFsqrt prec64 emax64 (SFdiv prec64 emax64 (S754_finite false ms (es + 2 * k)) (S754_finite false mn en))) =
    S754_finite false mR (eR + k).
Proof.
  intros HS HSk Hn HR HmR HeR HeRk.
  rewrite (SFdiv_pos_scale prec64 emax64 prec64_pos prec64_lt ms es mn en (2 * k));
    [| cbv zeta; unfold SpecFloat.emin, prec64, emax64; lia ..].
  destruct (SFdiv_pos_finite prec64 emax64 prec64_pos prec64_lt ms es mn en)
    as (mq & eq & EQ & MQ); [cbv zeta; unfold SpecFloat.emin, prec64, emax64; lia .. |].
  rewrite EQ in HR |- *. cbn [sf_scale].
  rewrite (SFsqrt_pos_scale prec64 emax64 prec64_pos prec64_lt mq eq k);
    [| cbv zeta; rewrite ?Z.div2_div; unfold SpecFloat.emin, prec64, emax64; half_bounds; lia ..].
  destruct (SFsqrt_pos_finite prec64 emax64 prec64_pos prec64_lt mq eq)
    as (my & ey & EY & MY); [cbv zeta; rewrite ?Z.div2_div; unfold SpecFloat.emin, prec64, emax64;
                               half_bounds; lia .. |].
  rewrite Z.div2_div in MY. rewrite EY in HR |- *. cbn [sf_scale].
  change (sf_convert prec32 emax32 (S754_finite false my ey)) with (binary_round prec32 emax32 false my ey) in HR.
  change (sf_convert prec32 emax32 (S754_finite false my (ey + k)))
    with (binary_round prec32 emax32 false my (ey + k)).
  pose proof (binary_round_mag_le prec32 emax32 prec32_pos prec32_lt false my ey) as Hle.
  rewrite HR in Hle. unfold SpecFloat.emin, prec32, emax32 in Hle.
  pose proof (Zdigits2_ge_pow (Zpos mR) 23 ltac:(lia) HmR).
  apply (binary_round_shift_room prec32 emax32 prec32_pos prec32_lt false my ey k false mR eR);
    [unfold normal_mag, SpecFloat.emin, prec32, emax32; lia .. | exact HR | unfold prec32, emax32; lia].
Qed.

Section WithLibm.
Variable log10f : binary32 -> binary32.
#[local] Instance ieee_gain : PcmArith binary32 binary64 := ieee_arith log10f.

(** The f64 square of line 34 moves by [2 k] when the sample moves by
    [k], and is a zero or has magnitude at least [-297]. *)
Lemma square_f64_scale x k :
  valid_binary prec32 emax32 x = true -> is_finite x = true ->
  valid_binary prec32 emax32 (sf_scale k x) = true ->
  square_f64 (sf_scale k x) = sf_scale (2 * k) (square_f64 x) /\
  mag_ge (-400) (square_f64 x) /\ mag_ge (-400) (square_f64 (sf_scale k x)).
Proof.
  intros Hv Hf Hvk. destruct x as [s| | |s m e]; try discriminate.
  - cbn [sf_scale]. unfold square_f64. cbn [f32_to_f64 f64_mul ieee_gain ieee_arith].
    rewrite square_zero by reflexivity. cbn. repeat split; exact I.
  - cbn [sf_scale] in *.
    assert (H1 : @square_f64 spec_float spec_float _ (S754_finite s m e) = f64_of (Zpos (m * m)) (2 * e))
      by exact (square_f64_finite log10f s m e Hv).
    assert (H2 : @square_f64 spec_float spec_float _ (S754_finite s m (e + k)) =
                 f64_of (Zpos (m * m)) (2 * e + 2 * k))
      by (rewrite <- Z.mul_add_distr_l; exact (square_f64_finite log10f s m (e + k) Hvk)).
    rewrite H1, H2, !f64_of_pos.
    destruct (valid_binary32_bounds s m e Hv) as (_ & Hd & He).
    destruct (valid_binary32_bounds s m (e + k) Hvk) as (_ & _ & Hek).
    pose proof (digits2_pos_square m) as Hsq. cbn [Zdigits2] in *.
    assert (N1 : normal_mag prec64 emax64 (Zpos (m * m)) (2 * e)) by (apply normal64; cbn [Zdigits2]; lia).
    assert (N2 : normal_mag prec64 emax64 (Zpos (m * m)) (2 * e + 2 * k))
      by (apply normal64; cbn [Zdigits2]; lia).
    destruct (binary_round_pos_finite prec64 emax64 prec64_pos prec64_lt (m * m) (2 * e) N1
                ltac:(cbn [Zdigits2]; unfold emax64; lia)) as (q & f & Eq & Mq).
    destruct (binary_round_pos_finite prec64 emax64 prec64_pos prec64_lt (m * m) (2 * e + 2 * k) N2
                ltac:(cbn [Zdigits2]; unfold emax64; lia)) as (q' & f' & Eq' & Mq').
    split; [|rewrite Eq, Eq'; cbn [mag_ge]; cbn [Zdigits2] in *; lia].
    apply (binary_round_shift prec64 emax64 prec64_pos prec64_lt); [exact N1 | exact N2 | | ];
      [rewrite Eq | rewrite Eq']; reflexivity.
Qed.
(** The f64 sum of squares of line 34 moves by [2 k]; it and its shift
    are within the accumulator bound of [Accumulator] and of magnitude
    at least [-400]. *)
Lemma sum_squares_scale (chunk : list binary32) k :
  Forall (fun x => valid_binary prec32 emax32 x = true /\ is_finite x = true /\
                   valid_binary prec32 emax32 (sf_scale k x) = true) chunk ->
  (Z.of_nat (length chunk) < 2 ^ 53)%Z ->
  let S := f64_sum (map square_f64 chunk) in
  f64_sum (map square_f64 (map (sf_scale k) chunk)) = sf_scale (2 * k) S /\
  f64_at_most S (Z.of_nat (length chunk)) 256 /\
  f64_at_most (sf_scale (2 * k) S) (Z.of_nat (length chunk)) 256 /\
  mag_ge (-400) S /\ mag_ge (-400) (sf_scale (2 * k) S).
Proof.
  intros Hall Hn S.
  assert (Hsq : map square_f64 (map (sf_scale k) chunk) = map (sf_scale (2 * k)) (map square_f64 chunk)).
  { rewrite !map_map. apply map_ext_in. intros x Hx.
    rewrite Forall_forall in Hall. destruct (Hall x Hx) as (Hv & Hf & Hvk).
    exact (proj1 (square_f64_scale x k Hv Hf Hvk)). }
  assert (Hok : Forall (fun x => valid_binary prec32 emax32 x = true /\ is_finite x = true) chunk).
  { eapply Forall_impl; [|exact Hall]. intros x (Hv & Hf & _). auto. }
  assert (Hokk : Forall (fun x => valid_binary prec32 emax32 x = true /\ is_finite x = true)
                   (map (sf_scale k) chunk)).
  { apply Forall_map. eapply Forall_impl; [|exact Hall]. intros x (Hv & Hf & Hvk).
    split; [exact Hvk|]. destruct x; cbn in *; congruence. }
  assert (Hb1 : f64_at_most S (Z.of_nat (length chunk)) 256)
    by exact (sum_squares_at_most log10f chunk Hok Hn).
  assert (Hb2 : f64_at_most (f64_sum (map square_f64 (map (sf_scale k) chunk))) (Z.of_nat (length chunk)) 256).
  { pose proof (sum_squares_at_most log10f (map (sf_scale k) chunk) Hokk
                    ltac:(rewrite length_map; exact Hn)) as H.
    rewrite length_map in H. exact H. }
  assert (Hterms : Forall (fun x => f64_at_most x 1 256 /\ f64_at_most (sf_scale (2 * k) x) 1 256 /\
                                    mag_ge (-400) x /\ mag_ge (-400) (sf_scale (2 * k) x))
                     (map square_f64 chunk)).
  { apply Forall_map. eapply Forall_impl; [|exact Hall]. intros x (Hv & Hf & Hvk).
    destruct (square_f64_scale x k Hv Hf Hvk) as (E & M1 & M2).
    assert (Hvk' : is_finite (sf_scale k x) = true) by (destruct x; cbn in *; congruence).
    assert (A1 : f64_at_most (square_f64 x) 1 256) by exact (square_f64_at_most log10f x Hv Hf).
    assert (A2 : f64_at_most (square_f64 (sf_scale k x)) 1 256)
      by exact (square_f64_at_most log10f (sf_scale k x) Hvk Hvk').
    assert (A2' : f64_at_most (sf_scale (2 * k) (square_f64 x)) 1 256)
      by exact (eq_rect _ (fun v => f64_at_most v 1 256) A2 _ E).
    rewrite E in M2. auto. }
  destruct (fold_SFadd_scale (map square_f64 chunk) (S754_zero true) (2 * k) 0 ltac:(lia)
              ltac:(rewrite length_map; lia) Hterms I I I I) as (E & M1 & M2).
  unfold S, f64_sum in *. cbn [f64_add f64_neg_zero ieee_gain ieee_arith] in *.
  unfold binary32, binary64 in *. rewrite Hsq in Hb2 |- *. cbn [sf_scale] in E. rewrite E in Hb2 |- *. auto.
Qed.

(** ** Theorem *)

(** C19: a power-of-two gain scales the RMS exactly (spec 8, the
    scaling property, on the f32/f64 program).  Amplifying every sample
    of a chunk by [2^k] (a gain of [6.02 * k] dB), when no amplified
    sample overflows or becomes subnormal, amplifies the RMS of lines
    27-39 by exactly [2^k], bit for bit, provided the RMS and the
    amplified RMS are normal binary32 values above the smallest normal
    binade.  The code's rounding errors do not depend on the level. *)
Theorem calculate_rms_pow2_gain (chunk : list binary32) k :
  Forall (fun x => valid_binary prec32 emax32 x = true /\ is_finite x = true /\
                   valid_binary prec32 emax32 (sf_scale k x) = true) chunk ->
  (Z.of_nat (length chunk) < 2 ^ 53)%Z ->
  rms_gain_room k (calculate_rms chunk) ->
  calculate_rms (map (sf_scale k) chunk) = sf_scale k (calculate_rms chunk).
Proof.
  intros Hall Hn Hroom.
  destruct (sum_squares_scale chunk k Hall Hn) as (ES & B1 & B2 & M1 & M2). cbv zeta in *.
  destruct chunk as [|x0 xs]; [vm_compute in Hroom; contradiction|].
  cbn [map length] in *. rewrite !calculate_rms_cons, length_map in *.
  cbn [f64_to_f32 f64_sqrt f64_div usize_to_f64 ieee_gain ieee_arith] in *.
  destruct (usize_as_f64_exact (S (length xs)) ltac:(lia) Hn) as (mn & en & En & Hen & Hmn).
  unfold binary32, binary64 in *. rewrite En in *. cbn [map] in *. rewrite ES.
  remember (f64_sum (square_f64 x0 :: map square_f64 xs)) as S eqn:HS.
  (* a zero sum gives a zero RMS, which has no room: [Hroom] is [False] *)
  destruct S as [ss|ss| |[] ms es]; cbn [f64_at_most] in B1; try contradiction.
  cbn [sf_scale mag_ge] in *.
  destruct (sf_convert prec32 emax32 _) as [| | |[] mR eR] eqn:ER in Hroom; try contradiction.
  destruct Hroom as (HmR & HeR & HeRk). rewrite ER. cbn [sf_scale].
  pose proof (f64_at_most_mag ms es _ _ B1 Hn) as U1.
  pose proof (f64_at_most_mag ms (es + 2 * k) _ _ B2 Hn) as U2.
  assert (Hdn : (Zdigits2 (Zpos mn) + en = Zdigits2 (Z.of_nat (S (length xs))))%Z).
  { rewrite Hmn, (Zdigits2_mul_pow' (Z.of_nat (S (length xs))) (- en)); lia. }
  assert (Hdn' : (1 <= Zdigits2 (Z.of_nat (S (length xs))) <= 53)%Z).
  { split; [apply Zdigits2_pos; lia | apply Zdigits2_lt_pow; lia]. }
  apply rms_tail_scale; [lia | lia | lia | exact ER | exact HmR | exact HeR | exact HeRk].
Qed.

End WithLibm.

(** ** Witness: [[3.0; -5.0]] amplified by [2^10] *)

#[local] Existing Instance ieee_sample.

Definition gain_chunk : list binary32 := [f32_of_Z 3; f32_of_Z (-5)].

Lemma calculate_rms_pow2_gain_witness :
  Forall (fun x => valid_binary prec32 emax32 x = true /\ is_finite x = true /\
                   valid_binary prec32 emax32 (sf_scale 10 x) = true) gain_chunk /\
  (Z.of_nat (length gain_chunk) < 2 ^ 53)%Z /\
  rms_gain_room 10 (calculate_rms gain_chunk) /\
  calculate_rms (map (sf_scale 10) gain_chunk) = sf_scale 10 (calculate_rms gain_chunk).
Proof.
  assert (H1 : Forall (fun x => valid_binary prec32 emax32 x = true /\ is_finite x = true /\
                                valid_binary prec32 emax32 (sf_scale 10 x) = true) gain_chunk)
    by (vm_compute; repeat constructor).
  assert (H2 : (Z.of_nat (length gain_chunk) < 2 ^ 53)%Z) by (vm_compute; reflexivity).
  assert (H3 : rms_gain_room 10 (calculate_rms gain_chunk)).
  { change (calculate_rms gain_chunk) with (S754_finite false 8646779 (-21)).
    cbn [rms_gain_room]. lia. }
  split; [exact H1|]. split; [exact H2|]. split; [exact H3|].
  exact (calculate_rms_pow2_gain log10f_sample gain_chunk 10 H1 H2 H3).
Defined.
