(* ===== verification/Range.v ===== *)
(** * The range of the IEEE RMS (lib.rs 27-39)

    For a chunk of finite binary32 samples below [2^B] in magnitude,
    each f64 square of line 34 is at most [2^(2 B)]; the f64 sum of [n]
    of them is at most [n * 2^(2 B)] ([Accumulator]) and is a zero or
    a positive value of magnitude at least [-400] ([Gain]).  Dividing by
    [n as f64] gives a positive f64 of magnitude at most [2 B + 2]
    ([Scaling.SFdiv_pos_finite]), and its square root one of magnitude
    at most [B + 2] ([Scaling.SFsqrt_pos_finite]).  With [B = 125] the
    root is below [2^127], so [as f32] (line 38) cannot round it up to
    [+inf]: the RMS is a finite binary32, and [log10f] receives a
    finite value.  The bound [125] is what this magnitude argument
    gives; above it (samples within a factor 8 of [f32::MAX]) the
    narrowing would need an error bound on the rounded sum. *)

From Stdlib Require Import List ZArith Lia Bool.
From Stdlib Require Import Floats.SpecFloat.
From S2P Require Import Prelude Level Binary Ieee Exact Accumulator Scaling Gain.
Import ListNotations.

(** A binary32 sample below [2^B] in magnitude (zeros, infinities and
    NaN pass; the theorem asks for finite samples separately). *)
Definition sample_mag_le (B : Z) (x : binary32) : bool :=
  match x with
  | S754_finite _ m e => (Zdigits2 (Zpos m) + e <=? B)%Z
  | _ => true
  end.

(** ** Lemmas *)

(** A value within [K * 2^F] has magnitude at most [digits K + F]. *)
Lemma f64_at_most_digits m e K F :
  f64_at_most (S754_finite false m e) K F -> (0 < K)%Z ->
  (Zdigits2 (Zpos m) + e <= Zdigits2 K + F)%Z.
Proof.
  cbn [f64_at_most]. intros [He Hm] HK.
  pose proof (Zdigits2_pow_le K HK) as [_ HK2].
  assert (Hlt : (Zpos m < 2 ^ (Zdigits2 K + F - e))%Z).
  { assert (Hs : (2 ^ (Zdigits2 K + F + 1074) = 2 ^ (Zdigits2 K + F - e) * 2 ^ (e + 1074))%Z)
      by (rewrite <- Z.pow_add_r by (pose proof (Zdigits2_nonneg K); lia); f_equal; lia).
    assert (Hs' : (2 ^ (Zdigits2 K + F + 1074) = 2 ^ Zdigits2 K * 2 ^ (F + 1074))%Z)
      by (rewrite <- Z.pow_add_r by (pose proof (Zdigits2_nonneg K); lia); f_equal; lia).
    pose proof (Z.pow_pos_nonneg 2 (e + 1074) ltac:(lia) ltac:(lia)) as Pe.
    pose proof (Z.pow_pos_nonneg 2 (F + 1074) ltac:(lia) ltac:(lia)) as PF.
    assert (HKB : (K * 2 ^ (F + 1074) < 2 ^ Zdigits2 K * 2 ^ (F + 1074))%Z)
      by (apply Z.mul_lt_mono_pos_r; lia).
    apply (Z.mul_lt_mono_pos_r (2 ^ (e + 1074))); [lia|]. rewrite <- Hs, Hs'. lia. }
  pose proof (Zdigits2_lt_pow (Zpos m) (Zdigits2 K + F - e) ltac:(lia)). lia.
Qed.

Lemma sf_scale_0 x : sf_scale 0 x = x.
Proof. destruct x; cbn; rewrite ?Z.add_0_r; reflexivity. Qed.

Section WithLibm.
Variable log10f : binary32 -> binary32.
#[local] Instance ieee_range : PcmArith binary32 binary64 := ieee_arith log10f.

(** The f64 square of a finite sample below [2^B] is at most [2^(2 B)]. *)
Lemma square_f64_at_most_mag x B :
  valid_binary prec32 emax32 x = true -> is_finite x = true -> sample_mag_le B x = true ->
  (-400 <= B)%Z ->
  f64_at_most (square_f64 x) 1 (2 * B).
Proof.
  intros Hv Hf HB HB0. destruct x as [s| | |s m e]; try discriminate.
  - unfold square_f64. cbn [f32_to_f64 f64_mul ieee_range ieee_arith].
    rewrite square_zero by reflexivity. exact I.
  - cbn [sample_mag_le Zdigits2] in HB. apply Z.leb_le in HB.
    destruct (valid_binary32_bounds s m e Hv) as (_ & Hd & He).
    assert (Hsq : @square_f64 spec_float spec_float _ (S754_finite s m e) = f64_of (Zpos (m * m)) (2 * e))
      by exact (square_f64_finite log10f s m e Hv).
    unfold binary32, binary64 in *. rewrite Hsq.
    destruct (f64_of_square m e He Hd) as (q & -> & Hq).
    pose proof (digits2_pos_square m). pose proof (pos_lt_digits m) as Hm.
    cbn [f64_at_most]. split; [lia|].
    assert (Hval : (Zpos q * 2 ^ (2 * e - 53 + Zpos (digits2_pos (m * m)) + 1074) =
                    Zpos (m * m) * 2 ^ (2 * e + 1074))%Z).
    { rewrite Hq, <- Z.mul_assoc, <- Z.pow_add_r by lia. f_equal. f_equal. lia. }
    rewrite Hval, Pos2Z.inj_mul, Z.mul_1_l.
    set (d := Zpos (digits2_pos m)) in *.
    assert (Hm2 : (Zpos m * Zpos m < 2 ^ (2 * d))%Z)
      by (replace (2 * d)%Z with (d + d)%Z by lia; rewrite Z.pow_add_r by lia; nia).
    assert (Hs : (2 ^ (2 * B + 1074) = 2 ^ (2 * d) * 2 ^ (2 * B + 1074 - 2 * d))%Z)
      by (rewrite <- Z.pow_add_r by lia; f_equal; lia).
    assert (Hp : (2 ^ (2 * e + 1074) <= 2 ^ (2 * B + 1074 - 2 * d))%Z)
      by (apply Z.pow_le_mono_r; lia).
    pose proof (Z.pow_pos_nonneg 2 (2 * e + 1074) ltac:(lia) ltac:(lia)). nia.
Qed.

(** The f64 sum of squares of line 34, for samples below [2^B]: at most
    [n * 2^(2 B)], and a zero or of magnitude at least [-400]. *)
Lemma sum_squares_range (chunk : list binary32) B :
  Forall (fun x => valid_binary prec32 emax32 x = true /\ is_finite x = true /\
                   sample_mag_le B x = true) chunk ->
  (Z.of_nat (length chunk) < 2 ^ 53)%Z -> (-400 <= B <= 128)%Z ->
  f64_at_most (f64_sum (map square_f64 chunk)) (Z.of_nat (length chunk)) (2 * B) /\
  mag_ge (-400) (f64_sum (map square_f64 chunk)).
Proof.
  intros Hall Hn HB. split.
  - unfold f64_sum. cbn [f64_add f64_neg_zero ieee_range ieee_arith].
    replace (Z.of_nat (length chunk)) with (0 + Z.of_nat (length (map square_f64 chunk)))%Z
      by (rewrite length_map; lia).
    apply fold_SFadd_at_most; [lia | rewrite length_map; lia | lia | | exact I].
    apply Forall_map. eapply Forall_impl; [|exact Hall]. intros x (Hv & Hf & Hb).
    exact (square_f64_at_most_mag x B Hv Hf Hb ltac:(lia)).
  - assert (Hok : Forall (fun x => valid_binary prec32 emax32 x = true /\ is_finite x = true /\
                                   valid_binary prec32 emax32 (sf_scale 0 x) = true) chunk).
    { eapply Forall_impl; [|exact Hall]. intros x (Hv & Hf & _). rewrite sf_scale_0. auto. }
    assert (H := proj1 (proj2 (proj2 (proj2 (sum_squares_scale log10f chunk 0 Hok Hn))))).
    exact H.
Qed.

(** ** Theorem *)

(** C20: the RMS of realistic audio is a finite number (spec 4.1).  For
    a chunk of finite binary32 samples, each below [2^125] in magnitude
    (about [4.25e37]; PCM audio is within [[-1, 1]]), of any length
    below [2^53], the RMS of lines 27-39 is a finite binary32: neither
    [+inf] nor NaN reaches the clamp of line 49. *)
Theorem calculate_rms_finite (chunk : list binary32) :
  Forall (fun x => valid_binary prec32 emax32 x = true /\ is_finite x = true /\
                   sample_mag_le 125 x = true) chunk ->
  (Z.of_nat (length chunk) < 2 ^ 53)%Z ->
  is_finite (calculate_rms chunk) = true.
Proof.
  intros Hall Hn.
  destruct (sum_squares_range chunk 125 Hall Hn ltac:(lia)) as (B1 & M1).
  destruct chunk as [|x0 xs]; [reflexivity|].
  cbn [length] in *. rewrite calculate_rms_cons.
  cbn [f64_to_f32 f64_sqrt f64_div usize_to_f64 ieee_range ieee_arith].
  destruct (usize_as_f64_exact (S (length xs)) ltac:(lia) Hn) as (mn & en & En & Hen & Hmn).
  unfold binary32, binary64 in *. rewrite En.
  remember (f64_sum (map square_f64 (x0 :: xs))) as S eqn:HS.
  destruct S as [ss|ss| |[] ms es]; cbn [f64_at_most] in B1; try contradiction;
    [destruct ss; reflexivity|].
  cbn [mag_ge] in M1.
  pose proof (f64_at_most_digits ms es _ _ B1 ltac:(lia)) as U1.
  assert (Hdn : (Zdigits2 (Zpos mn) + en = Zdigits2 (Z.of_nat (S (length xs))))%Z).
  { rewrite Hmn, (Zdigits2_mul_pow' (Z.of_nat (S (length xs))) (- en)); lia. }
  assert (Hdn' : (1 <= Zdigits2 (Z.of_nat (S (length xs))) <= 53)%Z).
  { split; [apply Zdigits2_pos; lia | apply Zdigits2_lt_pow; lia]. }
  destruct (SFdiv_pos_finite prec64 emax64 prec64_pos prec64_lt ms es mn en)
    as (mq & eq & EQ & MQ); [cbv zeta; unfold SpecFloat.emin, prec64, emax64; lia .. |].
  rewrite EQ.
  destruct (SFsqrt_pos_finite prec64 emax64 prec64_pos prec64_lt mq eq)
    as (my & ey & EY & MY); [cbv zeta; rewrite ?Z.div2_div; unfold SpecFloat.emin, prec64, emax64;
                               half_bounds; lia .. |].
  rewrite EY. rewrite Z.div2_div in MY.
  change (sf_convert prec32 emax32 (S754_finite false my ey)) with (binary_round prec32 emax32 false my ey).
  apply (binary_round_finite prec32 emax32 prec32_pos prec32_lt).
  unfold emax32. pose proof (Z.div_mod (Zdigits2 (Zpos mq) + eq + 1) 2 ltac:(lia)).
  pose proof (Z.mod_pos_bound (Zdigits2 (Zpos mq) + eq + 1) 2 ltac:(lia)). lia.
Qed.
End WithLibm.

(** ** Witness: [f32::MAX / 8], [-1.0] and the smallest subnormal *)

#[local] Existing Instance ieee_sample.

Definition loud_chunk : list binary32 :=
  [S754_finite false 16777215 101; f32_of_Z (-1); S754_finite false 1 (-149)].

Lemma calculate_rms_finite_witness :
  Forall (fun x => valid_binary prec32 emax32 x = true /\ is_finite x = true /\
                   sample_mag_le 125 x = true) loud_chunk /\
  (Z.of_nat (length loud_chunk) < 2 ^ 53)%Z /\
  is_finite (calculate_rms loud_chunk) = true.
Proof.
  assert (H1 : Forall (fun x => valid_binary prec32 emax32 x = true /\ is_finite x = true /\
                                sample_mag_le 125 x = true) loud_chunk)
    by (vm_compute; repeat constructor).
  assert (H2 : (Z.of_nat (length loud_chunk) < 2 ^ 53)%Z) by (vm_compute; reflexivity).
  split; [exact H1|]. split; [exact H2|].
  exact (calculate_rms_finite log10f_sample loud_chunk H1 H2).
Defined.
