(* ===== verification/Analyzer.v ===== *)
(** * The exported operation [analyze_audio_rms] (lib.rs 68-108)

    The operation is written against the class [PcmArith], so its
    structural theorems hold for every instance of the class; the
    numeric ones are proved on the IEEE instance, the program.  [overflow_mode] selects the build profile: with
    overflow checks (debug) the [usize] sum of line 84 can panic; without
    them (release) it wraps.  The function here takes and returns the
    samples as lists; the JS marshalling of lines 73, 80 and 108 around
    it is in [Boundary].

    The file proves the structure of the result: [ceil (len / c)] levels,
    level [i] computed from samples [i * c] to [i * c + c - 1], and the
    empty result for an empty buffer or a zero chunk size.  It proves that
    release builds never panic, and the exact condition under which debug
    builds panic.  It proves that the capacity reserved on line 85 is the
    exact number of results when the sum does not overflow, that the
    [chunks_exact] loop with its remainder is equivalent to a loop over
    [chunks], and which value line 84 computes in a release build and
    when it is the exact [ceil (len / c)].  It proves that
    analysing a buffer by segments of whole chunks gives the result of
    one call (spec 5).  On the IEEE program it gives the exact result
    for silent buffers, for buffers of one magnitude and for chunk size
    1, and shows that the result is invariant under polarity inversion
    (every sample negated); spec scenarios
    2 and 3 are the witnesses of those theorems, and scenario 1 feeds
    the segment theorem's witness. *)

From Stdlib Require Import List ZArith Lia.
From S2P Require Import Prelude Usize RustVec Chunks SliceChunks Level Binary Ieee Exact.
From Stdlib Require Import Floats.SpecFloat.
Import ListNotations.
Open Scope rust_scope.

Section Analyzer.
Context {F32 F64 : Type} `{PcmArith F32 F64}.

(** [size_of::<f32>()]. *)
Definition f32_size : Z := 4.

(** Line 84: [(total_samples + chunk_size_samples - 1) / chunk_size_samples]. *)
Definition num_chunks_expr (mode : overflow_mode) (total_samples chunk_size_samples : Z)
  : outcome Z :=
  s <- usize_add mode total_samples chunk_size_samples ;;
  s <- usize_sub mode s 1 ;;
  usize_div s chunk_size_samples.

(** Lines 95-96 (and 102-103): the level of one chunk pushed onto the
    results. *)
Definition push_level (dbfs_results : Vec.t (A := F32)) (chunk : list F32)
  : outcome (Vec.t (A := F32)) :=
  let rms := calculate_rms chunk in
  Vec.push f32_size dbfs_results (rms_to_dbfs rms).

(** Lines 92-104: drain [chunks_exact], then the non-empty remainder,
    pushing one level per chunk into [dbfs_results]. *)
Definition fill_results (pcm_slice : list F32) (chunk_size : nat)
    (dbfs_results : Vec.t (A := F32)) : outcome (Vec.t (A := F32)) :=
  chunks_iter <- ChunksExact.new pcm_slice chunk_size ;;
  '(dbfs_results, chunks_iter) <-
    ChunksExact.for_each (S (length pcm_slice))
      (fun chunk acc => push_level acc chunk) chunks_iter dbfs_results ;;
  let remainder := ChunksExact.remainder chunks_iter in
  if negb (is_empty remainder) then push_level dbfs_results remainder
  else Ok dbfs_results.

Definition analyze_audio_rms (mode : overflow_mode) (pcm_data : list F32)
    (chunk_size_samples : Z) : outcome (list F32) :=
  let pcm_vec := pcm_data in
  let total_samples := Z.of_nat (length pcm_vec) in
  if ((total_samples =? 0)%Z || (chunk_size_samples =? 0)%Z)%bool then Ok []
  else
    num_chunks <- num_chunks_expr mode total_samples chunk_size_samples ;;
    dbfs_results <- Vec.with_capacity f32_size num_chunks ;;
    let pcm_slice := pcm_vec in
    dbfs_results <- fill_results pcm_slice (Z.to_nat chunk_size_samples) dbfs_results ;;
    Ok (Vec.as_slice dbfs_results).

(** The result the spec describes (sections 3 and 4.3): one level per
    chunk of the partition, none for a zero chunk size. *)
Definition analyze_spec (pcm : list F32) (chunk_size : nat) : list F32 :=
  match chunk_size with
  | O => []
  | S _ => map chunk_dbfs (ChunksExact.chunks_ref chunk_size pcm)
  end.

(** ** Lemmas *)

Lemma f32_size_value : f32_size = 4%Z.
Proof. reflexivity. Qed.

(** The loop and the remainder push the levels of the reference
    partition, in order. *)
Lemma fill_results_spec pcm n v :
  0 < n ->
  fill_results pcm n v = fold_outcome (fun c acc => push_level acc c) (ChunksExact.chunks_ref n pcm) v.
Proof.
  intros Hn. unfold fill_results. rewrite ChunksExact.new_spec by exact Hn. cbn [bind].
  rewrite (ChunksExact.for_each_new _ pcm n _ v (ChunksExact.new_spec pcm n Hn)).
  rewrite (ChunksExact.chunks_ref_split n pcm Hn), fold_outcome_app.
  destruct (fold_outcome _ (ChunksExact.full_chunks n pcm) v) as [v'|p|]; cbn [bind];
    try reflexivity.
  unfold ChunksExact.remainder; simpl.
  destruct (skipn (length pcm / n * n) pcm) as [|x xs]; simpl; [reflexivity|].
  destruct (push_level v' (x :: xs)); reflexivity.
Qed.

(** With room for every level, the results are the levels of the
    partition and the vector keeps its capacity. *)
Lemma fill_results_spare pcm n v :
  0 < n ->
  (Z.of_nat (length (Vec.buf v) + length (ChunksExact.chunks_ref n pcm)) <= Vec.cap v)%Z ->
  fill_results pcm n v =
    Ok (Vec.mk (Vec.buf v ++ map chunk_dbfs (ChunksExact.chunks_ref n pcm)) (Vec.cap v)).
Proof.
  intros Hn Hcap. rewrite fill_results_spec by exact Hn.
  transitivity (fold_outcome (fun x w => Vec.push f32_size w x)
                  (map chunk_dbfs (ChunksExact.chunks_ref n pcm)) v).
  - rewrite fold_outcome_map. reflexivity.
  - apply Vec.push_all_spare. now rewrite length_map.
Qed.

Lemma num_chunks_nowrap mode len n :
  0 < len -> 0 < n -> (Z.of_nat len + Z.of_nat n <= usize_max)%Z ->
  num_chunks_expr mode (Z.of_nat len) (Z.of_nat n) = Ok (Z.of_nat (div_ceil len n)).
Proof.
  intros Hl Hn Hmax. unfold num_chunks_expr.
  rewrite usize_add_nowrap by exact Hmax. cbn [bind].
  rewrite usize_sub_nowrap by lia. cbn [bind].
  rewrite usize_div_nonzero by lia. f_equal.
  unfold div_ceil. rewrite Nat2Z.inj_div, Nat2Z.inj_sub, Nat2Z.inj_add by lia. reflexivity.
Qed.

(** When the sum wraps in a release build, the buffer fits in memory,
    so the chunk size exceeds the buffer and the capacity computed is 0
    or 1. *)
Lemma num_chunks_wrap len n :
  (Z.of_nat len * f32_size <= isize_max)%Z -> (Z.of_nat n <= usize_max)%Z ->
  (usize_max < Z.of_nat len + Z.of_nat n)%Z ->
  len <= n /\
  exists k, num_chunks_expr Wrapping (Z.of_nat len) (Z.of_nat n) = Ok k /\ (0 <= k <= 1)%Z.
Proof.
  rewrite f32_size_value. intros Hmem Hn Hover. usize_consts. split; [lia|].
  unfold num_chunks_expr.
  destruct (usize_add_wrapping_range (Z.of_nat len) (Z.of_nat n)) as (s & -> & Hs);
    [unfold in_usize; usize_consts; lia .. |]. cbn [bind].
  destruct (usize_sub_wrapping_range s 1) as (x & -> & Hx);
    [exact Hs | unfold in_usize; usize_consts; lia |]. cbn [bind].
  rewrite usize_div_nonzero by lia. eexists; split; [reflexivity|].
  unfold in_usize in Hx. usize_consts. split.
  - apply Z.div_pos; lia.
  - apply Z.lt_succ_r, Z.div_lt_upper_bound; lia.
Qed.

Lemma analyze_spec_length pcm n :
  0 < n -> length (analyze_spec pcm n) = div_ceil (length pcm) n.
Proof.
  intros Hn. destruct n as [|k]; [lia|]. unfold analyze_spec.
  now rewrite length_map, ChunksExact.chunks_ref_length.
Qed.

(** The spec's result on a buffer that begins with whole chunks is the
    result on those chunks followed by the result on the rest. *)
Lemma analyze_spec_app p1 p2 n :
  0 < n -> length p1 mod n = 0 -> analyze_spec (p1 ++ p2) n = analyze_spec p1 n ++ analyze_spec p2 n.
Proof.
  intros Hn Hm. destruct n as [|k]; [lia|]. unfold analyze_spec.
  now rewrite ChunksExact.chunks_ref_app, map_app.
Qed.

(** When every chunk of the partition has the same level [v], the spec's
    result is [ceil (len / n)] copies of [v]. *)
Lemma analyze_spec_const pcm n v :
  0 < n -> (forall ch, In ch (ChunksExact.chunks_ref n pcm) -> chunk_dbfs ch = v) ->
  analyze_spec pcm n = repeat v (div_ceil (length pcm) n).
Proof.
  intros Hn Hv. destruct n as [|k]; [lia|]. unfold analyze_spec.
  rewrite <- ChunksExact.chunks_ref_length. apply map_Forall_const, Forall_forall. exact Hv.
Qed.

(** A map on the samples that keeps every square changes nothing the
    loop computes: each chunk of the mapped buffer is the mapped chunk,
    whose RMS is the RMS of the chunk. *)
Lemma fill_results_map (g : F32 -> F32) pcm n v :
  (forall x, square_f64 (g x) = square_f64 x) ->
  fill_results (map g pcm) n v = fill_results pcm n v.
Proof.
  intros Hg. destruct n as [|k]; [reflexivity|].
  rewrite !fill_results_spec, ChunksExact.chunks_ref_map, fold_outcome_map by lia.
  apply fold_outcome_ext. intros c acc. unfold push_level. now rewrite calculate_rms_map.
Qed.

(** So does the whole operation, in every build profile, panics
    included: the length, the guard and line 84 see only the number of
    samples. *)
Lemma analyze_map (g : F32 -> F32) mode pcm c :
  (forall x, square_f64 (g x) = square_f64 x) ->
  analyze_audio_rms mode (map g pcm) c = analyze_audio_rms mode pcm c.
Proof.
  intros Hg. unfold analyze_audio_rms. rewrite length_map. cbv zeta.
  destruct (_ || _)%bool; [reflexivity|].
  destruct (num_chunks_expr _ _ _) as [k|p|]; cbn [bind]; try reflexivity.
  destruct (Vec.with_capacity _ _) as [v|p|]; cbn [bind]; try reflexivity.
  now rewrite fill_results_map.
Qed.

(** ** Theorems *)

(** C2: an empty buffer or a zero chunk size returns an empty result at
    once (lines 78-81), in every build profile: no partitioning, no
    division, no panic. *)
Theorem analyze_guard mode pcm c :
  pcm = [] \/ c = 0%Z -> analyze_audio_rms mode pcm c = Ok [].
Proof.
  intros Hg. unfold analyze_audio_rms. cbv zeta.
  replace ((Z.of_nat (length pcm) =? 0)%Z || (c =? 0)%Z)%bool with true; [reflexivity|].
  destruct Hg as [-> | ->]; [reflexivity | now rewrite Z.eqb_refl, Bool.orb_true_r].
Qed.

(** In a release build the operation never panics on a buffer that
    fits in wasm32 memory, and returns exactly the spec's sequence:
    the level of every chunk of the partition, in order.  This holds
    also when line 84 wraps around. *)
Lemma analyze_release pcm c :
  (Z.of_nat (length pcm) * f32_size <= isize_max)%Z -> in_usize c ->
  analyze_audio_rms Wrapping pcm c = Ok (analyze_spec pcm (Z.to_nat c)).
Proof.
  intros Hmem Hc. unfold in_usize in Hc.
  remember (Z.to_nat c) as n eqn:En. assert (c = Z.of_nat n) as -> by lia. clear En.
  destruct n as [|k];
    [unfold analyze_audio_rms; cbv zeta; now rewrite Z.eqb_refl, Bool.orb_true_r|].
  destruct pcm as [|x xs] eqn:Ep;
    [replace (analyze_audio_rms Wrapping [] (Z.of_nat (S k))) with (@Ok (list F32) [])
       by reflexivity; simpl; now rewrite ChunksExact.chunks_ref_nil|].
  rewrite <- Ep in *. assert (0 < length pcm) by (subst pcm; simpl; lia).
  unfold analyze_audio_rms, analyze_spec. cbv zeta.
  replace ((Z.of_nat (length pcm) =? 0)%Z || (Z.of_nat (S k) =? 0)%Z)%bool with false
    by (symmetry; apply Bool.orb_false_iff; split; apply Z.eqb_neq; lia).
  rewrite Nat2Z.id. pose proof (div_ceil_le (length pcm) (S k) ltac:(lia)).
  destruct (Z.leb_spec (Z.of_nat (length pcm) + Z.of_nat (S k)) usize_max) as [Hno|Hover].
  - rewrite num_chunks_nowrap by lia. cbn [bind].
    rewrite Vec.with_capacity_ok by (rewrite f32_size_value in *; lia). cbn [bind].
    rewrite fill_results_spare by (try lia; cbn [Vec.buf Vec.cap length Nat.add]; rewrite ChunksExact.chunks_ref_length; lia).
    reflexivity.
  - destruct (num_chunks_wrap (length pcm) (S k) Hmem ltac:(lia) Hover) as (Hle & m & -> & Hm).
    cbn [bind]. rewrite Vec.with_capacity_ok
      by (rewrite f32_size_value; unfold isize_max, usize_bits; simpl; lia).
    cbn [bind]. rewrite fill_results_spec, ChunksExact.chunks_ref_single by lia.
    assert (m = 0%Z \/ m = 1%Z) as [-> | ->] by lia; reflexivity.
Qed.

(** Without an overflow on line 84, a debug build computes what a
    release build computes. *)
Lemma analyze_checked_nowrap pcm c :
  (0 <= c)%Z -> (Z.of_nat (length pcm) + c <= usize_max)%Z ->
  analyze_audio_rms Checked pcm c = analyze_audio_rms Wrapping pcm c.
Proof.
  intros Hc Hno. unfold analyze_audio_rms, num_chunks_expr, usize_add. cbv zeta.
  destruct pcm as [|x xs]; [reflexivity|].
  destruct (_ || _)%bool; [reflexivity|].
  rewrite (proj2 (Z.leb_le _ _) Hno). cbn [bind].
  rewrite !usize_sub_nowrap by (simpl length in *; lia). reflexivity.
Qed.

(** In either build profile, when line 84 does not overflow (always in
    a release build), the operation returns the spec's sequence. *)
Lemma analyze_ok mode pcm c :
  (Z.of_nat (length pcm) * f32_size <= isize_max)%Z -> in_usize c ->
  (mode = Checked -> (Z.of_nat (length pcm) + c <= usize_max)%Z) ->
  analyze_audio_rms mode pcm c = Ok (analyze_spec pcm (Z.to_nat c)).
Proof.
  intros Hmem Hc Hno. destruct mode; [|now apply analyze_release].
  rewrite analyze_checked_nowrap by (unfold in_usize in Hc; auto; lia).
  now apply analyze_release.
Qed.

(** A debug build panics on line 84 or computes what a release build
    computes. *)
Lemma analyze_checked_or_release pcm c :
  (0 <= c)%Z ->
  analyze_audio_rms Checked pcm c = Panic AddOverflow \/
  analyze_audio_rms Checked pcm c = analyze_audio_rms Wrapping pcm c.
Proof.
  intros Hc. unfold analyze_audio_rms, num_chunks_expr, usize_add. cbv zeta.
  destruct pcm as [|x xs]; [now right|].
  destruct (_ || _)%bool; [now right|].
  destruct (Z.of_nat (length (x :: xs)) + c <=? usize_max)%Z; [|now left].
  right. cbn [bind]. rewrite !usize_sub_nowrap by (simpl length; lia). reflexivity.
Qed.

(** The panic of line 84 in a debug build. *)
Lemma analyze_checked_overflow pcm c :
  pcm <> [] -> (0 < c)%Z -> (usize_max < Z.of_nat (length pcm) + c)%Z ->
  analyze_audio_rms Checked pcm c = Panic AddOverflow.
Proof.
  intros Hp Hc Hov. unfold analyze_audio_rms. cbv zeta.
  destruct pcm as [|x xs]; [congruence|].
  replace ((Z.of_nat (length (x :: xs)) =? 0)%Z || (c =? 0)%Z)%bool with false
    by (symmetry; apply Bool.orb_false_iff; split; apply Z.eqb_neq; simpl length; lia).
  unfold num_chunks_expr. now rewrite usize_add_checked_overflow.
Qed.

(** Neither build runs a loop out of fuel on a buffer that fits in
    memory: every call returns or panics. *)
Lemma analyze_answers mode pcm c :
  (Z.of_nat (length pcm) * f32_size <= isize_max)%Z -> in_usize c ->
  analyze_audio_rms mode pcm c <> OutOfFuel.
Proof.
  intros Hmem Hc.
  assert (Hrel : analyze_audio_rms Wrapping pcm c <> OutOfFuel)
    by (rewrite analyze_release by assumption; discriminate).
  destruct mode; [|exact Hrel].
  destruct (analyze_checked_or_release pcm c) as [-> | ->];
    [unfold in_usize in Hc; lia | discriminate | exact Hrel].
Qed.

(** C1: functional correctness of a release build.  For a buffer that
    fits in wasm32 memory and a chunk size [c >= 1], the operation
    returns [ceil (len / c)] levels, and level [i] is
    [rms_to_dbfs (calculate_rms chunk)] of the samples [i * c] to
    [i * c + c - 1] (fewer for the last). *)
Theorem analyze_release_levels pcm c :
  (Z.of_nat (length pcm) * f32_size <= isize_max)%Z -> in_usize c -> (0 < c)%Z ->
  exists out, analyze_audio_rms Wrapping pcm c = Ok out /\
    length out = div_ceil (length pcm) (Z.to_nat c) /\
    forall i, i < length out ->
      nth_error out i = Some (chunk_dbfs (ChunksExact.chunk_at (Z.to_nat c) pcm i)).
Proof.
  intros Hmem Hc Hpos. exists (analyze_spec pcm (Z.to_nat c)).
  split; [now apply analyze_release|].
  rewrite analyze_spec_length by lia. split; [reflexivity|].
  intros i Hi. remember (Z.to_nat c) as n eqn:En. destruct n as [|k]; [lia|].
  unfold analyze_spec, ChunksExact.chunks_ref.
  rewrite map_map, nth_error_map, nth_error_seq.
  now rewrite (proj2 (Nat.ltb_lt _ _) Hi).
Qed.

(** C4: a debug build (overflow checks on) behaves like a release build
    except when [total_samples + chunk_size_samples] exceeds
    [usize::MAX] on line 84, where it panics, though the result would
    be well defined. *)
Theorem analyze_checked pcm c :
  in_usize c ->
  analyze_audio_rms Checked pcm c =
    if (negb (is_empty pcm) && negb (c =? 0)%Z &&
        (usize_max <? Z.of_nat (length pcm) + c)%Z)%bool
    then Panic AddOverflow else analyze_audio_rms Wrapping pcm c.
Proof.
  intros Hc. unfold in_usize in Hc. unfold analyze_audio_rms. cbv zeta.
  destruct pcm as [|x xs]; [reflexivity|]. cbn [is_empty negb andb].
  destruct (Z.eqb_spec c 0) as [->|Hc0]; [now rewrite Bool.orb_true_r|].
  cbn [negb andb]. rewrite Bool.orb_false_r.
  replace (Z.of_nat (length (x :: xs)) =? 0)%Z with false
    by (symmetry; apply Z.eqb_neq; simpl; lia).
  unfold num_chunks_expr.
  destruct (Z.ltb_spec usize_max (Z.of_nat (length (x :: xs)) + c)) as [Hov|Hno].
  - now rewrite usize_add_checked_overflow by exact Hov.
  - rewrite !usize_add_nowrap by exact Hno. cbn [bind].
    rewrite !usize_sub_nowrap by (simpl length; lia). reflexivity.
Qed.

(** C5: when line 84 does not overflow, the capacity reserved on line 85
    is exactly the number of results, and filling the vector never
    reallocates: its capacity at the end is the one reserved. *)
Theorem reserve_exact mode pcm c :
  pcm <> [] -> (0 < c)%Z -> (Z.of_nat (length pcm) + c <= usize_max)%Z ->
  exists num_chunks,
    num_chunks_expr mode (Z.of_nat (length pcm)) c = Ok num_chunks /\
    Z.to_nat num_chunks = length (analyze_spec pcm (Z.to_nat c)) /\
    fill_results pcm (Z.to_nat c) (Vec.mk [] num_chunks) =
      Ok (Vec.mk (analyze_spec pcm (Z.to_nat c)) num_chunks).
Proof.
  intros Hp Hpos Hno. remember (Z.to_nat c) as n eqn:En.
  assert (c = Z.of_nat n) as -> by lia. clear En.
  assert (0 < length pcm) by (destruct pcm; [congruence | simpl; lia]).
  exists (Z.of_nat (div_ceil (length pcm) n)). rewrite num_chunks_nowrap by lia.
  rewrite analyze_spec_length, Nat2Z.id by lia. repeat split.
  rewrite fill_results_spare by (try lia; cbn [Vec.buf Vec.cap length Nat.add]; rewrite ChunksExact.chunks_ref_length; lia).
  destruct n; [lia | reflexivity].
Qed.

(** C29: equivalence with the reference iterator.  The loop over
    [chunks_exact] followed by the remainder (lines 92-104) pushes the
    same levels in the same order, and panics alike, as a loop over
    [pcm_slice.chunks(chunk_size)], for every chunk size, zero
    included. *)
Theorem fill_results_chunks pcm n v :
  fill_results pcm n v =
    r <- (it <- SliceChunks.new pcm n ;;
          SliceChunks.for_each (S (length pcm)) (fun c acc => push_level acc c) it v) ;;
    Ok (fst r).
Proof.
  destruct n as [|k]; [reflexivity|].
  rewrite fill_results_spec, SliceChunks.chunks_for_each_new by lia.
  now destruct (fold_outcome _ _ _).
Qed.

(** C30: the value line 84 computes in a release build.  For [usize]
    operands and a non-zero divisor it is
    [((t + c - 1) mod 2^32) / c], never more than [t], so the
    reservation of line 85 never exceeds the sample count.  It is the
    exact [ceil (t / c)] if and only if [t + c - 1] fits in [usize]; when
    only [t + c] wraps to [0], the subtraction wraps back and the value
    is still exact. *)
Theorem num_chunks_release t c :
  in_usize t -> in_usize c -> c <> 0%Z ->
  (num_chunks_expr Wrapping t c = Ok (((t + c - 1) mod usize_modulus) / c) /\
   (t + c - 1) mod usize_modulus / c <= t /\
   ((t + c - 1) mod usize_modulus / c = (t + c - 1) / c <-> t + c - 1 <= usize_max))%Z.
Proof.
  unfold in_usize. intros Ht Hc Hc0.
  assert (Hc1 : (0 < c)%Z) by lia.
  assert (Hval : num_chunks_expr Wrapping t c = Ok (((t + c - 1) mod usize_modulus) / c)%Z).
  { unfold num_chunks_expr, usize_add, usize_sub, usize_div. usize_consts.
    rewrite (proj2 (Z.eqb_neq c 0) Hc0).
    destruct (Z.leb_spec (t + c) 4294967295) as [Hno|Hov]; cbn [bind].
    - rewrite (proj2 (Z.leb_le 0 (t + c - 1)) ltac:(lia)). cbn [bind].
      rewrite Z.mod_small by lia. reflexivity.
    - assert (Hs : ((t + c) mod 4294967296 = t + c - 4294967296)%Z).
      { rewrite Z.mod_eq by lia. replace ((t + c) / 4294967296)%Z with 1%Z
          by (apply Z.div_unique with (t + c - 4294967296)%Z; lia). lia. }
      rewrite Hs. destruct (Z.leb_spec 0 (t + c - 4294967296 - 1)); cbn [bind].
      + do 2 f_equal. rewrite Z.mod_eq by lia.
        replace ((t + c - 1) / 4294967296)%Z with 1%Z
          by (apply Z.div_unique with (t + c - 1 - 4294967296)%Z; lia). lia.
      + do 2 f_equal. rewrite !Z.mod_eq by lia.
        replace ((t + c - 4294967296 - 1) / 4294967296)%Z with (-1)%Z
          by (apply Z.div_unique with (4294967295)%Z; lia).
        replace ((t + c - 1) / 4294967296)%Z with 0%Z
          by (apply Z.div_unique with (t + c - 1)%Z; lia). lia. }
  split; [exact Hval|]. usize_consts.
  pose proof (Z.mod_pos_bound (t + c - 1) 4294967296 ltac:(lia)) as Hm.
  assert (Hle : forall a, (0 <= a <= t + c - 1)%Z -> (a / c <= t)%Z).
  { intros a Ha. apply Z.lt_succ_r, Z.div_lt_upper_bound; nia. }
  destruct (Z.leb_spec (t + c - 1) 4294967295) as [Hno|Hov].
  - rewrite Z.mod_small by lia. split; [apply Hle; lia | tauto].
  - rewrite Z.mod_eq by lia.
    replace ((t + c - 1) / 4294967296)%Z with 1%Z
      by (apply Z.div_unique with (t + c - 1 - 4294967296)%Z; lia).
    split; [apply Hle; lia|].
    split; [|lia]. intros Heq. exfalso.
    assert (Hlt : ((t + c - 1 - 4294967296 * 1) / c < (t + c - 1) / c)%Z); [|lia].
    apply Z.div_lt_upper_bound; [lia|].
    pose proof (Z.mod_pos_bound (t + c - 1) c Hc1).
    pose proof (Z.div_mod (t + c - 1) c Hc0). nia.
Qed.

(** C15: spec 5, calls by segment.  In either build profile (without
    an overflow on line 84), a caller that splits its buffer
    after a whole number of chunks and calls the operation on each
    segment, concatenating the results, gets what one call on the whole
    buffer returns: no level depends on samples outside its chunk, and
    the partition restarts at the segment boundary exactly as it runs on
    through it. *)
Theorem analyze_segments mode p1 p2 c :
  (Z.of_nat (length (p1 ++ p2)) * f32_size <= isize_max)%Z -> in_usize c -> (0 < c)%Z ->
  (mode = Checked -> (Z.of_nat (length (p1 ++ p2)) + c <= usize_max)%Z) ->
  length p1 mod Z.to_nat c = 0 ->
  analyze_audio_rms mode (p1 ++ p2) c =
    (l1 <- analyze_audio_rms mode p1 c ;;
     l2 <- analyze_audio_rms mode p2 c ;;
     Ok (l1 ++ l2)).
Proof.
  intros Hmem Hc Hpos Hno Hm. rewrite length_app in Hmem, Hno. rewrite f32_size_value in *.
  rewrite !analyze_ok
    by (rewrite ?length_app, ?f32_size_value; auto; try lia; intros E; specialize (Hno E); lia).
  cbn [bind]. f_equal. apply analyze_spec_app; [lia | exact Hm].
Qed.

(** A buffer that fits in wasm32 memory has fewer than [2^53] samples,
    so [len as f64] is exact for every chunk. *)
Lemma wasm_len_small (pcm : list F32) :
  (Z.of_nat (length pcm) * f32_size <= isize_max)%Z -> (Z.of_nat (length pcm) < 2 ^ 53)%Z.
Proof. rewrite f32_size_value, isize_max_value. lia. Qed.
End Analyzer.

(** ** Levels of the IEEE program on whole classes of buffers

    With the IEEE instance and any [log10f], the operation's result on
    two classes of buffers is known exactly: a silent buffer gives the
    floor for every chunk, and a buffer of samples of one magnitude
    gives the level of that magnitude for every chunk, the short last
    one included.  The spec's scenarios 2 and 3 are instances (see the
    witnesses). *)

Section IeeeLevels.
Variable log10f : binary32 -> binary32.
#[local] Instance ieee_program : PcmArith binary32 binary64 := ieee_arith log10f.

(** C14: spec 8, silence.  In either build profile (without an
    overflow on line 84), a buffer of zeros of
    either sign gives [ceil (len / c)] levels, each exactly the floor
    [20 * log10 MIN_RMS], never [log10f 0]; the remainder chunk too. *)
Theorem analyze_silence mode (pcm : list binary32) c :
  (Z.of_nat (length pcm) * f32_size <= isize_max)%Z -> in_usize c -> (0 < c)%Z ->
  (mode = Checked -> (Z.of_nat (length pcm) + c <= usize_max)%Z) ->
  forallb is_zero pcm = true ->
  analyze_audio_rms mode pcm c = Ok (repeat dbfs_floor (div_ceil (length pcm) (Z.to_nat c))).
Proof.
  intros Hmem Hc Hpos Hno Hz. pose proof (wasm_len_small pcm Hmem).
  rewrite analyze_ok by assumption. f_equal. apply analyze_spec_const; [lia|].
  intros ch Hch. destruct (ChunksExact.chunks_ref_In (Z.to_nat c) pcm ch ltac:(lia) Hch) as (Hne & Hlen & Hin).
  assert (Hz' : forallb is_zero ch = true).
  { apply forallb_forall. intros x Hx. exact (proj1 (forallb_forall _ _) Hz x (Hin x Hx)). }
  assert (R : calculate_rms ch = S754_zero false)
    by (assert (Hl : (Z.of_nat (length ch) < 2 ^ 53)%Z) by lia;
        exact (silent_rms log10f ch Hne Hl Hz')).
  unfold chunk_dbfs. rewrite R. exact (zero_rms_floor log10f).
Qed.

(** C32: spec 8, constant magnitude, with no tolerance.  In either
    build profile (without an overflow on line 84), a buffer whose samples all have magnitude [m * 2^e] (signs
    free) gives [ceil (len / c)] levels, each exactly
    [rms_to_dbfs (m * 2^e)]: the RMS of every chunk, the short last one
    included, is exactly the magnitude, provided the chunk length times
    the square of the odd part of [m] is below [2^53] (every binary32
    power of two, so full scale [+-1.0], at any wasm32 chunk length). *)
Theorem analyze_constant_magnitude mode (pcm : list binary32) c m e :
  (Z.of_nat (length pcm) * f32_size <= isize_max)%Z -> in_usize c -> (0 < c)%Z ->
  (mode = Checked -> (Z.of_nat (length pcm) + c <= usize_max)%Z) ->
  valid_binary prec32 emax32 (S754_finite false m e) = true ->
  Forall (fun y => sf_abs y = S754_finite false m e) pcm ->
  (Z.of_nat (Nat.min (length pcm) (Z.to_nat c)) * Zpos (odd_part m) * Zpos (odd_part m)
     < 2 ^ 53)%Z ->
  analyze_audio_rms mode pcm c =
    Ok (repeat (rms_to_dbfs (S754_finite false m e)) (div_ceil (length pcm) (Z.to_nat c))).
Proof.
  intros Hmem Hc Hpos Hno Hv Hall Hn.
  rewrite analyze_ok by assumption. f_equal. apply analyze_spec_const; [lia|].
  intros ch Hch. destruct (ChunksExact.chunks_ref_In (Z.to_nat c) pcm ch ltac:(lia) Hch) as (Hne & Hlen & Hin).
  unfold chunk_dbfs. f_equal. apply (constant_magnitude_rms log10f); [exact Hv | exact Hne | |].
  - apply Forall_forall. intros x Hx. exact (proj1 (Forall_forall _ _) Hall x (Hin x Hx)).
  - apply Z.le_lt_trans with (2 := Hn). apply Z.mul_le_mono_nonneg_r; [lia|].
    apply Z.mul_le_mono_nonneg_r; lia.
Qed.

(** C17: polarity inversion.  Negating every sample of the buffer
    (inverting the signal's polarity) changes nothing the operation
    returns, bit for bit, in every build profile and for every buffer
    and chunk size: the same levels, or the same panic.  Line 34 squares
    each sample after widening, and the IEEE square of [-x] is the
    square of [x], zeros, infinities and NaN included. *)
Theorem analyze_polarity mode (pcm : list binary32) c :
  analyze_audio_rms mode (map SFopp pcm) c = analyze_audio_rms mode pcm c.
Proof. apply analyze_map. intros x. exact (square_f64_opp log10f x). Qed.

(** C36: the boundary chunk size 1.  With one sample per chunk, every
    level is exactly the level of that sample's magnitude,
    [rms_to_dbfs |x|], for every binary32 sample (subnormals, [f32::MAX],
    zeros, infinities; NaN gives the floor through the clamp), in both
    build profiles: the RMS of one sample is computed with no rounding
    at all, and line 84 cannot overflow for a buffer wasm32 can hold. *)
Theorem analyze_unit_chunks mode (pcm : list binary32) :
  (Z.of_nat (length pcm) * f32_size <= isize_max)%Z ->
  Forall (fun x => valid_binary prec32 emax32 x = true) pcm ->
  analyze_audio_rms mode pcm 1 = Ok (map (fun x => rms_to_dbfs (sf_abs x)) pcm).
Proof.
  intros Hmem Hv. rewrite analyze_ok
    by (try (unfold in_usize; usize_consts; lia);
        intros _; rewrite f32_size_value, isize_max_value in Hmem; usize_consts; lia).
  change (analyze_spec pcm _) with (map chunk_dbfs (ChunksExact.chunks_ref 1 pcm)).
  rewrite ChunksExact.chunks_ref_one, map_map. f_equal. apply map_ext_in.
  intros x Hx. unfold chunk_dbfs. f_equal.
  exact (single_sample_rms log10f x (proj1 (Forall_forall _ _) Hv x Hx)).
Qed.
End IeeeLevels.

(** ** Witnesses of the theorems on concrete inputs *)

#[local] Existing Instance ieee_sample.

Definition ones3 : list binary32 := repeat (f32_of_Z 1) 3.
Definition zeros3 : list binary32 := repeat (S754_zero false) 3.

Lemma analyze_guard_witness :
  analyze_audio_rms Wrapping [] 10 = Ok [] /\ analyze_audio_rms Checked [f32_of_Z 1] 0 = Ok [].
Proof.
  split; [apply (analyze_guard Wrapping [] 10) | apply (analyze_guard Checked [f32_of_Z 1] 0)];
    [left | right]; reflexivity.
Defined.

Lemma analyze_release_levels_witness :
  (Z.of_nat (length ones3) * f32_size <= isize_max)%Z /\ in_usize 2 /\
  exists out, analyze_audio_rms Wrapping ones3 2 = Ok out /\
    length out = div_ceil (length ones3) (Z.to_nat 2) /\
    forall i, i < length out ->
      nth_error out i = Some (chunk_dbfs (ChunksExact.chunk_at (Z.to_nat 2) ones3 i)).
Proof.
  assert (Hm : (Z.of_nat (length ones3) * f32_size <= isize_max)%Z)
    by (rewrite isize_max_value; simpl; lia).
  assert (Hc : in_usize 2) by (unfold in_usize; rewrite usize_max_value; lia).
  split; [exact Hm|]. split; [exact Hc|].
  apply (analyze_release_levels ones3 2 Hm Hc). lia.
Defined.

Lemma analyze_checked_witness :
  in_usize 4294967295 /\
  analyze_audio_rms Checked [f32_of_Z 1; f32_of_Z 1] 4294967295 =
    if (negb (is_empty [f32_of_Z 1; f32_of_Z 1]) && negb (4294967295 =? 0)%Z &&
        (usize_max <? Z.of_nat (length [f32_of_Z 1; f32_of_Z 1]) + 4294967295)%Z)%bool
    then Panic AddOverflow
    else analyze_audio_rms Wrapping [f32_of_Z 1; f32_of_Z 1] 4294967295.
Proof.
  assert (Hc : in_usize 4294967295) by (unfold in_usize; rewrite usize_max_value; lia).
  split; [exact Hc|]. apply (analyze_checked [f32_of_Z 1; f32_of_Z 1] 4294967295 Hc).
Defined.

Lemma reserve_exact_witness :
  exists num_chunks,
    num_chunks_expr Checked (Z.of_nat (length ones3)) 2 = Ok num_chunks /\
    Z.to_nat num_chunks = length (analyze_spec ones3 (Z.to_nat 2)) /\
    fill_results ones3 (Z.to_nat 2) (Vec.mk [] num_chunks) =
      Ok (Vec.mk (analyze_spec ones3 (Z.to_nat 2)) num_chunks).
Proof.
  apply (reserve_exact Checked ones3 2);
    [discriminate | lia | rewrite usize_max_value; simpl; lia].
Defined.

(** Spec scenario 2, in a debug build: three samples [0.0] in one
    chunk of 3 give the floor, which is [-200.0] dBFS when [log10f]
    rounds [log10 1e-10] to [-10]. *)
Lemma analyze_silence_witness :
  (Z.of_nat (length zeros3) * f32_size <= isize_max)%Z /\ in_usize 3 /\ (0 < 3)%Z /\
  (Checked = Checked -> (Z.of_nat (length zeros3) + 3 <= usize_max)%Z) /\
  forallb is_zero zeros3 = true /\
  analyze_audio_rms Checked zeros3 3 =
    Ok (repeat dbfs_floor (div_ceil (length zeros3) (Z.to_nat 3))) /\
  repeat dbfs_floor (div_ceil (length zeros3) (Z.to_nat 3)) = [f32_of_Z (-200)].
Proof.
  assert (Hm : (Z.of_nat (length zeros3) * f32_size <= isize_max)%Z)
    by (rewrite isize_max_value; simpl; lia).
  assert (Hc : in_usize 3) by (unfold in_usize; rewrite usize_max_value; lia).
  assert (Hz : forallb is_zero zeros3 = true) by reflexivity.
  assert (Hno : Checked = Checked -> (Z.of_nat (length zeros3) + 3 <= usize_max)%Z)
    by (intros _; rewrite usize_max_value; simpl; lia).
  split; [exact Hm|]. split; [exact Hc|]. split; [lia|]. split; [exact Hno|]. split; [exact Hz|].
  split; [exact (analyze_silence log10f_sample Checked zeros3 3 Hm Hc ltac:(lia) Hno Hz)|].
  vm_compute. reflexivity.
Defined.

(** Spec scenario 1 followed by scenario 3 in chunks of 2, in a debug
    build: the call on
    seven samples [1.0] is the call on the first four followed by the
    call on the last three. *)
Lemma analyze_segments_witness :
  (Z.of_nat (length (repeat (f32_of_Z 1) 4 ++ ones3)) * f32_size <= isize_max)%Z /\
  in_usize 2 /\ (0 < 2)%Z /\
  (Checked = Checked ->
     (Z.of_nat (length (repeat (f32_of_Z 1) 4 ++ ones3)) + 2 <= usize_max)%Z) /\
  length (repeat (f32_of_Z 1) 4) mod Z.to_nat 2 = 0 /\
  analyze_audio_rms Checked (repeat (f32_of_Z 1) 4 ++ ones3) 2 =
    (l1 <- analyze_audio_rms Checked (repeat (f32_of_Z 1) 4) 2 ;;
     l2 <- analyze_audio_rms Checked ones3 2 ;;
     Ok (l1 ++ l2)).
Proof.
  assert (Hm : (Z.of_nat (length (repeat (f32_of_Z 1) 4 ++ ones3)) * f32_size <= isize_max)%Z)
    by (rewrite isize_max_value; simpl; lia).
  assert (Hc : in_usize 2) by (unfold in_usize; rewrite usize_max_value; lia).
  assert (Hd : length (repeat (f32_of_Z 1) 4) mod Z.to_nat 2 = 0) by reflexivity.
  assert (Hno : Checked = Checked ->
                (Z.of_nat (length (repeat (f32_of_Z 1) 4 ++ ones3)) + 2 <= usize_max)%Z)
    by (intros _; rewrite usize_max_value; simpl; lia).
  split; [exact Hm|]. split; [exact Hc|]. split; [lia|]. split; [exact Hno|]. split; [exact Hd|].
  exact (analyze_segments Checked (repeat (f32_of_Z 1) 4) ones3 2 Hm Hc ltac:(lia) Hno Hd).
Defined.

(** Spec scenario 3: three samples [1.0] in chunks of 2 give two levels,
    the second from the one-sample remainder, both the level of [1.0],
    which is [0.0] dBFS when [log10f 1 = +0]. *)
Lemma analyze_constant_magnitude_witness :
  (Z.of_nat (length ones3) * f32_size <= isize_max)%Z /\ in_usize 2 /\ (0 < 2)%Z /\
  (Wrapping = Checked -> (Z.of_nat (length ones3) + 2 <= usize_max)%Z) /\
  valid_binary prec32 emax32 (S754_finite false 8388608 (-23)) = true /\
  Forall (fun y => sf_abs y = S754_finite false 8388608 (-23)) ones3 /\
  (Z.of_nat (Nat.min (length ones3) (Z.to_nat 2)) * Zpos (odd_part 8388608) *
     Zpos (odd_part 8388608) < 2 ^ 53)%Z /\
  analyze_audio_rms Wrapping ones3 2 =
    Ok (repeat (rms_to_dbfs (S754_finite false 8388608 (-23)))
               (div_ceil (length ones3) (Z.to_nat 2))) /\
  repeat (rms_to_dbfs (S754_finite false 8388608 (-23))) (div_ceil (length ones3) (Z.to_nat 2))
    = [S754_zero false; S754_zero false].
Proof.
  assert (Hm : (Z.of_nat (length ones3) * f32_size <= isize_max)%Z)
    by (rewrite isize_max_value; simpl; lia).
  assert (Hc : in_usize 2) by (unfold in_usize; rewrite usize_max_value; lia).
  assert (Hv : valid_binary prec32 emax32 (S754_finite false 8388608 (-23)) = true)
    by (vm_compute; reflexivity).
  assert (Ha : Forall (fun y => sf_abs y = S754_finite false 8388608 (-23)) ones3)
    by (repeat constructor).
  assert (Hn : (Z.of_nat (Nat.min (length ones3) (Z.to_nat 2)) * Zpos (odd_part 8388608) *
                  Zpos (odd_part 8388608) < 2 ^ 53)%Z) by (vm_compute; reflexivity).
  assert (Hno : Wrapping = Checked -> (Z.of_nat (length ones3) + 2 <= usize_max)%Z)
    by discriminate.
  split; [exact Hm|]. split; [exact Hc|]. split; [lia|]. split; [exact Hno|]. split; [exact Hv|].
  split; [exact Ha|]. split; [exact Hn|].
  split; [exact (analyze_constant_magnitude log10f_sample Wrapping ones3 2 _ _ Hm Hc ltac:(lia)
                   Hno Hv Ha Hn)|].
  vm_compute. reflexivity.
Defined.

Lemma num_chunks_release_witness :
  in_usize 4294967295 /\ in_usize 2 /\ 2%Z <> 0%Z /\
  (num_chunks_expr Wrapping 4294967295 2 = Ok (((4294967295 + 2 - 1) mod usize_modulus) / 2) /\
   (4294967295 + 2 - 1) mod usize_modulus / 2 <= 4294967295 /\
   ((4294967295 + 2 - 1) mod usize_modulus / 2 = (4294967295 + 2 - 1) / 2 <->
     4294967295 + 2 - 1 <= usize_max))%Z.
Proof.
  assert (H1 : in_usize 4294967295) by (unfold in_usize; usize_consts; lia).
  assert (H2 : in_usize 2) by (unfold in_usize; usize_consts; lia).
  split; [exact H1|]. split; [exact H2|]. split; [discriminate|].
  exact (num_chunks_release 4294967295 2 H1 H2 ltac:(discriminate)).
Defined.

(** The condition of [analyze_segments] is needed: splitting four
    samples [1.0] after three, in chunks of 2, analyses the one-sample
    remainder of the first segment as a chunk of its own and returns
    three levels where one call returns two. *)
Lemma analyze_segments_misaligned :
  (l1 <- analyze_audio_rms Wrapping ones3 2 ;;
   l2 <- analyze_audio_rms Wrapping [f32_of_Z 1] 2 ;;
   Ok (length (l1 ++ l2))) = Ok 3 /\
  (l <- analyze_audio_rms Wrapping (ones3 ++ [f32_of_Z 1]) 2 ;; Ok (length l)) = Ok 2.
Proof. split; vm_compute; reflexivity. Qed.

(** Chunk size 1 in a debug build, on [-3.0], [-0.0], the smallest
    subnormal and [-inf]: each level is the level of the magnitude. *)
Definition mixed4 : list binary32 :=
  [f32_of_Z (-3); S754_zero true; S754_finite false 1 (-149); S754_infinity true].

Lemma analyze_unit_chunks_witness :
  (Z.of_nat (length mixed4) * f32_size <= isize_max)%Z /\
  Forall (fun x => valid_binary prec32 emax32 x = true) mixed4 /\
  analyze_audio_rms Checked mixed4 1 = Ok (map (fun x => rms_to_dbfs (sf_abs x)) mixed4).
Proof.
  assert (Hm : (Z.of_nat (length mixed4) * f32_size <= isize_max)%Z)
    by (rewrite isize_max_value; simpl; lia).
  assert (Hv : Forall (fun x => valid_binary prec32 emax32 x = true) mixed4)
    by (repeat constructor).
  split; [exact Hm|]. split; [exact Hv|].
  exact (analyze_unit_chunks log10f_sample Checked mixed4 Hm Hv).
Defined.
