(* ===== verification/Boundary.v ===== *)
(** * The wasm-bindgen boundary: JS arrays, the panic hook, and a session

    The module is instantiated once in a Web Worker and called from JS.
    This file models what surrounds the numeric code at that boundary:

    - Module [Js]: the JS heap of [Float32Array] objects, a finite map
      from object references to their contents (stdpp's [gmap]).  The
      three calls of lib.rs that cross it are [Float32Array::to_vec]
      (line 73), which reserves a [Vec<f32>] of the array's length in
      wasm memory ([Vec::with_capacity], so an array of more than
      [isize::MAX / 4] elements is a capacity-overflow panic) and copies
      the elements; [Float32Array::new_with_length(0)] (line 80); and
      [Float32Array::from] (line 108), which allocates a new JS array
      holding a copy of the slice.  An allocation takes a reference
      fresh for the heap.
    - [analyzeAudioRms]: the exported function with its marshalling, on
      the IEEE instance with the platform's [log10f] as a variable.
    - [init_panic_hook] (lines 13-17): with the crate feature
      [console_error_panic_hook] enabled, [set_once] installs the console
      hook the first time, under a [std::sync::Once]; without the
      feature the function does nothing.  A panic runs the installed
      hook (the console hook logs the message with [console.error]; the
      default hook of wasm32-unknown-unknown writes nowhere), then the
      wasm instance traps and JS receives an exception.
    - [instance], [run_call], [reachable]: the module instance as a
      state machine over the calls JS makes, each answered by a value or
      a trap.
    - [call_spec], [observe]: the stateless contract of spec 5, what a
      call answers as a function of the call and the array contents
      alone; a session refines it ([session_stateless]).  Because the
      copy of line 73 precedes the guard of line 78, an oversized array
      traps even with a zero chunk size ([oversized_array_traps]). *)

Local Set Warnings "-notation-incompatible-prefix".
From Stdlib Require Import List ZArith Lia.
From Stdlib Require Import Floats.SpecFloat.
From stdpp Require Import gmap.
From S2P Require Import Prelude Usize RustVec Level Binary Ieee Analyzer.
Import ListNotations.
Open Scope rust_scope.

Module Js.

(** The JS heap: every [Float32Array] object by its reference. *)
Record heap : Type := mk_heap { arrays : gmap positive (list binary32) }.

(** A new JS object, at a reference not in use. *)
Definition alloc (h : heap) (contents : list binary32) : heap * positive :=
  let a := fresh (dom (arrays h)) in (mk_heap (<[a := contents]> (arrays h)), a).

(** [Float32Array::to_vec]: [Vec::with_capacity(self.length() as usize)],
    then the elements copied in; [None] for a reference to no array. *)
Definition to_vec (h : heap) (a : positive) : option (outcome (Vec.t (A := binary32))) :=
  match arrays h !! a with
  | None => None
  | Some contents =>
      Some (v <- Vec.with_capacity (A := binary32) f32_size (Z.of_nat (length contents)) ;;
            Ok (Vec.mk contents (Vec.cap v)))
  end.

(** [Float32Array::new_with_length(n)]: [n] zeros. *)
Definition new_with_length (h : heap) (n : nat) : heap * positive :=
  alloc h (repeat (S754_zero false) n).

(** [Float32Array::from(slice)]: a new array holding a copy. *)
Definition from (h : heap) (slice : list binary32) : heap * positive := alloc h slice.

End Js.

(** The panic hook of [std::panic]. *)
Inductive hook_kind : Type :=
| DefaultHook   (* wasm32-unknown-unknown: the message is written nowhere *)
| ConsoleHook.  (* console_error_panic_hook: console.error(message) *)

(** A module instance: the JS heap it shares with its caller, the
    [Once] of [set_once], the installed hook, and the messages logged to
    the console. *)
Record instance : Type := mk_instance {
  heap : Js.heap;
  once_done : bool;
  panic_hook : hook_kind;
  console : list panic_reason
}.

(** [console_error_panic_hook::set_once]. *)
Definition set_once (st : instance) : instance :=
  if once_done st then st
  else mk_instance (heap st) true ConsoleHook (console st).

(** Lines 13-17; [console_feature] is [cfg(feature = "console_error_panic_hook")]. *)
Definition init_panic_hook (console_feature : bool) (st : instance) : instance :=
  if console_feature then set_once st else st.

(** A panic: the installed hook runs before the instance traps. *)
Definition report_panic (st : instance) (p : panic_reason) : instance :=
  match panic_hook st with
  | ConsoleHook => mk_instance (heap st) (once_done st) ConsoleHook (console st ++ [p])
  | DefaultHook => st
  end.

Inductive call : Type :=
| CallInit
| CallAnalyze (pcm_data : positive) (chunk_size_samples : Z).

Inductive response : Type :=
| Returned                   (* init_panic_hook returned *)
| ReturnedArray (a : positive) (* analyzeAudioRms returned a Float32Array *)
| Trapped.                   (* RuntimeError: unreachable *)

Section WithLibm.
Variable log10f : binary32 -> binary32.
#[local] Instance ieee_boundary : PcmArith binary32 binary64 := ieee_arith log10f.

(** Lines 67-108 with their marshalling: the JS array is copied into a
    [Vec<f32>], the guard of line 78 returns a new empty array, and the
    levels are copied into a new JS array.  [None] when [pcm_data]
    refers to no array. *)
Definition analyzeAudioRms (mode : overflow_mode) (h : Js.heap) (pcm_data : positive)
    (chunk_size_samples : Z) : option (outcome (Js.heap * positive)) :=
  match Js.to_vec h pcm_data with
  | None => None
  | Some pcm_vec =>
      Some (pcm_vec <- pcm_vec ;;
            let total_samples := Z.of_nat (length (Vec.buf pcm_vec)) in
            if ((total_samples =? 0)%Z || (chunk_size_samples =? 0)%Z)%bool
            then Ok (Js.new_with_length h 0)
            else dbfs_results <- analyze_audio_rms mode (Vec.as_slice pcm_vec) chunk_size_samples ;;
                 Ok (Js.from h dbfs_results))
  end.

(** One call from JS into the instance; [None] when the model cannot
    answer (a reference to no array, or a loop out of fuel). *)
Definition run_call (console_feature : bool) (mode : overflow_mode) (st : instance) (c : call)
  : option (instance * response) :=
  match c with
  | CallInit => Some (init_panic_hook console_feature st, Returned)
  | CallAnalyze pcm_data n =>
      match analyzeAudioRms mode (heap st) pcm_data n with
      | None | Some OutOfFuel => None
      | Some (Ok (h', a)) => Some (mk_instance h' (once_done st) (panic_hook st) (console st),
                                   ReturnedArray a)
      | Some (Panic p) => Some (report_panic st p, Trapped)
      end
  end.

(** A fresh instance over a JS heap: no hook installed, nothing logged. *)
Definition initial (h : Js.heap) : instance := mk_instance h false DefaultHook [].

(** The instances a session of calls can reach. *)
Inductive reachable (console_feature : bool) (mode : overflow_mode) : instance -> Prop :=
| reachable_initial h : reachable console_feature mode (initial h)
| reachable_step st c st' r :
    reachable console_feature mode st ->
    run_call console_feature mode st c = Some (st', r) ->
    reachable console_feature mode st'.

(** The hook invariant: the [Once] has run exactly when the console hook
    is installed, it is installed only with the feature, and only an
    installed console hook has logged anything. *)
Definition hook_inv (console_feature : bool) (st : instance) : Prop :=
  (once_done st = true <-> panic_hook st = ConsoleHook) /\
  (panic_hook st = ConsoleHook -> console_feature = true) /\
  (console st <> [] -> panic_hook st = ConsoleHook).

(** A session: JS makes the calls in order, each on the instance the
    previous one left. *)
Fixpoint run_session (console_feature : bool) (mode : overflow_mode) (st : instance)
    (calls : list call) : option (instance * list response) :=
  match calls with
  | [] => Some (st, [])
  | c :: cs =>
      match run_call console_feature mode st c with
      | None => None
      | Some (st', r) =>
          match run_session console_feature mode st' cs with
          | None => None
          | Some (st'', rs) => Some (st'', r :: rs)
          end
      end
  end.

Definition is_trap (r : response) : bool := match r with Trapped => true | _ => false end.

(** The stateless contract of spec 5 ("no shared mutable state between
    calls"): what JS observes of a call, as a function of the call and
    of the contents of the arrays alone. *)
Inductive answer : Type :=
| AnsReturned
| AnsLevels (levels : list binary32)
| AnsTrap.

Definition call_spec (mode : overflow_mode) (h : Js.heap) (c : call) : option answer :=
  match c with
  | CallInit => Some AnsReturned
  | CallAnalyze a n =>
      match Js.arrays h !! a with
      | None => None
      | Some pcm =>
          if Vec.layout_ok f32_size (Z.of_nat (length pcm)) then
            match analyze_audio_rms mode pcm n with
            | Ok r => Some (AnsLevels r)
            | Panic _ => Some AnsTrap
            | OutOfFuel => None
            end
          else Some AnsTrap
      end
  end.

(** What JS sees of a response, reading a returned array in the heap. *)
Definition observe (h : Js.heap) (r : response) : option answer :=
  match r with
  | Returned => Some AnsReturned
  | ReturnedArray b => option_map AnsLevels (Js.arrays h !! b)
  | Trapped => Some AnsTrap
  end.

(** ** Lemmas *)

Lemma alloc_fresh (h : Js.heap) l : Js.arrays h !! snd (Js.alloc h l) = None.
Proof. unfold Js.alloc; simpl. apply not_elem_of_dom, is_fresh. Qed.

Lemma alloc_new (h : Js.heap) l : Js.arrays (fst (Js.alloc h l)) !! snd (Js.alloc h l) = Some l.
Proof. unfold Js.alloc; simpl. apply lookup_insert_eq. Qed.

(** An allocation leaves every existing array as it was. *)

Lemma alloc_frame (h : Js.heap) l b x :
  Js.arrays h !! b = Some x -> Js.arrays (fst (Js.alloc h l)) !! b = Some x.
Proof.
  intros Hb. unfold Js.alloc; simpl. rewrite lookup_insert_ne; [exact Hb|].
  intros E. apply (is_fresh (dom (Js.arrays h))). rewrite E. apply elem_of_dom. eauto.
Qed.

(** Two allocations of the same contents: distinct references to equal
    arrays. *)
Lemma alloc_twice (h : Js.heap) l :
  snd (Js.alloc h l) <> snd (Js.alloc (fst (Js.alloc h l)) l) /\
  Js.arrays (fst (Js.alloc (fst (Js.alloc h l)) l)) !! snd (Js.alloc h l) =
  Js.arrays (fst (Js.alloc (fst (Js.alloc h l)) l)) !! snd (Js.alloc (fst (Js.alloc h l)) l).
Proof.
  split.
  - intros E. pose proof (alloc_fresh (fst (Js.alloc h l)) l) as Hf.
    rewrite <- E, alloc_new in Hf. discriminate.
  - rewrite alloc_new. apply alloc_frame, alloc_new.
Qed.

Lemma to_vec_spec (h : Js.heap) a pcm :
  Js.arrays h !! a = Some pcm ->
  Js.to_vec h a =
    Some (if Vec.layout_ok f32_size (Z.of_nat (length pcm))
          then Ok (Vec.mk pcm (Z.of_nat (length pcm))) else Panic CapacityOverflow).
Proof.
  intros H. unfold Js.to_vec, Vec.with_capacity. rewrite H.
  now destruct (Vec.layout_ok _ _).
Qed.

(** The marshalling around [analyze_audio_rms]: an array too large for
    wasm memory panics in [to_vec]; otherwise the levels are copied into
    a new JS array (for the guard of line 78, an empty one). *)
Lemma analyzeAudioRms_spec mode (h : Js.heap) a pcm c :
  Js.arrays h !! a = Some pcm ->
  analyzeAudioRms mode h a c =
    Some (if Vec.layout_ok f32_size (Z.of_nat (length pcm))
          then r <- analyze_audio_rms mode pcm c ;; Ok (Js.from h r)
          else Panic CapacityOverflow).
Proof.
  intros H. unfold analyzeAudioRms. rewrite (to_vec_spec h a pcm H). f_equal.
  destruct (Vec.layout_ok _ _); [|reflexivity]. cbn [bind Vec.buf Vec.as_slice].
  destruct (_ || _)%bool eqn:Hg; [|reflexivity].
  unfold analyze_audio_rms. cbv zeta. now rewrite Hg.
Qed.

Lemma analyzeAudioRms_None mode (h : Js.heap) a c :
  Js.arrays h !! a = None -> analyzeAudioRms mode h a c = None.
Proof. intros H. unfold analyzeAudioRms, Js.to_vec. now rewrite H. Qed.

(** A call to [analyzeAudioRms] on an array of the heap. *)
Lemma run_call_analyze f mode st a pcm c :
  Js.arrays (heap st) !! a = Some pcm ->
  run_call f mode st (CallAnalyze a c) =
    if Vec.layout_ok f32_size (Z.of_nat (length pcm)) then
      match analyze_audio_rms mode pcm c with
      | Ok r => Some (mk_instance (fst (Js.from (heap st) r)) (once_done st) (panic_hook st)
                        (console st), ReturnedArray (snd (Js.from (heap st) r)))
      | Panic p => Some (report_panic st p, Trapped)
      | OutOfFuel => None
      end
    else Some (report_panic st CapacityOverflow, Trapped).
Proof.
  intros H. unfold run_call. rewrite (analyzeAudioRms_spec mode _ a pcm c H).
  destruct (Vec.layout_ok _ _); [|reflexivity].
  now destruct (analyze_audio_rms mode pcm c).
Qed.

Lemma run_call_analyze_live f mode st a c st' r :
  run_call f mode st (CallAnalyze a c) = Some (st', r) ->
  exists pcm, Js.arrays (heap st) !! a = Some pcm.
Proof.
  unfold run_call. destruct (Js.arrays (heap st) !! a) as [pcm|] eqn:E; [eauto|].
  now rewrite analyzeAudioRms_None.
Qed.

Lemma report_panic_heap st p : heap (report_panic st p) = heap st.
Proof. unfold report_panic. now destruct (panic_hook st). Qed.

Lemma layout_ok_f32 n :
  (n * f32_size <= isize_max)%Z -> Vec.layout_ok f32_size n = true.
Proof. intros H. unfold Vec.layout_ok. now apply Z.leb_le. Qed.

(** A call to [analyzeAudioRms] either traps after running the hook, or
    returns a new array and leaves the hook and the console alone. *)
Lemma run_call_analyze_cases f mode st a c st' r :
  run_call f mode st (CallAnalyze a c) = Some (st', r) ->
  (exists p, st' = report_panic st p /\ r = Trapped) \/
  (exists h' b, st' = mk_instance h' (once_done st) (panic_hook st) (console st) /\
                r = ReturnedArray b).
Proof.
  unfold run_call. destruct (analyzeAudioRms mode (heap st) a c) as [[[h' b]|p|]|];
    intros H; simplify_eq; eauto.
Qed.

Lemma init_panic_hook_heap f st : heap (init_panic_hook f st) = heap st.
Proof. unfold init_panic_hook, set_once. now destruct f, (once_done st). Qed.

(** No call changes or frees an array of the JS heap. *)
Lemma run_call_preserves f mode st c st' r b x :
  run_call f mode st c = Some (st', r) ->
  Js.arrays (heap st) !! b = Some x -> Js.arrays (heap st') !! b = Some x.
Proof.
  intros Hc Hb. destruct c as [|a n].
  - simpl in Hc. simplify_eq. now rewrite init_panic_hook_heap.
  - destruct (run_call_analyze_live _ _ _ _ _ _ _ Hc) as [pcm Ha].
    rewrite (run_call_analyze f mode st a pcm n Ha) in Hc. unfold Js.from in Hc.
    destruct (Vec.layout_ok _ _); [destruct (analyze_audio_rms mode pcm n)|];
      simplify_eq; rewrite ?report_panic_heap; cbn [heap]; auto using alloc_frame.
Qed.

(** Every call on an array of the heap, with a chunk size that is a
    [usize], is answered: by an array or a trap. *)
Lemma call_answered f mode st c :
  match c with
  | CallInit => True
  | CallAnalyze a n => is_Some (Js.arrays (heap st) !! a) /\ in_usize n
  end ->
  exists st' r, run_call f mode st c = Some (st', r).
Proof.
  destruct c as [|a n]; [simpl; eauto|]. intros [[pcm Ha] Hn].
  rewrite (run_call_analyze f mode st a pcm n Ha).
  destruct (Vec.layout_ok _ _) eqn:Hl; [|eauto].
  pose proof (analyze_answers mode pcm n (proj1 (Z.leb_le _ _) Hl) Hn).
  destruct (analyze_audio_rms mode pcm n); [eauto | eauto | congruence].
Qed.

Lemma report_panic_hook_inv f st p : hook_inv f st -> hook_inv f (report_panic st p).
Proof.
  unfold hook_inv, report_panic. destruct (panic_hook st) eqn:E; [now rewrite E|].
  cbn [once_done panic_hook console]. intros (H1 & H2 & H3).
  split; [exact H1 | split; [exact H2 | reflexivity]].
Qed.

(** With the console hook installed, a call keeps it installed and logs
    one message exactly when it traps. *)
Lemma run_call_console f mode st c st' r :
  panic_hook st = ConsoleHook -> run_call f mode st c = Some (st', r) ->
  panic_hook st' = ConsoleHook /\
  length (console st') = length (console st) + (if is_trap r then 1 else 0).
Proof.
  intros Hh Hc. destruct c as [|a n].
  - simpl in Hc. simplify_eq. unfold init_panic_hook, set_once.
    destruct f, (once_done st); simpl; split; auto; lia.
  - destruct (run_call_analyze_cases _ _ _ _ _ _ _ Hc) as [(p & -> & ->) | (h' & b & -> & ->)].
    + unfold report_panic. rewrite Hh. simpl. rewrite length_app. simpl. split; auto; lia.
    + simpl. split; auto; lia.
Qed.

(** No session changes or frees an array of the JS heap. *)
Lemma run_session_preserves f mode st calls st' rs b x :
  run_session f mode st calls = Some (st', rs) ->
  Js.arrays (heap st) !! b = Some x -> Js.arrays (heap st') !! b = Some x.
Proof.
  revert st rs; induction calls as [|c cs IH]; intros st rs Hs Hb; simpl in Hs; [now simplify_eq|].
  destruct (run_call f mode st c) as [[st1 r]|] eqn:E; [|discriminate].
  destruct (run_session f mode st1 cs) as [[st2 rs']|] eqn:E2; [|discriminate].
  simplify_eq. eapply IH; [exact E2|]. exact (run_call_preserves _ _ _ _ _ _ _ _ E Hb).
Qed.

(** One call answers as the stateless contract says, read in any heap
    that keeps the arrays the call left. *)
Lemma run_call_spec f mode st c st1 r (h : Js.heap) :
  run_call f mode st c = Some (st1, r) ->
  (forall b x, Js.arrays (heap st1) !! b = Some x -> Js.arrays h !! b = Some x) ->
  observe h r = call_spec mode h c.
Proof.
  intros Hc Hh. destruct c as [|a n]; [simpl in Hc; now simplify_eq|].
  destruct (run_call_analyze_live _ _ _ _ _ _ _ Hc) as [pcm Ha].
  cbn [call_spec]. rewrite (Hh a pcm (run_call_preserves _ _ _ _ _ _ _ _ Hc Ha)).
  rewrite (run_call_analyze f mode st a pcm n Ha) in Hc. unfold Js.from in Hc.
  destruct (Vec.layout_ok _ _); [destruct (analyze_audio_rms mode pcm n) as [out|p|]|];
    simplify_eq; try reflexivity.
  cbn [observe]. now rewrite (Hh _ out (alloc_new (heap st) out)).
Qed.

(** ** Theorems *)

(** C22: [analyzeAudioRms] does not mutate its input (spec 4.3) or any
    other JS array, and its result is a new array, allocated by the
    call: a reference that was not in the heap before and is after. *)
Theorem analyze_call_frame f mode st a n st' r :
  run_call f mode st (CallAnalyze a n) = Some (st', r) ->
  (forall b x, Js.arrays (heap st) !! b = Some x -> Js.arrays (heap st') !! b = Some x) /\
  (forall b, r = ReturnedArray b ->
     Js.arrays (heap st) !! b = None /\ is_Some (Js.arrays (heap st') !! b)).
Proof.
  intros Hc. split; [intros b x; now apply run_call_preserves with (1 := Hc)|].
  intros b ->. destruct (run_call_analyze_live _ _ _ _ _ _ _ Hc) as [pcm Ha].
  rewrite (run_call_analyze f mode st a pcm n Ha) in Hc. unfold Js.from in Hc.
  destruct (Vec.layout_ok _ _); [destruct (analyze_audio_rms mode pcm n) as [out|p|]|];
    simplify_eq; cbn [heap].
  split; [exact (alloc_fresh _ out) | eexists; exact (alloc_new _ out)].
Qed.

(** C23: in a release build, a call on a JS array that fits in wasm
    memory returns a new JS array holding the spec's levels, one per
    chunk, and logs nothing. *)
Theorem release_call_levels f st a pcm c :
  Js.arrays (heap st) !! a = Some pcm ->
  (Z.of_nat (length pcm) * f32_size <= isize_max)%Z -> in_usize c ->
  exists st' b, run_call f Wrapping st (CallAnalyze a c) = Some (st', ReturnedArray b) /\
    Js.arrays (heap st') !! b = Some (analyze_spec pcm (Z.to_nat c)) /\
    console st' = console st.
Proof.
  intros Ha Hmem Hc. rewrite (run_call_analyze f Wrapping st a pcm c Ha).
  rewrite layout_ok_f32, analyze_release by assumption.
  eexists _, _. split; [reflexivity|]. split; [apply alloc_new | reflexivity].
Qed.

(** C24: after the console hook is installed, the overflow of line 84
    in a debug build traps the call and logs "attempt to add with
    overflow" to the console; the JS heap is unchanged. *)
Theorem debug_overflow_reported f st a pcm c :
  panic_hook st = ConsoleHook -> Js.arrays (heap st) !! a = Some pcm -> pcm <> [] ->
  (Z.of_nat (length pcm) * f32_size <= isize_max)%Z -> in_usize c ->
  (usize_max < Z.of_nat (length pcm) + c)%Z ->
  run_call f Checked st (CallAnalyze a c) =
    Some (mk_instance (heap st) (once_done st) ConsoleHook (console st ++ [AddOverflow]), Trapped).
Proof.
  intros Hh Ha Hp Hmem Hc Hov. rewrite (run_call_analyze f Checked st a pcm c Ha).
  rewrite layout_ok_f32 by exact Hmem.
  rewrite analyze_checked_overflow
    by (auto; unfold in_usize in Hc; rewrite f32_size_value in Hmem; usize_consts; lia).
  unfold report_panic. now rewrite Hh.
Qed.

(** C25: in every instance a session reaches, the [Once] of [set_once]
    has run exactly when the console hook is installed, the hook is
    installed only in a build with the feature, and the console holds
    messages only once the hook is installed: without
    [init_panic_hook], a panic is silent. *)
Theorem reachable_hook_inv f mode st :
  reachable f mode st -> hook_inv f st.
Proof.
  induction 1 as [h | st c st' r Hr IH Hc].
  - unfold hook_inv, initial; simpl. repeat split; try discriminate. congruence.
  - destruct c as [|a n].
    + simpl in Hc. simplify_eq. unfold init_panic_hook, set_once.
      destruct f; [|exact IH]. destruct (once_done st); [exact IH|].
      unfold hook_inv; simpl. repeat split; auto.
    + destruct (run_call_analyze_cases _ _ _ _ _ _ _ Hc) as [(p & -> & _) | (h' & b & -> & _)];
        [now apply report_panic_hook_inv | exact IH].
Qed.

(** C26: every session is answered in full: when each [analyzeAudioRms]
    call refers to a JS array that existed when the session began, with
    a chunk size that is a [usize], each call returns or traps, in both
    build profiles; no call runs forever. *)
Theorem session_answered f mode st calls :
  Forall (fun c => match c with
                   | CallInit => True
                   | CallAnalyze a n => is_Some (Js.arrays (heap st) !! a) /\ in_usize n
                   end) calls ->
  exists st' rs, run_session f mode st calls = Some (st', rs) /\ length rs = length calls.
Proof.
  revert st; induction calls as [|c cs IH]; intros st Hall; [simpl; eauto|].
  inversion Hall as [|c' cs' Hc Hcs]; subst.
  destruct (call_answered f mode st c Hc) as (st1 & r & E).
  assert (Hcs1 : Forall (fun c => match c with
                   | CallInit => True
                   | CallAnalyze a n => is_Some (Js.arrays (heap st1) !! a) /\ in_usize n
                   end) cs).
  { eapply Forall_impl; [exact Hcs|]. intros [|a n]; [auto|].
    intros [[x Hx] Hn]. split; [|exact Hn]. exists x. now apply run_call_preserves with (1 := E). }
  destruct (IH st1 Hcs1) as (st2 & rs & E2 & Hlen).
  exists st2, (r :: rs). simpl. rewrite E, E2. split; [reflexivity | simpl; lia].
Qed.

(** C27: calling [analyzeAudioRms] twice on the same array and chunk
    size gives identical results (spec 8): two distinct new arrays with
    the same contents, or two traps. *)
Theorem repeated_call_identical f mode st a n st1 r1 st2 r2 :
  run_call f mode st (CallAnalyze a n) = Some (st1, r1) ->
  run_call f mode st1 (CallAnalyze a n) = Some (st2, r2) ->
  match r1, r2 with
  | ReturnedArray b1, ReturnedArray b2 =>
      b1 <> b2 /\ Js.arrays (heap st2) !! b1 = Js.arrays (heap st2) !! b2
  | Trapped, Trapped => True
  | _, _ => False
  end.
Proof.
  intros H1 H2. destruct (run_call_analyze_live _ _ _ _ _ _ _ H1) as [pcm Ha].
  pose proof (run_call_preserves _ _ _ _ _ _ _ _ H1 Ha) as Ha1.
  rewrite (run_call_analyze f mode st a pcm n Ha) in H1.
  rewrite (run_call_analyze f mode st1 a pcm n Ha1) in H2. unfold Js.from in *.
  destruct (Vec.layout_ok _ _); [destruct (analyze_audio_rms mode pcm n) as [out|p|]|];
    simplify_eq; simpl; auto.
  exact (alloc_twice (heap st) out).
Qed.

(** C28: once the console hook is installed, every trap of a session is
    reported: the console gains exactly one message per trapped call,
    and the hook stays installed. *)
Theorem session_reports_every_trap f mode st calls st' rs :
  panic_hook st = ConsoleHook ->
  run_session f mode st calls = Some (st', rs) ->
  panic_hook st' = ConsoleHook /\
  length (console st') = length (console st) + length (List.filter is_trap rs).
Proof.
  revert st rs; induction calls as [|c cs IH]; intros st rs Hh Hs; simpl in Hs.
  - simplify_eq. simpl. split; [exact Hh | lia].
  - destruct (run_call f mode st c) as [[st1 r]|] eqn:E; [|discriminate].
    destruct (run_session f mode st1 cs) as [[st2 rs']|] eqn:E2; [|discriminate].
    simplify_eq. destruct (run_call_console _ _ _ _ _ _ Hh E) as [Hh1 Hl1].
    destruct (IH st1 rs' Hh1 E2) as [Hh2 Hl2]. split; [exact Hh2|].
    simpl. destruct (is_trap r); simpl in *; lia.
Qed.


(** C18: the one failure of spec 7, and no partial result.  A call on a
    JS array of more than [isize::MAX / 4] samples traps in
    [Float32Array::to_vec] (line 73), which cannot reserve the [Vec<f32>].
    This happens in every build profile and for every chunk size, zero
    included, because the copy comes before the guard of line 78.  The
    installed hook reports [CapacityOverflow].  The trapped instance's JS
    heap is the heap before the call: no result array, not even an empty
    one, was created. *)
Theorem oversized_array_traps f mode st a pcm n :
  Js.arrays (heap st) !! a = Some pcm ->
  (isize_max < Z.of_nat (length pcm) * f32_size)%Z ->
  run_call f mode st (CallAnalyze a n) = Some (report_panic st CapacityOverflow, Trapped) /\
  heap (report_panic st CapacityOverflow) = heap st.
Proof.
  intros Ha Hbig. split; [|apply report_panic_heap].
  rewrite (run_call_analyze f mode st a pcm n Ha).
  replace (Vec.layout_ok f32_size (Z.of_nat (length pcm))) with false; [reflexivity|].
  symmetry. apply Z.leb_gt. exact Hbig.
Qed.

(** C16: refinement of the stateless contract (spec 5).  Every response
    of a session, read in the heap the session ends with, is what
    [call_spec] gives for its call from the array contents alone: no
    answer depends on the calls before it, on the panic hook or on the
    console, also when a call reads an array an earlier call returned. *)
Theorem session_stateless f mode st calls st' rs :
  run_session f mode st calls = Some (st', rs) ->
  Forall2 (fun c r => observe (heap st') r = call_spec mode (heap st') c) calls rs.
Proof.
  revert st rs; induction calls as [|c cs IH]; intros st rs Hs; simpl in Hs; [now simplify_eq|].
  destruct (run_call f mode st c) as [[st1 r]|] eqn:E; [|discriminate].
  destruct (run_session f mode st1 cs) as [[st2 rs']|] eqn:E2; [|discriminate].
  simplify_eq. constructor; [|exact (IH st1 rs' E2)].
  apply (run_call_spec f mode st c st1 r _ E). intros b x. now apply run_session_preserves with (1 := E2).
Qed.
End WithLibm.

(** ** Witnesses on a concrete session

    One JS array of three samples [1.0]; [log10f_sample] stands in for
    libm. *)

#[local] Existing Instance ieee_sample.

Definition demo_heap : Js.heap := Js.mk_heap {[1%positive := repeat (f32_of_Z 1) 3]}.
Definition demo : instance := initial demo_heap.
Definition demo_hooked : instance := init_panic_hook true demo.

(** The release call [analyzeAudioRms(pcm, 2)] on [demo], and the same
    call again on the instance it leaves. *)
Definition demo_call : instance * response := Eval vm_compute in
  match run_call log10f_sample true Wrapping demo (CallAnalyze 1 2) with
  | Some x => x | None => (demo, Returned) end.
Definition demo_call2 : instance * response := Eval vm_compute in
  match run_call log10f_sample true Wrapping (fst demo_call) (CallAnalyze 1 2) with
  | Some x => x | None => (demo, Returned) end.

(** A debug session after [init_panic_hook]: one call that returns and
    one that overflows on line 84. *)
Definition demo_calls : list call := [CallAnalyze 1 2; CallAnalyze 1 4294967295].
Definition demo_session : instance * list response := Eval vm_compute in
  match run_session log10f_sample true Checked demo_hooked demo_calls with
  | Some x => x | None => (demo, []) end.

Lemma analyze_call_frame_witness :
  run_call log10f_sample true Wrapping demo (CallAnalyze 1 2) = Some (fst demo_call, snd demo_call) /\
  (forall b x, Js.arrays (heap demo) !! b = Some x -> Js.arrays (heap (fst demo_call)) !! b = Some x) /\
  (forall b, snd demo_call = ReturnedArray b ->
     Js.arrays (heap demo) !! b = None /\ is_Some (Js.arrays (heap (fst demo_call)) !! b)).
Proof.
  split; [vm_compute; reflexivity|].
  apply (analyze_call_frame log10f_sample true Wrapping demo 1 2). vm_compute. reflexivity.
Defined.

Lemma release_call_levels_witness :
  Js.arrays (heap demo) !! 1%positive = Some (repeat (f32_of_Z 1) 3) /\
  (Z.of_nat (length (repeat (f32_of_Z 1) 3)) * f32_size <= isize_max)%Z /\ in_usize 2 /\
  exists st' b, run_call log10f_sample true Wrapping demo (CallAnalyze 1 2) = Some (st', ReturnedArray b) /\
    Js.arrays (heap st') !! b = Some (analyze_spec (repeat (f32_of_Z 1) 3) (Z.to_nat 2)) /\
    console st' = console demo.
Proof.
  split; [vm_compute; reflexivity|]. split; [vm_compute; discriminate|].
  split; [unfold in_usize; usize_consts; lia|].
  apply release_call_levels; [vm_compute; reflexivity | vm_compute; discriminate |
    unfold in_usize; usize_consts; lia].
Defined.

Lemma debug_overflow_reported_witness :
  panic_hook demo_hooked = ConsoleHook /\
  Js.arrays (heap demo_hooked) !! 1%positive = Some (repeat (f32_of_Z 1) 3) /\
  repeat (f32_of_Z 1) 3 <> [] /\
  (Z.of_nat (length (repeat (f32_of_Z 1) 3)) * f32_size <= isize_max)%Z /\
  in_usize 4294967295 /\ (usize_max < Z.of_nat (length (repeat (f32_of_Z 1) 3)) + 4294967295)%Z /\
  run_call log10f_sample true Checked demo_hooked (CallAnalyze 1 4294967295) =
    Some (mk_instance (heap demo_hooked) (once_done demo_hooked) ConsoleHook
            (console demo_hooked ++ [AddOverflow]), Trapped).
Proof.
  split; [reflexivity|]. split; [vm_compute; reflexivity|]. split; [discriminate|].
  split; [vm_compute; discriminate|]. split; [unfold in_usize; usize_consts; lia|].
  split; [usize_consts; simpl; lia|].
  apply debug_overflow_reported with (pcm := repeat (f32_of_Z 1) 3);
    [reflexivity | vm_compute; reflexivity | discriminate | vm_compute; discriminate |
     unfold in_usize; usize_consts; lia | usize_consts; simpl; lia].
Defined.

Lemma reachable_hook_inv_witness :
  reachable log10f_sample true Checked demo_hooked /\ hook_inv true demo_hooked.
Proof.
  assert (H : reachable log10f_sample true Checked demo_hooked)
    by (apply (reachable_step _ _ _ demo CallInit demo_hooked Returned);
        [apply reachable_initial | reflexivity]).
  split; [exact H | exact (reachable_hook_inv log10f_sample true Checked demo_hooked H)].
Defined.

Lemma session_answered_witness :
  Forall (fun c => match c with
                   | CallInit => True
                   | CallAnalyze a n => is_Some (Js.arrays (heap demo) !! a) /\ in_usize n
                   end) (CallInit :: demo_calls) /\
  exists st' rs, run_session log10f_sample true Checked demo (CallInit :: demo_calls) = Some (st', rs) /\
                 length rs = length (CallInit :: demo_calls).
Proof.
  assert (H : Forall (fun c => match c with
                   | CallInit => True
                   | CallAnalyze a n => is_Some (Js.arrays (heap demo) !! a) /\ in_usize n
                   end) (CallInit :: demo_calls)).
  { repeat constructor; try (exists (repeat (f32_of_Z 1) 3); vm_compute; reflexivity);
      unfold in_usize; usize_consts; lia. }
  split; [exact H | exact (session_answered log10f_sample true Checked demo _ H)].
Defined.

Lemma repeated_call_identical_witness :
  run_call log10f_sample true Wrapping demo (CallAnalyze 1 2) = Some (fst demo_call, snd demo_call) /\
  run_call log10f_sample true Wrapping (fst demo_call) (CallAnalyze 1 2) =
    Some (fst demo_call2, snd demo_call2) /\
  match snd demo_call, snd demo_call2 with
  | ReturnedArray b1, ReturnedArray b2 =>
      b1 <> b2 /\ Js.arrays (heap (fst demo_call2)) !! b1 = Js.arrays (heap (fst demo_call2)) !! b2
  | Trapped, Trapped => True
  | _, _ => False
  end.
Proof.
  split; [vm_compute; reflexivity|]. split; [vm_compute; reflexivity|].
  apply (repeated_call_identical log10f_sample true Wrapping demo 1 2 (fst demo_call) (snd demo_call));
    vm_compute; reflexivity.
Defined.

Lemma session_reports_every_trap_witness :
  panic_hook demo_hooked = ConsoleHook /\
  run_session log10f_sample true Checked demo_hooked demo_calls =
    Some (fst demo_session, snd demo_session) /\
  panic_hook (fst demo_session) = ConsoleHook /\
  length (console (fst demo_session)) =
    length (console demo_hooked) + length (List.filter is_trap (snd demo_session)).
Proof.
  split; [reflexivity|]. split; [vm_compute; reflexivity|].
  apply (session_reports_every_trap log10f_sample true Checked demo_hooked demo_calls);
    [reflexivity | vm_compute; reflexivity].
Defined.

Lemma session_stateless_witness :
  run_session log10f_sample true Checked demo_hooked demo_calls =
    Some (fst demo_session, snd demo_session) /\
  Forall2 (fun c r => observe (heap (fst demo_session)) r =
                      call_spec log10f_sample Checked (heap (fst demo_session)) c)
    demo_calls (snd demo_session).
Proof.
  assert (H : run_session log10f_sample true Checked demo_hooked demo_calls =
                Some (fst demo_session, snd demo_session)) by (vm_compute; reflexivity).
  split; [exact H | exact (session_stateless log10f_sample true Checked _ _ _ _ H)].
Defined.

(** A JS array of [2^29] samples (2 GiB, one byte over what wasm32 can
    reserve) with chunk size 0: the call traps, though the chunk size
    alone would select the empty result.  The array is never built:
    its length is read off [repeat]. *)
Definition huge_heap : Js.heap :=
  Js.mk_heap {[1%positive := repeat (f32_of_Z 1) (Z.to_nat (2 ^ 29))]}.

Lemma oversized_array_traps_witness :
  Js.arrays (heap (initial huge_heap)) !! 1%positive =
    Some (repeat (f32_of_Z 1) (Z.to_nat (2 ^ 29))) /\
  (isize_max < Z.of_nat (length (repeat (f32_of_Z 1) (Z.to_nat (2 ^ 29)))) * f32_size)%Z /\
  run_call log10f_sample true Wrapping (initial huge_heap) (CallAnalyze 1 0) =
    Some (report_panic (initial huge_heap) CapacityOverflow, Trapped) /\
  heap (report_panic (initial huge_heap) CapacityOverflow) = heap (initial huge_heap).
Proof.
  assert (H1 : Js.arrays (heap (initial huge_heap)) !! 1%positive =
                 Some (repeat (f32_of_Z 1) (Z.to_nat (2 ^ 29))))
    by apply lookup_singleton_eq.
  assert (H2 : (isize_max < Z.of_nat (length (repeat (f32_of_Z 1) (Z.to_nat (2 ^ 29))))
                              * f32_size)%Z)
    by (rewrite repeat_length, Z2Nat.id, isize_max_value, f32_size_value; lia).
  split; [exact H1|]. split; [exact H2|].
  exact (oversized_array_traps log10f_sample true Wrapping _ 1 _ 0 H1 H2).
Defined.
